(** * DiffMem: the versioned, embedding-indexed memory store

    A shallow embedding of [src/core/memory/diffmem_integration.py]
    (class [DiffMemManager] and dataclass [MemoryEntry]) and the properties
    of its append / retrieve / consolidate / stats operations, and of the
    node that calls it, [src/core/node/node_manager.py] (classes
    [HumanAINode] and [OllamaAgent]).

    Modelling conventions.
    - Python [float] is modelled by the real numbers [R]: [np.log1p x] is
      [ln (1 + x)], [np.exp] is [exp], [np.linalg.norm] is the square root
      of the sum of squares.  Rounding, infinities and NaN are outside the
      model.
    - Python [str] is a sequence of Unicode code points ([list Z]); [bytes]
      is a sequence of octets ([list Z]).
    - An exception is a value: a fallible computation returns [result A].
    - The manager object is threaded explicitly: an operation takes the
      manager and returns the manager it leaves behind together with its
      outcome.  The clock ([time.time()]), the outcome of the file-system
      and Git calls, and the external libraries (zlib, the DBSCAN
      implementation, the sentence-transformers model) are arguments.
      One operation reads the clock once.
    - The entries of [self.memories] are distinct objects: the index is a
      list of entry values, and the entries an operation returns are the
      values its objects hold when it returns.
    - [hashlib.sha256] and the UTF-8 codec are modelled in full (FIPS 180-4,
      the Unicode standard's well-formed byte sequences) and checked on
      test vectors.
    - The worker pool, the Git lock and the background timer are not
      modelled: every operation is one atomic step. *)

From Stdlib Require Import String ZArith Reals Lra Lia Bool List Permutation Sorted FinFun.
Import ListNotations.


(** ** Python values, exceptions and sequence primitives *)

Module Py.

(** The built-in exceptions the modelled code can meet. *)
Inductive exn : Type :=
| UnicodeEncodeError
| UnicodeDecodeError
| ValueError
| IndexError
| ZlibError
| OSError
| GitCommandError
| RuntimeError.

Inductive result (A : Type) : Type :=
| Ok (a : A)
| Raise (e : exn).
Arguments Ok {A} a.
Arguments Raise {A} e.

Definition bind {A B} (r : result A) (k : A -> result B) : result B :=
  match r with
  | Ok a => k a
  | Raise e => Raise e
  end.

Definition is_ok {A} (r : result A) : bool :=
  match r with Ok _ => true | Raise _ => false end.

(** [str]: a sequence of code points; [bytes]: a sequence of octets. *)
Definition str := list Z.
Definition bytes := list Z.

Definition len {A} (l : list A) : Z := Z.of_nat (length l).

(** [l[:k]]: the first [k] items for [k >= 0]; for a negative [k],
    everything but the last [-k] items. *)
Definition slice_to {A} (k : Z) (l : list A) : list A :=
  if (0 <=? k)%Z then firstn (Z.to_nat k) l
  else firstn (length l - Z.to_nat (- k)) l.

(** [enumerate(l)], counting from [i]. *)
Fixpoint enumerate_from {A} (i : nat) (l : list A) : list (nat * A) :=
  match l with
  | [] => []
  | x :: l' => (i, x) :: enumerate_from (S i) l'
  end.

Definition enumerate {A} (l : list A) : list (nat * A) := enumerate_from 0 l.

(** [int(x)] on a float: truncation toward zero. *)
Definition int_of_float (x : R) : Z :=
  if Rle_dec 0 x then Int_part x else (- Int_part (- x))%Z.

End Py.

Import Py.

Declare Scope py_scope.
Notation "x <- c1 ;; c2" := (Py.bind c1 (fun x => c2))
  (at level 61, c1 at next level, right associativity) : py_scope.
Open Scope py_scope.

(** ** The UTF-8 codec of [str.encode('utf-8')] and [bytes.decode('utf-8')]

    Both are strict: encoding refuses surrogate code points
    (U+D800..U+DFFF), decoding refuses overlong forms, surrogates, values
    above U+10FFFF and truncated or stray continuation bytes. *)

Module Utf8.
Local Open Scope Z_scope.

Definition is_surrogate (c : Z) : bool := (0xD800 <=? c) && (c <=? 0xDFFF).

(** A code point that [encode] accepts: a Unicode scalar value. *)
Definition scalar (c : Z) : Prop :=
  0 <= c < 0x110000 /\ is_surrogate c = false.

Definition encode_point (c : Z) : result bytes :=
  if c <? 0 then Raise UnicodeEncodeError
  else if c <? 0x80 then Ok [c]
  else if c <? 0x800 then Ok [0xC0 + c / 64; 0x80 + c mod 64]
  else if is_surrogate c then Raise UnicodeEncodeError
  else if c <? 0x10000 then
    Ok [0xE0 + c / 4096; 0x80 + (c / 64) mod 64; 0x80 + c mod 64]
  else if c <? 0x110000 then
    Ok [0xF0 + c / 262144; 0x80 + (c / 4096) mod 64;
        0x80 + (c / 64) mod 64; 0x80 + c mod 64]
  else Raise UnicodeEncodeError.

Fixpoint encode (s : str) : result bytes :=
  match s with
  | [] => Ok []
  | c :: s' =>
      b <- encode_point c ;;
      bs <- encode s' ;;
      Ok (b ++ bs)
  end.

Definition continuation (b : Z) : bool := (0x80 <=? b) && (b <=? 0xBF).

Fixpoint decode (bs : bytes) : result str :=
  match bs with
  | [] => Ok []
  | b0 :: r0 =>
      if (0 <=? b0) && (b0 <? 0x80) then
        s <- decode r0 ;; Ok (b0 :: s)
      else if (0xC0 <=? b0) && (b0 <? 0xE0) then
        match r0 with
        | b1 :: r1 =>
            let c := (b0 - 0xC0) * 64 + (b1 - 0x80) in
            if continuation b1 && (0x80 <=? c) then
              s <- decode r1 ;; Ok (c :: s)
            else Raise UnicodeDecodeError
        | _ => Raise UnicodeDecodeError
        end
      else if (0xE0 <=? b0) && (b0 <? 0xF0) then
        match r0 with
        | b1 :: b2 :: r2 =>
            let c := (b0 - 0xE0) * 4096 + (b1 - 0x80) * 64 + (b2 - 0x80) in
            if continuation b1 && continuation b2 && (0x800 <=? c)
               && negb (is_surrogate c) then
              s <- decode r2 ;; Ok (c :: s)
            else Raise UnicodeDecodeError
        | _ => Raise UnicodeDecodeError
        end
      else if (0xF0 <=? b0) && (b0 <? 0xF8) then
        match r0 with
        | b1 :: b2 :: b3 :: r3 =>
            let c := (b0 - 0xF0) * 262144 + (b1 - 0x80) * 4096
                     + (b2 - 0x80) * 64 + (b3 - 0x80) in
            if continuation b1 && continuation b2 && continuation b3
               && (0x10000 <=? c) && (c <? 0x110000) then
              s <- decode r3 ;; Ok (c :: s)
            else Raise UnicodeDecodeError
        | _ => Raise UnicodeDecodeError
        end
      else Raise UnicodeDecodeError
  end.

(** [bytes.hex()]: two lower-case hexadecimal digits per octet. *)
Definition hex_digit (d : Z) : Z :=
  if d <? 10 then 48 + d else 87 + d.

Definition hex (bs : bytes) : str :=
  flat_map (fun b => [hex_digit (b / 16); hex_digit (b mod 16)]) bs.

End Utf8.

(** ** SHA-256 ([hashlib.sha256(...).digest()]), after FIPS 180-4

    Words are 32-bit integers kept in [Z] with the wrap-around written
    out. *)

Module Sha256.
Local Open Scope Z_scope.

Definition w32 (x : Z) : Z := Z.land x 0xFFFFFFFF.

Definition add32 (x y : Z) : Z := w32 (x + y).

Definition rotr (n x : Z) : Z :=
  Z.lor (Z.shiftr x n) (w32 (Z.shiftl x (32 - n))).

Definition shr (n x : Z) : Z := Z.shiftr x n.

Definition Ch (x y z : Z) : Z :=
  Z.lxor (Z.land x y) (Z.land (w32 (Z.lnot x)) z).

Definition Maj (x y z : Z) : Z :=
  Z.lxor (Z.lxor (Z.land x y) (Z.land x z)) (Z.land y z).

Definition Sigma0 (x : Z) : Z := Z.lxor (Z.lxor (rotr 2 x) (rotr 13 x)) (rotr 22 x).
Definition Sigma1 (x : Z) : Z := Z.lxor (Z.lxor (rotr 6 x) (rotr 11 x)) (rotr 25 x).
Definition sigma0 (x : Z) : Z := Z.lxor (Z.lxor (rotr 7 x) (rotr 18 x)) (shr 3 x).
Definition sigma1 (x : Z) : Z := Z.lxor (Z.lxor (rotr 17 x) (rotr 19 x)) (shr 10 x).

Definition K : list Z :=
  [1116352408; 1899447441; 3049323471; 3921009573; 961987163; 1508970993;
   2453635748; 2870763221; 3624381080; 310598401; 607225278; 1426881987;
   1925078388; 2162078206; 2614888103; 3248222580; 3835390401; 4022224774;
   264347078; 604807628; 770255983; 1249150122; 1555081692; 1996064986;
   2554220882; 2821834349; 2952996808; 3210313671; 3336571891; 3584528711;
   113926993; 338241895; 666307205; 773529912; 1294757372; 1396182291;
   1695183700; 1986661051; 2177026350; 2456956037; 2730485921; 2820302411;
   3259730800; 3345764771; 3516065817; 3600352804; 4094571909; 275423344;
   430227734; 506948616; 659060556; 883997877; 958139571; 1322822218;
   1537002063; 1747873779; 1955562222; 2024104815; 2227730452; 2361852424;
   2428436474; 2756734187; 3204031479; 3329325298].

(** The eight working words of the hash state. *)
Record state : Type := mkState {
  sa : Z; sb : Z; sc : Z; sd : Z; se : Z; sf : Z; sg : Z; sh : Z
}.

Definition H0 : state :=
  mkState 1779033703 3144134277 1013904242 2773480762
          1359893119 2600822924 528734635 1541459225.

(** Padding: a 1 bit, zeros up to 56 modulo 64 octets, then the message
    length in bits as a 64-bit big-endian integer. *)
Definition be_bytes (n : nat) (x : Z) : bytes :=
  map (fun i => (x / 2 ^ (8 * Z.of_nat i)) mod 256) (rev (seq 0 n)).

Definition pad (msg : bytes) : bytes :=
  let l := Z.of_nat (length msg) in
  msg ++ [0x80] ++ repeat 0 (Z.to_nat ((55 - l) mod 64)) ++ be_bytes 8 (8 * l).

Definition be_word (b : bytes) : Z :=
  fold_left (fun acc x => acc * 256 + x) b 0.

(** The sixteen message words of one 64-octet block. *)
Fixpoint words (n : nat) (block : bytes) : list Z :=
  match n with
  | O => []
  | S n' => be_word (firstn 4 block) :: words n' (skipn 4 block)
  end.

(** The message schedule: [n] more words after the ones in [w]. *)
Fixpoint schedule (n : nat) (w : list Z) : list Z :=
  match n with
  | O => w
  | S n' =>
      let t := length w in
      let x := add32 (add32 (sigma1 (nth (t - 2) w 0)) (nth (t - 7) w 0))
                     (add32 (sigma0 (nth (t - 15) w 0)) (nth (t - 16) w 0)) in
      schedule n' (w ++ [x])
  end.

Definition round (s : state) (kw : Z * Z) : state :=
  let t1 := add32 (add32 (add32 (sh s) (Sigma1 (se s)))
                         (add32 (Ch (se s) (sf s) (sg s)) (fst kw))) (snd kw) in
  let t2 := add32 (Sigma0 (sa s)) (Maj (sa s) (sb s) (sc s)) in
  mkState (add32 t1 t2) (sa s) (sb s) (sc s) (add32 (sd s) t1) (se s) (sf s) (sg s).

Definition compress (h : state) (block : bytes) : state :=
  let w := schedule 48 (words 16 block) in
  let s := fold_left round (combine K w) h in
  mkState (add32 (sa h) (sa s)) (add32 (sb h) (sb s)) (add32 (sc h) (sc s))
          (add32 (sd h) (sd s)) (add32 (se h) (se s)) (add32 (sf h) (sf s))
          (add32 (sg h) (sg s)) (add32 (sh h) (sh s)).

Fixpoint absorb (n : nat) (h : state) (data : bytes) : state :=
  match n with
  | O => h
  | S n' => absorb n' (compress h (firstn 64 data)) (skipn 64 data)
  end.

Definition output (h : state) : bytes :=
  be_bytes 4 (sa h) ++ be_bytes 4 (sb h) ++ be_bytes 4 (sc h) ++ be_bytes 4 (sd h)
  ++ be_bytes 4 (se h) ++ be_bytes 4 (sf h) ++ be_bytes 4 (sg h) ++ be_bytes 4 (sh h).

Definition digest (msg : bytes) : bytes :=
  let p := pad msg in
  output (absorb (length p / 64) H0 p).

End Sha256.

(** ** Float vectors: the numpy and scikit-learn primitives the store calls *)

Module Np.
Local Open Scope R_scope.

Definition sum (v : list R) : R := fold_right Rplus 0 v.

Definition dot (u v : list R) : R :=
  sum (map (fun p => fst p * snd p) (combine u v)).

(** [np.linalg.norm v]. *)
Definition norm (v : list R) : R := sqrt (dot v v).

(** [v / n], element-wise. *)
Definition divide (v : list R) (n : R) : list R := map (fun x => x / n) v.

(** [sklearn.preprocessing.normalize]: a row of norm zero is left as it
    is (its norm is replaced by 1). *)
Definition normalize (v : list R) : list R :=
  let n := norm v in
  divide v (if Req_dec_T n 0 then 1 else n).

Definition cosine (u v : list R) : R := dot (normalize u) (normalize v).

(** [cosine_similarity(q.reshape(1, -1), np.array(Y))[0]]: one similarity
    per row of [Y]; rows that do not all have the dimension of [q] make
    numpy or scikit-learn raise [ValueError]. *)
Definition cosine_similarity (q : list R) (Y : list (list R)) : result (list R) :=
  if forallb (fun y => Nat.eqb (length y) (length q)) Y
  then Ok (map (cosine q) Y)
  else Raise ValueError.

(** [np.mean v]. *)
Definition mean (v : list R) : R := sum v / INR (length v).

End Np.

(** ** The store *)

Module DiffMem.
Local Open Scope R_scope.

(** *** Constants *)

Definition COMPRESSION_THRESHOLD_BYTES : Z := 1024.
Definition MEMORY_IMPORTANCE_THRESHOLD : R := 1 / 10.
Definition MEMORY_DECAY_HALF_LIFE_DAYS : R := 30.
Definition DBSCAN_DEFAULT_EPS : R := 3 / 10.
Definition DBSCAN_DEFAULT_MIN_SAMPLES : Z := 2.

(** *** [MemoryEntry] *)

Record MemoryEntry : Type := mkMemoryEntry {
  content : str;
  timestamp : R;
  importance : R;
  access_count : Z;
  last_accessed : R;
  embedding : option (list R);
  tags : list str;
  source : str;
  compressed : bool
}.

(** The truth value of [m.embedding]: [None] and the empty list are false. *)
Definition has_embedding (m : MemoryEntry) : bool :=
  match embedding m with
  | Some (_ :: _) => true
  | _ => false
  end.

(** [[m.embedding for m in memories if m.embedding]]. *)
Fixpoint present_embeddings (ms : list MemoryEntry) : list (list R) :=
  match ms with
  | [] => []
  | m :: ms' =>
      match embedding m with
      | Some (x :: v) => (x :: v) :: present_embeddings ms'
      | _ => present_embeddings ms'
      end
  end.

(** *** The ledger: the Git repository under [repo_path] *)

Record Commit : Type := mkCommit {
  commit_path : Z;        (* memory_<path>.json *)
  commit_source : str;    (* the message: "Add memory: <source> at <time>" *)
  commit_time : R
}.

Record Repo : Type := mkRepo {
  worktree : list (Z * MemoryEntry);  (* file name |-> JSON document *)
  history : list Commit               (* newest first *)
}.

(** [open(path, 'w')] followed by [json.dump]: an existing file is
    overwritten. *)
Definition write_file (path : Z) (doc : MemoryEntry) (wt : list (Z * MemoryEntry))
  : list (Z * MemoryEntry) :=
  (path, doc) :: filter (fun f => negb (Z.eqb (fst f) path)) wt.

(** Where, if anywhere, the file-system and Git calls of one save fail. *)
Inductive io_outcome : Type :=
| IoOk
| WriteFails
| StageFails
| CommitFails.

(** *** The manager *)

Inductive LogRecord : Type :=
| LogError (message : string) (e : exn).

Definition Encoder : Type := str -> result (list R).

Record DiffMemManager : Type := mkManager {
  compression_enabled : bool;
  repo : Repo;
  memories : list MemoryEntry;
  embedding_model : option Encoder;
  log : list LogRecord                (* newest first *)
}.

Definition with_memories (mgr : DiffMemManager) (ms : list MemoryEntry) : DiffMemManager :=
  mkManager (compression_enabled mgr) (repo mgr) ms (embedding_model mgr) (log mgr).

Definition with_repo (mgr : DiffMemManager) (r : Repo) : DiffMemManager :=
  mkManager (compression_enabled mgr) r (memories mgr) (embedding_model mgr) (log mgr).

(** The log is kept newest first. *)
Definition logged (mgr : DiffMemManager) (records : list LogRecord) : DiffMemManager :=
  mkManager (compression_enabled mgr) (repo mgr) (memories mgr) (embedding_model mgr)
            (records ++ log mgr).

(** [DiffMemManager.__init__]: the index starts empty; the repository is
    the one found at the storage path (or a newly initialised one). *)
Definition __init__ (compression : bool) (existing : Repo) (model : option Encoder)
  : DiffMemManager :=
  mkManager compression existing [] model [].

Definition empty_repo : Repo := mkRepo [] [].

(** *** [_generate_embedding] *)

(** The fallback: the SHA-256 digest of the UTF-8 text, its octets as
    floats, divided by their Euclidean norm. *)
Definition hash_embedding (text : str) : result (list R) :=
  encoded <- Utf8.encode text ;;
  let embedding := map IZR (Sha256.digest encoded) in
  Ok (Np.divide embedding (Np.norm embedding)).

Definition _generate_embedding (model : option Encoder) (text : str)
  : list LogRecord * result (list R) :=
  match model with
  | Some encode =>
      match encode text with
      | Ok embedding => ([], Ok embedding)
      | Raise e => ([LogError "Failed to generate embedding" e], hash_embedding text)
      end
  | None => ([], hash_embedding text)
  end.

Section Codec.

(** [zlib.compress(data, level)] and [zlib.decompress(data)]. *)
Variable zlib_compress : Z -> bytes -> bytes.
Variable zlib_decompress : bytes -> result bytes.

Definition _compress_content (content : str) : result bytes :=
  encoded <- Utf8.encode content ;;
  Ok (zlib_compress 9 encoded).

Definition _decompress_content (compressed : bytes) : result str :=
  raw <- zlib_decompress compressed ;;
  Utf8.decode raw.

(** *** [_save_to_git_sync] *)

(** The document written for [memory]: [memory.to_dict()], with the
    content replaced by the hexadecimal form of its compression when
    compression is enabled and the content is longer than 1024. *)
Definition document (compression : bool) (memory : MemoryEntry) : result MemoryEntry :=
  if compression && (1024 <? len (content memory))%Z then
    compressed <- _compress_content (content memory) ;;
    Ok (mkMemoryEntry (Utf8.hex compressed) (timestamp memory) (importance memory)
          (access_count memory) (last_accessed memory) (embedding memory)
          (tags memory) (source memory) true)
  else Ok memory.

Definition save_failed (mgr : DiffMemManager) (e : exn) : DiffMemManager :=
  logged mgr [LogError "Failed to save memory to Git" e].

Definition _save_to_git_sync (io : io_outcome) (mgr : DiffMemManager)
  (memory : MemoryEntry) : DiffMemManager :=
  let filename := int_of_float (timestamp memory * 1000) in
  match document (compression_enabled mgr) memory with
  | Raise e => save_failed mgr e
  | Ok data =>
      let written := write_file filename data (worktree (repo mgr)) in
      match io with
      | WriteFails => save_failed mgr OSError
      | StageFails | CommitFails =>
          save_failed (with_repo mgr (mkRepo written (history (repo mgr))))
                      GitCommandError
      | IoOk =>
          with_repo mgr
            (mkRepo written
               (mkCommit filename (source memory) (timestamp memory)
                :: history (repo mgr)))
      end
  end.

(** *** [add_memory] *)

Definition add_memory (now : R) (io : io_outcome) (mgr : DiffMemManager)
  (content : str) (importance : R) (tags : option (list str)) (source : str)
  : DiffMemManager * result MemoryEntry :=
  let (records, generated) := _generate_embedding (embedding_model mgr) content in
  let mgr := logged mgr records in
  match generated with
  | Raise e => (mgr, Raise e)
  | Ok embedding =>
      let memory :=
        mkMemoryEntry content now (Rmin (Rmax importance 0) 10) 0 now
          (Some embedding) (match tags with Some t => t | None => [] end)
          source false in
      let mgr := with_memories mgr (memories mgr ++ [memory]) in
      (_save_to_git_sync io mgr memory, Ok memory)
  end.

End Codec.

(** *** [retrieve_memories] *)

(** The loop over [enumerate(self.memories)]: an entry that passes the
    importance filter is scored with [similarities[i]], [i] its position
    in [self.memories]; a position past the end of [similarities] raises
    [IndexError]. *)
Fixpoint score_loop (similarities : list R) (min_importance : R)
  (ms : list (nat * MemoryEntry)) : result (list (R * (nat * MemoryEntry))) :=
  match ms with
  | [] => Ok []
  | (i, memory) :: rest =>
      if Rle_dec min_importance (importance memory) then
        match nth_error similarities i with
        | None => Raise IndexError
        | Some similarity =>
            scored <- score_loop similarities min_importance rest ;;
            Ok ((similarity * (1 + ln (1 + importance memory)), (i, memory)) :: scored)
        end
      else score_loop similarities min_importance rest
  end.

(** [list.sort(reverse=True, key=score)]: descending and stable. *)
Fixpoint insert_desc {A} (x : R * A) (l : list (R * A)) : list (R * A) :=
  match l with
  | [] => [x]
  | y :: l' =>
      if Rle_dec (fst y) (fst x) then x :: l else y :: insert_desc x l'
  end.

Definition sort_desc {A} (l : list (R * A)) : list (R * A) :=
  fold_right insert_desc [] l.

(** The access statistics update of a returned entry. *)
Definition touch (now : R) (m : MemoryEntry) : MemoryEntry :=
  mkMemoryEntry (content m) (timestamp m) (importance m) (access_count m + 1) now
    (embedding m) (tags m) (source m) (compressed m).

(** The scored list, before sorting. *)
Definition scored_memories (query_embedding : list R) (min_importance : R)
  (ms : list MemoryEntry) : result (list (R * (nat * MemoryEntry))) :=
  similarities <- Np.cosine_similarity query_embedding (present_embeddings ms) ;;
  score_loop similarities min_importance (enumerate ms).

Definition touch_positions (now : R) (positions : list nat) (ms : list MemoryEntry)
  : list MemoryEntry :=
  map (fun im => if existsb (Nat.eqb (fst im)) positions
                 then touch now (snd im) else snd im)
      (enumerate ms).

Definition retrieve_memories (now : R) (mgr : DiffMemManager) (query : str)
  (top_k : Z) (min_importance : R) : DiffMemManager * result (list MemoryEntry) :=
  match memories mgr with
  | [] => (mgr, Ok [])
  | _ :: _ =>
      let (records, generated) := _generate_embedding (embedding_model mgr) query in
      let mgr := logged mgr records in
      match generated with
      | Raise e => (mgr, Raise e)
      | Ok query_embedding =>
          match present_embeddings (memories mgr) with
          | [] => (mgr, Ok [])
          | _ :: _ =>
              match scored_memories query_embedding min_importance (memories mgr) with
              | Raise e => (mgr, Raise e)
              | Ok scored =>
                  let top := slice_to top_k (sort_desc scored) in
                  (with_memories mgr
                     (touch_positions now (map (fun x => fst (snd x)) top) (memories mgr)),
                   Ok (map (fun x => touch now (snd (snd x))) top))
              end
          end
      end
  end.

(** *** [cluster_memories] and [consolidate_memories] *)

Section Clustering.

(** [DBSCAN(eps, min_samples, metric='cosine').fit_predict(np.array(X))]:
    one label per row, [-1] for noise. *)
Variable fit_predict : R -> Z -> list (list R) -> result (list Z).

(** [clusters[label].append(m)], creating the group on first use; groups
    keep the order in which their labels first appear. *)
Fixpoint add_to_cluster (label : Z) (m : MemoryEntry)
  (clusters : list (Z * list MemoryEntry)) : list (Z * list MemoryEntry) :=
  match clusters with
  | [] => [(label, [m])]
  | (l, group) :: rest =>
      if Z.eqb l label then (l, group ++ [m]) :: rest
      else (l, group) :: add_to_cluster label m rest
  end.

Fixpoint group_by_label (ms : list MemoryEntry) (labels : list (nat * Z))
  (clusters : list (Z * list MemoryEntry)) : result (list (Z * list MemoryEntry)) :=
  match labels with
  | [] => Ok clusters
  | (i, label) :: rest =>
      match nth_error ms i with
      | None => Raise IndexError
      | Some m => group_by_label ms rest (add_to_cluster label m clusters)
      end
  end.

Definition cluster_memories (mgr : DiffMemManager) (eps : R) (min_samples : Z)
  : result (list (list MemoryEntry)) :=
  if (len (memories mgr) <? min_samples)%Z then Ok [memories mgr]
  else
    match present_embeddings (memories mgr) with
    | [] => Ok [memories mgr]
    | embeddings =>
        labels <- fit_predict eps min_samples embeddings ;;
        clusters <- group_by_label (memories mgr) (enumerate labels) [] ;;
        Ok (map snd clusters)
    end.

(** The decay step of one entry at [current_time]. *)
Definition decay (current_time : R) (m : MemoryEntry) : MemoryEntry :=
  let age_days := (current_time - timestamp m) / 86400 in
  let decay_factor := exp (- age_days / MEMORY_DECAY_HALF_LIFE_DAYS) in
  mkMemoryEntry (content m) (timestamp m) (importance m * decay_factor)
    (access_count m) (last_accessed m) (embedding m) (tags m) (source m)
    (compressed m).

Definition retained (m : MemoryEntry) : bool :=
  if Rlt_dec MEMORY_IMPORTANCE_THRESHOLD (importance m) then true else false.

(** The manager is left decayed and pruned also when the clustering that
    follows raises. *)
Definition consolidate_memories (current_time : R) (mgr : DiffMemManager)
  : DiffMemManager * result unit :=
  match memories mgr with
  | [] => (mgr, Ok tt)
  | _ :: _ =>
      let mgr := with_memories mgr
                   (filter retained (map (decay current_time) (memories mgr))) in
      (mgr,
       _ <- cluster_memories mgr DBSCAN_DEFAULT_EPS DBSCAN_DEFAULT_MIN_SAMPLES ;;
       Ok tt)
  end.

End Clustering.

(** *** [get_stats] *)

Inductive value : Type :=
| VInt (n : Z)
| VFloat (x : R)
| VBool (b : bool).

(** A [dict] with string keys, in insertion order. *)
Definition dict : Type := list (string * value).

Fixpoint lookup (key : string) (d : dict) : option value :=
  match d with
  | [] => None
  | (k, v) :: d' => if String.eqb k key then Some v else lookup key d'
  end.

(** [key in d]. *)
Definition contains (key : string) (d : dict) : bool :=
  match lookup key d with Some _ => true | None => false end.

Definition total_size (ms : list MemoryEntry) : Z :=
  fold_right Z.add 0%Z (map (fun m => len (content m)) ms).

Definition get_stats (EMBEDDINGS_AVAILABLE : bool) (mgr : DiffMemManager) : dict :=
  match memories mgr with
  | [] =>
      [("total_memories"%string, VInt 0);
       ("total_size_bytes"%string, VInt 0);
       ("average_importance"%string, VInt 0)]
  | _ :: _ =>
      let total := total_size (memories mgr) in
      let avg_importance := Np.mean (map importance (memories mgr)) in
      [("total_memories"%string, VInt (len (memories mgr)));
       ("total_size_bytes"%string, VInt total);
       ("total_size_mb"%string, VFloat (IZR total / (1024 * 1024)));
       ("average_importance"%string, VFloat avg_importance);
       ("compression_enabled"%string, VBool (compression_enabled mgr));
       ("embeddings_available"%string, VBool EMBEDDINGS_AVAILABLE)]
  end.

(** *** Vocabulary for the statements *)

(** The embedding an entry carries ([[]] when absent). *)
Definition embedding_of (m : MemoryEntry) : list R :=
  match embedding m with Some v => v | None => [] end.

(** An entry with a present embedding of dimension [d]. *)
Definition embedded (d : nat) (m : MemoryEntry) : Prop :=
  has_embedding m = true /\ length (embedding_of m) = d.

(** The importance filter of [retrieve_memories]. *)
Definition passes (min_importance : R) (m : MemoryEntry) : bool :=
  if Rle_dec min_importance (importance m) then true else false.

(** The score the retrieval contract gives an entry: the similarity of
    its own embedding to the query, scaled by its importance. *)
Definition own_score (query_embedding : list R) (m : MemoryEntry) : R :=
  Np.cosine query_embedding (embedding_of m) * (1 + ln (1 + importance m)).

(** [a] stands before [b] in [l]. *)
Definition ranks_above {A} (a b : A) (l : list A) : Prop :=
  exists l1 l2 l3, l = l1 ++ a :: l2 ++ b :: l3.

Definition importance_in_range (m : MemoryEntry) : Prop :=
  0 <= importance m <= 10.

Definition store_in_range (mgr : DiffMemManager) : Prop :=
  Forall importance_in_range (memories mgr).

(** The entry [add_memory] constructs around an embedding [v]. *)
Definition new_entry (now : R) (content : str) (x : R) (tags : option (list str))
  (source : str) (v : list R) : MemoryEntry :=
  mkMemoryEntry content now (Rmin (Rmax x 0) 10) 0 now (Some v)
    (match tags with Some t => t | None => [] end) source false.

(** The scored list when position [i] is scored with [f] of its own entry. *)
Definition scored_as (f : MemoryEntry -> R) (min_importance : R)
  (ims : list (nat * MemoryEntry)) : list (R * (nat * MemoryEntry)) :=
  map (fun im => (f (snd im) * (1 + ln (1 + importance (snd im))), im))
      (filter (fun im => passes min_importance (snd im)) ims).

(** The order [sort_desc] establishes. *)
Definition ge_score {A} (x y : R * A) : Prop := fst y <= fst x.

(** One operation on the store, and the stores the operations lead to
    from a newly constructed one.  Consolidation runs at a time that is
    not before the timestamp of any live entry. *)
Inductive step (zlib_compress : Z -> bytes -> bytes)
  (fit_predict : R -> Z -> list (list R) -> result (list Z))
  : DiffMemManager -> DiffMemManager -> Prop :=
| step_add now io mgr content x tags source :
    step zlib_compress fit_predict mgr
      (fst (add_memory zlib_compress now io mgr content x tags source))
| step_retrieve now mgr query top_k min_importance :
    step zlib_compress fit_predict mgr
      (fst (retrieve_memories now mgr query top_k min_importance))
| step_consolidate now mgr :
    Forall (fun m => timestamp m <= now) (memories mgr) ->
    step zlib_compress fit_predict mgr
      (fst (consolidate_memories fit_predict now mgr)).

Inductive reachable (zlib_compress : Z -> bytes -> bytes)
  (fit_predict : R -> Z -> list (list R) -> result (list Z))
  : DiffMemManager -> Prop :=
| reach_init compression existing model :
    reachable zlib_compress fit_predict (__init__ compression existing model)
| reach_step mgr mgr' :
    reachable zlib_compress fit_predict mgr ->
    step zlib_compress fit_predict mgr mgr' ->
    reachable zlib_compress fit_predict mgr'.

(** The text whose digest would be the all-zero string: the one input on
    which the fallback divides by a zero norm. *)
Definition zero_digest (text : str) : Prop :=
  exists encoded, Utf8.encode text = Ok encoded
                  /\ Forall (fun b => b = 0%Z) (Sha256.digest encoded).

(** A model whose embeddings are never empty: a sentence-transformers
    model has a fixed, positive dimension. *)
Definition dimensioned (model : option Encoder) : Prop :=
  forall (encode : Encoder) text v, model = Some encode -> encode text = Ok v -> v <> [].

(** The document the worktree holds under a file name, if any. *)
Definition read_file (path : Z) (wt : list (Z * MemoryEntry)) : option MemoryEntry :=
  option_map snd (find (fun f => Z.eqb (fst f) path) wt).

(** The name [_save_to_git_sync] files an entry under:
    [int(memory.timestamp * 1000)]. *)
Definition file_of (memory : MemoryEntry) : Z :=
  int_of_float (timestamp memory * 1000).

(** Any number of operations, one after the other. *)
Inductive evolves (zlib_compress : Z -> bytes -> bytes)
  (fit_predict : R -> Z -> list (list R) -> result (list Z))
  : DiffMemManager -> DiffMemManager -> Prop :=
| evolves_refl mgr : evolves zlib_compress fit_predict mgr mgr
| evolves_step mgr mgr' mgr'' :
    evolves zlib_compress fit_predict mgr mgr' ->
    step zlib_compress fit_predict mgr' mgr'' ->
    evolves zlib_compress fit_predict mgr mgr''.

(** The entries that the labelling pairs with [label]: label [k] belongs
    to position [k] of the index. *)
Definition members_of (label : Z) (labels : list Z) (ms : list MemoryEntry)
  : list MemoryEntry :=
  map snd (filter (fun p => Z.eqb (fst p) label) (combine labels ms)).

(** What no operation undoes: commits, files, log records, settings. *)
Definition keeps_ledger (mgr mgr' : DiffMemManager) : Prop :=
  (exists newer, history (repo mgr') = newer ++ history (repo mgr))
  /\ (forall name, read_file name (worktree (repo mgr)) <> None ->
                   read_file name (worktree (repo mgr')) <> None)
  /\ (exists records, log mgr' = records ++ log mgr)
  /\ compression_enabled mgr' = compression_enabled mgr
  /\ embedding_model mgr' = embedding_model mgr.

(** The state of the grouping loop after the pairs [seen]: one group per
    label met, holding the entries met under that label, in order. *)
Definition grouped (seen : list (Z * MemoryEntry)) (c : list (Z * list MemoryEntry))
  : Prop :=
  NoDup (map fst c)
  /\ (forall l, In l (map fst c) <-> In l (map fst seen))
  /\ Forall (fun lg => snd lg = map snd (filter (fun p => Z.eqb (fst p) (fst lg)) seen)) c.

End DiffMem.

(** ** The node: participants, agents and the message queue
       ([src/core/node/node_manager.py])

    The node is the caller of the store: [process_message] files every
    message with [add_memory], and [get_stats] reports the store's
    statistics.  One call of [process_message] is one atomic step; what
    the outside world does during it (the clock, the Fernet token, the
    file system, Redis) is the argument [World], and what an agent's
    Ollama client answers is the agent's [Turn].  The Prometheus metrics
    and the debug and info log lines are not modelled. *)

Module Node.
Import DiffMem.
Local Open Scope R_scope.

(** *** Python sequence and dict primitives *)

(** A [str] literal (ASCII). *)
Definition text (s : string) : str :=
  map (fun a => Z.of_nat (Ascii.nat_of_ascii a)) (list_ascii_of_string s).

Definition str_eqb (a b : str) : bool :=
  if list_eq_dec Z.eq_dec a b then true else false.

(** [l[k:]]: without the first [k] items for [k >= 0]; for a negative
    [k], the last [-k] items. *)
Definition slice_from {A} (k : Z) (l : list A) : list A :=
  if (0 <=? k)%Z then skipn (Z.to_nat k) l
  else skipn (length l - Z.to_nat (- k)) l.

(** [d[key] = v] on a dict kept in insertion order: an existing key keeps
    its place. *)
Fixpoint dict_set {V} (key : str) (v : V) (d : list (str * V)) : list (str * V) :=
  match d with
  | [] => [(key, v)]
  | (k, w) :: d' =>
      if str_eqb k key then (k, v) :: d' else (k, w) :: dict_set key v d'
  end.

(** [deque(maxlen=n).append(x)]: a full deque drops its oldest item. *)
Definition deque_append {A} (maxlen : Z) (x : A) (q : list A) : list A :=
  if (len q <? maxlen)%Z then q ++ [x] else tl (q ++ [x]).

(** *** Constants *)

Definition MAX_MESSAGE_QUEUE_SIZE : Z := 1000.
Definition MAX_CONTEXT_MESSAGES : Z := 10.
Definition AI_AGENT_CONTEXT_WINDOW : Z := 5.

(** *** [ParticipantType], [Message], [NodeParticipant] *)

Inductive ParticipantType : Type :=
| HUMAN
| AI_AGENT.

Definition is_type (t u : ParticipantType) : bool :=
  match t, u with
  | HUMAN, HUMAN | AI_AGENT, AI_AGENT => true
  | _, _ => false
  end.

Record Message : Type := mkMessage {
  sender : str;
  content : str;
  timestamp : R;
  message_type : str;
  metadata : list (str * str);
  encrypted : bool
}.

Record NodeParticipant : Type := mkNodeParticipant {
  id : str;
  name : str;
  type : ParticipantType;
  public_key : option str;
  participant_metadata : list (str * str);
  joined_at : R
}.

(** *** [OllamaAgent] *)

Inductive Role : Type :=
| System
| User
| Assistant.

Record ChatMessage : Type := mkChatMessage {
  role : Role;
  chat_content : str
}.

Record OllamaAgent : Type := mkOllamaAgent {
  agent_id : str;
  agent_name : str;
  model : str;
  ollama_host : str;
  system_prompt : str;
  client : bool;                      (* false: [self.client] is [None] *)
  conversation_history : list ChatMessage
}.

Definition add_to_history (agent : OllamaAgent) (r : Role) (c : str) : OllamaAgent :=
  mkOllamaAgent (agent_id agent) (agent_name agent) (model agent) (ollama_host agent)
    (system_prompt agent) (client agent)
    (conversation_history agent ++ [mkChatMessage r c]).

(** [OllamaAgent.__init__]: the default system prompt stands in for a
    missing or empty one; [available] tells whether [ollama.Client]
    could be constructed. *)
Definition new_agent (available : bool) (agent_id name model ollama_host : str)
  (system_prompt : option str) : OllamaAgent :=
  mkOllamaAgent agent_id name model ollama_host
    (match system_prompt with
     | Some (c :: p) => c :: p
     | _ => text "You are " ++ name
            ++ text ", a helpful AI assistant in a swarm intelligence network."
     end)
    available [].

(** The messages handed to [client.chat]: the system prompt, the last
    [AI_AGENT_CONTEXT_WINDOW] messages of the context with the agent's own
    as [assistant] and all others as [user], and the message itself. *)
Definition prompt (agent : OllamaAgent) (message : str) (context : option (list Message))
  : list ChatMessage :=
  mkChatMessage System (system_prompt agent)
  :: match context with
     | Some (c :: ctx) =>
         map (fun ctx_msg =>
                mkChatMessage
                  (if negb (str_eqb (sender ctx_msg) (agent_id agent))
                   then User else Assistant)
                  (content ctx_msg))
             (slice_from (- AI_AGENT_CONTEXT_WINDOW) (c :: ctx))
     | _ => []
     end
  ++ [mkChatMessage User message].

Section Agents.

(** [str(e)] of an exception. *)
Variable exn_text : exn -> str.

(** [generate_response]: what [client.chat] answers is [chat], the
    content of the response's message if it has one.  The call never
    raises: every outcome is a text. *)
Definition generate_response (chat : list ChatMessage -> result (option str))
  (agent : OllamaAgent) (message : str) (context : option (list Message))
  : OllamaAgent * list LogRecord * str :=
  if negb (client agent) then
    (agent, [],
     text "Sorry, I'm currently unavailable. Ollama service is not accessible.")
  else
    match chat (prompt agent message context) with
    | Ok (Some response) =>
        (add_to_history (add_to_history agent User message) Assistant response, [],
         response)
    | Ok None => (agent, [], text "I couldn't generate a response. Please try again.")
    | Raise e =>
        (agent, [LogError "Ollama generation failed" e],
         text "Sorry, I encountered an error: " ++ exn_text e)
    end.

(** *** [HumanAINode] *)

Record HumanAINode : Type := mkHumanAINode {
  node_id : str;
  memory_manager : DiffMemManager;
  participants : list (str * NodeParticipant);
  agents : list (str * OllamaAgent);
  message_queue : list Message;       (* oldest first *)
  channel : list Message;             (* published on Redis, newest first *)
  node_log : list LogRecord           (* newest first *)
}.

Definition with_memory_manager (node : HumanAINode) (mgr : DiffMemManager) : HumanAINode :=
  mkHumanAINode (node_id node) mgr (participants node) (agents node)
    (message_queue node) (channel node) (node_log node).

Definition with_participants (node : HumanAINode) (ps : list (str * NodeParticipant))
  : HumanAINode :=
  mkHumanAINode (node_id node) (memory_manager node) ps (agents node)
    (message_queue node) (channel node) (node_log node).

Definition with_agents (node : HumanAINode) (ags : list (str * OllamaAgent))
  : HumanAINode :=
  mkHumanAINode (node_id node) (memory_manager node) (participants node) ags
    (message_queue node) (channel node) (node_log node).

Definition with_message_queue (node : HumanAINode) (q : list Message) : HumanAINode :=
  mkHumanAINode (node_id node) (memory_manager node) (participants node) (agents node)
    q (channel node) (node_log node).

Definition with_channel (node : HumanAINode) (c : list Message) : HumanAINode :=
  mkHumanAINode (node_id node) (memory_manager node) (participants node) (agents node)
    (message_queue node) c (node_log node).

Definition node_logged (node : HumanAINode) (records : list LogRecord) : HumanAINode :=
  mkHumanAINode (node_id node) (memory_manager node) (participants node) (agents node)
    (message_queue node) (channel node) (records ++ node_log node).

(** [HumanAINode.__init__] around a given store. *)
Definition new_node (node_id : str) (mgr : DiffMemManager) : HumanAINode :=
  mkHumanAINode node_id mgr [] [] [] [] [].

(** What the outside world does during one run of the body of
    [process_message]. *)
Record World : Type := mkWorld {
  message_time : R;                   (* [time.time()] of the [Message] *)
  memory_time : R;                    (* [time.time()] of the [MemoryEntry] *)
  fernet_encrypt : bytes -> bytes;    (* [cipher.encrypt] at this time and IV *)
  io : io_outcome;                    (* the file system and Git of the save *)
  publish : result unit               (* [redis.publish] *)
}.

(** What happens when it is an agent's turn to answer. *)
Record Turn : Type := mkTurn {
  chat : list ChatMessage -> result (option str);
  world : World
}.

Variable zlib_compress : Z -> bytes -> bytes.

(** [cipher.decrypt], under the node's key. *)
Variable fernet_decrypt : bytes -> result bytes.

Definition encrypt_message (w : World) (content : str) : result str :=
  encoded <- Utf8.encode content ;;
  Utf8.decode (fernet_encrypt w encoded).

Definition decrypt_message (encrypted_content : str) : result str :=
  encoded <- Utf8.encode encrypted_content ;;
  decrypted <- fernet_decrypt encoded ;;
  Utf8.decode decrypted.

(** [add_human_participant] at clock reading [now]. *)
Definition add_human_participant (now : R) (node : HumanAINode) (user_id name : str)
  (public_key : option str) : HumanAINode * NodeParticipant :=
  let participant := mkNodeParticipant user_id name HUMAN public_key [] now in
  (with_participants node (dict_set user_id participant (participants node)),
   participant).

(** [create_ai_agent] at clock reading [now]. *)
Definition create_ai_agent (now : R) (available : bool) (node : HumanAINode)
  (agent_id name model ollama_host : str) (system_prompt : option str)
  : HumanAINode * OllamaAgent :=
  let agent := new_agent available agent_id name model ollama_host system_prompt in
  let node := with_agents node (dict_set agent_id agent (agents node)) in
  let participant :=
    mkNodeParticipant agent_id name AI_AGENT None [(text "model", model)] now in
  (with_participants node (dict_set agent_id participant (participants node)), agent).

(** [process_message], with the agents' turn ([_process_with_agents],
    which calls [process_message] again) as the argument [respond]. *)
Definition process_message_with (respond : HumanAINode -> Message -> HumanAINode)
  (w : World) (node : HumanAINode) (sender_id content : str)
  (encrypt store_in_memory trigger_agents : bool) : HumanAINode * result Message :=
  match (if encrypt then encrypt_message w content else Ok content) with
  | Raise e => (node, Raise e)
  | Ok message_content =>
      let message :=
        mkMessage sender_id message_content (message_time w) (text "text") [] encrypt in
      let node :=
        with_message_queue node
          (deque_append MAX_MESSAGE_QUEUE_SIZE message (message_queue node)) in
      let (node, stored) :=
        if store_in_memory then
          let (mgr, added) :=
            add_memory zlib_compress (memory_time w) (io w) (memory_manager node)
              content 1 (Some [text "message"; text "sender:" ++ sender_id]) sender_id in
          (with_memory_manager node mgr, _ <- added ;; Ok tt)
        else (node, Ok tt) in
      match stored with
      | Raise e => (node, Raise e)
      | Ok _ =>
          match publish w with
          | Raise e => (node, Raise e)
          | Ok _ =>
              let node := with_channel node (message :: channel node) in
              ((if trigger_agents then respond node message else node), Ok message)
          end
      end
  end.

(** The loop of [_process_with_agents] over [self.agents.items()]: an
    agent does not answer its own message; its answer is processed with
    [trigger_agents=False], so the agents' turn is not entered again; an
    exception of that call is logged and the loop goes on. *)
Fixpoint respond_all (turns : str -> Turn) (message : Message) (content : str)
  (todo : list (str * OllamaAgent)) (node : HumanAINode) : HumanAINode :=
  match todo with
  | [] => node
  | (agent_id, agent) :: rest =>
      if str_eqb (sender message) agent_id then
        respond_all turns message content rest node
      else
        let turn := turns agent_id in
        let context := slice_from (- MAX_CONTEXT_MESSAGES) (message_queue node) in
        let '(agent, records, response_content) :=
          generate_response (chat turn) agent content (Some context) in
        let node :=
          node_logged (with_agents node (dict_set agent_id agent (agents node)))
                      records in
        let (node, processed) :=
          process_message_with (fun node _ => node) (world turn) node agent_id
            response_content (encrypted message) true false in
        let node :=
          match processed with
          | Ok _ => node
          | Raise e => node_logged node [LogError "Agent failed to generate response" e]
          end in
        respond_all turns message content rest node
  end.

Definition _process_with_agents (turns : str -> Turn) (node : HumanAINode)
  (message : Message) : HumanAINode :=
  match (if encrypted message then decrypt_message (content message)
         else Ok (content message)) with
  | Raise e => node_logged node [LogError "Failed to decrypt message" e]
  | Ok content => respond_all turns message content (agents node) node
  end.

Definition process_message (w : World) (turns : str -> Turn) (node : HumanAINode)
  (sender_id content : str) (encrypt store_in_memory trigger_agents : bool)
  : HumanAINode * result Message :=
  process_message_with (_process_with_agents turns) w node sender_id content
    encrypt store_in_memory trigger_agents.

(** [get_conversation_history]. *)
Definition get_conversation_history (node : HumanAINode) (limit : Z) : list Message :=
  let messages := message_queue node in
  if (limit <? len messages)%Z then slice_from (- limit) messages else messages.

(** [sum(1 for p in self.participants.values() if p.type == t)]. *)
Definition count_type (t : ParticipantType) (ps : list (str * NodeParticipant)) : Z :=
  len (filter (fun p => is_type (type (snd p)) t) ps).

Inductive stat : Type :=
| StatStr (s : str)
| StatInt (n : Z)
| StatDict (d : dict).

(** [HumanAINode.get_stats]. *)
Definition get_stats (EMBEDDINGS_AVAILABLE : bool) (node : HumanAINode)
  : list (string * stat) :=
  [("node_id"%string, StatStr (node_id node));
   ("participants"%string, StatInt (len (participants node)));
   ("human_participants"%string, StatInt (count_type HUMAN (participants node)));
   ("ai_agents"%string, StatInt (count_type AI_AGENT (participants node)));
   ("messages_in_queue"%string, StatInt (len (message_queue node)));
   ("memory_stats"%string,
    StatDict (DiffMem.get_stats EMBEDDINGS_AVAILABLE (memory_manager node)))].

Fixpoint stat_lookup (key : string) (d : list (string * stat)) : option stat :=
  match d with
  | [] => None
  | (k, v) :: d' => if String.eqb k key then Some v else stat_lookup key d'
  end.

End Agents.

(** [s] is [l] with some of its items left out. *)
Inductive subsequence {A : Type} : list A -> list A -> Prop :=
| subsequence_nil : subsequence [] []
| subsequence_keep x s l : subsequence s l -> subsequence (x :: s) (x :: l)
| subsequence_skip x s l : subsequence s l -> subsequence s (x :: l).

(** The queue holds no more than the deque's bound. *)
Definition bounded (node : HumanAINode) : Prop :=
  (len (message_queue node) <= MAX_MESSAGE_QUEUE_SIZE)%Z.

(** What a run leaves in the index and on the channel: new entries at the
    end of the index, new messages at the head of the channel, and for
    every new message, in the order of publishing, a new entry whose
    source is its sender. *)
Definition stored_then_published (node node' : HumanAINode) : Prop :=
  exists entries published,
    memories (memory_manager node') = memories (memory_manager node) ++ entries
    /\ channel node' = published ++ channel node
    /\ subsequence (map sender (rev published)) (map source entries).

End Node.


(** ** Scenarios: concrete stores and stand-ins for the external libraries *)

Module Scenario.
Import DiffMem.
Local Open Scope R_scope.

(** A stand-in for zlib that stores the data behind the two-octet zlib
    header ([78 DA]) and checks the header when decompressing. *)
Definition stored_compress (level : Z) (data : bytes) : bytes :=
  0x78%Z :: 0xDA%Z :: data.

Definition stored_decompress (data : bytes) : result bytes :=
  match data with
  | h0 :: h1 :: raw =>
      if Z.eqb h0 0x78 && Z.eqb h1 0xDA then Ok raw else Raise ZlibError
  | _ => Raise ZlibError
  end.

(** A clusterer that marks every sample as noise. *)
Definition all_noise (eps : R) (min_samples : Z) (X : list (list R))
  : result (list Z) :=
  Ok (map (fun _ => (-1)%Z) X).

Definition note : str := [110; 111; 116; 101]%Z.        (* "note" *)
Definition draft : str := [100; 114; 97; 102; 116]%Z.   (* "draft" *)
Definition query : str := [113]%Z.                      (* "q" *)
Definition tester : str := [116]%Z.                     (* "t" *)

(** A store without a model-backed embedding backend. *)
Definition fresh : DiffMemManager := __init__ true empty_repo None.

(** [MemoryEntry(content, timestamp=0, importance=..., last_accessed=0,
    embedding=...)], the other fields at their defaults. *)
Definition entry (content : str) (importance : R) (embedding : option (list R))
  : MemoryEntry :=
  mkMemoryEntry content 0 importance 0 0 embedding [] [117; 110; 107; 110; 111; 119; 110]%Z false.

(** Two appends of the same text through [add_memory]. *)
Definition two_notes : DiffMemManager :=
  let s1 := fst (add_memory stored_compress 100 IoOk fresh note 1 None tester) in
  fst (add_memory stored_compress 200 IoOk s1 note 1 None tester).

(** An entry without an embedding, placed in the index before an entry
    appended through [add_memory]. *)
Definition bare_then_added : DiffMemManager :=
  fst (add_memory stored_compress 100 IoOk
         (with_memories fresh [entry draft 5 None]) note 1 None tester).

(** A model-backed store whose encoder answers with a fixed two-dimensional
    vector, over entries with explicit embeddings. *)
Definition axis_model : Encoder := fun _ => Ok [1; 0].

Definition e_bare : MemoryEntry := entry draft 5 None.
Definition e_aligned : MemoryEntry := entry note 5 (Some [1; 0]).
Definition e_orthogonal : MemoryEntry := entry tester 1 (Some [0; 1]).

Definition shifted : DiffMemManager :=
  with_memories (__init__ true empty_repo (Some axis_model))
                [e_bare; e_aligned; e_orthogonal].

(** The retrieval-ordering example: two entries equally similar to the
    query, of importance 1 and 9. *)
Definition e_minor : MemoryEntry := entry note 1 (Some [1; 0]).
Definition e_major : MemoryEntry := entry draft 9 (Some [1; 0]).

Definition ranked : DiffMemManager :=
  with_memories (__init__ true empty_repo (Some axis_model)) [e_minor; e_major].

(** The retrieval-ordering example built through [add_memory] under
    [axis_model]: two entries equally similar to every query, of
    importance 1 and 9. *)
Definition graded : DiffMemManager :=
  let s1 := fst (add_memory stored_compress 100 IoOk
                   (__init__ true empty_repo (Some axis_model)) note 1 None tester) in
  fst (add_memory stored_compress 200 IoOk s1 draft 9 None tester).

(** A model of dimension 384 whose [encode] raises on the text [query]. *)
Definition flaky_model : Encoder :=
  fun text =>
    if list_eq_dec Z.eq_dec text query then Raise RuntimeError
    else Ok (repeat 1 384).

Definition model_store : DiffMemManager :=
  fst (add_memory stored_compress 100 IoOk
         (__init__ true empty_repo (Some flaky_model)) note 1 None tester).

(** Three entries of which one has an embedding. *)
Definition sparse : DiffMemManager :=
  with_memories fresh
    [entry note 1 (Some [1; 0]); entry draft 1 None; entry tester 1 None].

(** An append with an out-of-range importance, then a consolidation run
    a hundred seconds later. *)
Definition over_important : DiffMemManager * result MemoryEntry :=
  add_memory stored_compress 100 IoOk fresh note 25 None tester.

Definition consolidated : DiffMemManager :=
  fst (consolidate_memories all_noise 200 (fst over_important)).

(** A text of 1025 lone surrogates, and an encodable text of 1026 code
    points. *)
Definition lone_surrogates : str := repeat 0xD800%Z 1025.
Definition long_text : str := repeat 0x61%Z 1025 ++ [0x1F600%Z].

(** A node around the empty store, and the same node with one agent. *)
Definition lobby : Node.HumanAINode := Node.new_node (Node.text "lobby") fresh.

Definition staffed : Node.HumanAINode :=
  fst (Node.create_ai_agent 0 true lobby (Node.text "bot") (Node.text "Bot")
         (Node.text "llama2") (Node.text "http://localhost:11434") None).

(** A stand-in for the Fernet cipher that shifts every octet by one. *)
Definition shift (data : bytes) : bytes := map (Z.add 1) data.
Definition unshift (data : bytes) : result bytes := Ok (map (fun b => (b - 1)%Z) data).

(** A world in which the file system, Git and Redis work. *)
Definition calm : Node.World := Node.mkWorld 100 101 shift IoOk (Ok tt).

(** Every agent's client answers "ok". *)
Definition obliging : str -> Node.Turn :=
  fun _ => Node.mkTurn (fun _ => Ok (Some (Node.text "ok"))) calm.

Definition exn_name (e : exn) : str := Node.text "error".

End Scenario.

(** * Properties *)

Import DiffMem.
Local Open Scope R_scope.

(** ** Test vectors of the codec, the hash and slicing *)

Example utf8_euro : Utf8.encode [0x20AC%Z] = Ok [0xE2; 0x82; 0xAC]%Z.
Proof. reflexivity. Qed.

Example utf8_emoji_roundtrip :
  Py.bind (Utf8.encode [0x1F600; 0x41; 0xE9]%Z) Utf8.decode
  = Ok [0x1F600; 0x41; 0xE9]%Z.
Proof. reflexivity. Qed.

Example utf8_overlong_refused :
  Utf8.decode [0xC0; 0x80]%Z = Raise UnicodeDecodeError.
Proof. reflexivity. Qed.

(** [bytes([0x78, 0xDA, 0x0F]).hex()] is the text [78da0f]. *)
Example hex_of_octets : Utf8.hex [0x78; 0xDA; 0x0F]%Z = [55; 56; 100; 97; 48; 102]%Z.
Proof. reflexivity. Qed.

(** SHA-256 of the three octets of [abc], in hexadecimal:
    ba7816bf 8f01cfea 414140de 5dae2223 b00361a3 96177a9c b410ff61 f20015ad. *)
Example sha256_abc :
  Utf8.hex (Sha256.digest [97; 98; 99]%Z)
  = [98; 97; 55; 56; 49; 54; 98; 102; 56; 102; 48; 49; 99; 102; 101; 97;
     52; 49; 52; 49; 52; 48; 100; 101; 53; 100; 97; 101; 50; 50; 50; 51;
     98; 48; 48; 51; 54; 49; 97; 51; 57; 54; 49; 55; 55; 97; 57; 99;
     98; 52; 49; 48; 102; 102; 54; 49; 102; 50; 48; 48; 49; 53; 97; 100]%Z.
Proof. vm_compute. reflexivity. Qed.

(** SHA-256 of 200 octets [a] (four blocks after padding):
    c2a908d9 8f5df987 ade41b5f ce213067 efbcc21e f2240212 a41e54b5 e7c28ae5. *)
Example sha256_four_blocks :
  Utf8.hex (Sha256.digest (repeat 97%Z 200))
  = [99; 50; 97; 57; 48; 56; 100; 57; 56; 102; 53; 100; 102; 57; 56; 55;
     97; 100; 101; 52; 49; 98; 53; 102; 99; 101; 50; 49; 51; 48; 54; 55;
     101; 102; 98; 99; 99; 50; 49; 101; 102; 50; 50; 52; 48; 50; 49; 50;
     97; 52; 49; 101; 53; 52; 98; 53; 101; 55; 99; 50; 56; 97; 101; 53]%Z.
Proof. vm_compute. reflexivity. Qed.

Example slice_negative : slice_to (-1) [1; 2; 3]%Z = [1; 2]%Z.
Proof. reflexivity. Qed.

Example slice_past_the_start : slice_to (-5) [1; 2; 3]%Z = [].
Proof. reflexivity. Qed.

(** ** Results, slices and positions *)

Lemma Ok_inj {A} (x y : A) : Ok x = Ok y -> x = y.
Proof. congruence. Qed.

Lemma Some_inj {A} (x y : A) : Some x = Some y -> x = y.
Proof. congruence. Qed.

Lemma slice_to_length_le A (k : Z) (l : list A) :
  (0 <= k)%Z -> (len (slice_to k l) <= k)%Z.
Proof.
  intros Hk. unfold slice_to, len.
  destruct (Z.leb_spec 0 k); [|lia].
  rewrite length_firstn. lia.
Qed.

Lemma slice_to_zero A (l : list A) : slice_to 0 l = [].
Proof. reflexivity. Qed.

Lemma slice_to_negative_length A (k : Z) (l : list A) :
  (k < 0)%Z -> length (slice_to k l) = (length l - Z.to_nat (- k))%nat.
Proof.
  intros Hk. unfold slice_to.
  destruct (Z.leb_spec 0 k); [lia|].
  rewrite length_firstn. lia.
Qed.

Lemma firstn_incl A n (l : list A) x : In x (firstn n l) -> In x l.
Proof.
  intros H. rewrite <- (firstn_skipn n l). apply in_or_app. now left.
Qed.

Lemma slice_to_incl A (k : Z) (l : list A) x : In x (slice_to k l) -> In x l.
Proof.
  unfold slice_to. destruct (0 <=? k)%Z; apply firstn_incl.
Qed.

Lemma in_enumerate_from A (l : list A) : forall start i a,
  nth_error l i = Some a -> In ((start + i)%nat, a) (enumerate_from start l).
Proof.
  induction l as [|x l IH]; intros start [|i] a H; try discriminate.
  - cbn in H. apply Some_inj in H. subst. rewrite Nat.add_0_r. now left.
  - cbn in H. right. rewrite <- Nat.add_succ_comm. now apply IH.
Qed.

Lemma in_enumerate A (l : list A) i a :
  nth_error l i = Some a -> In (i, a) (enumerate l).
Proof. intros H. exact (in_enumerate_from A l 0 i a H). Qed.

Lemma enumerate_from_member A (l : list A) : forall start i a,
  In (i, a) (enumerate_from start l) -> In a l.
Proof.
  induction l as [|x l IH]; intros start i a; cbn [enumerate_from]; [contradiction|].
  intros [H|H]; [left; congruence|right; eapply IH; eassumption].
Qed.

(** The positions [enumerate] gives are distinct. *)
Lemma enumerate_from_fst A (l : list A) : forall start,
  map fst (enumerate_from start l) = seq start (length l).
Proof.
  induction l as [|x l IH]; intros start; cbn; [reflexivity|]. now rewrite IH.
Qed.

Lemma enumerate_NoDup A (l : list A) : NoDup (enumerate l).
Proof.
  apply (NoDup_map_inv fst). unfold enumerate. rewrite enumerate_from_fst.
  apply seq_NoDup.
Qed.

(** ** The stable descending sort *)

(** [sort_desc] permutes its input into descending order of score. *)
Lemma insert_desc_perm A (x : R * A) l : Permutation (x :: l) (insert_desc x l).
Proof.
  induction l as [|y l IH]; cbn; [reflexivity|].
  destruct (Rle_dec (fst y) (fst x)); [reflexivity|].
  rewrite perm_swap. now constructor.
Qed.

Lemma sort_desc_perm A (l : list (R * A)) : Permutation l (sort_desc l).
Proof.
  induction l as [|x l IH]; cbn; [reflexivity|].
  rewrite <- insert_desc_perm. now constructor.
Qed.

Lemma sort_desc_length A (l : list (R * A)) : length (sort_desc l) = length l.
Proof. symmetry. apply Permutation_length, sort_desc_perm. Qed.

Lemma insert_desc_sorted A (x : R * A) l :
  StronglySorted ge_score l -> StronglySorted ge_score (insert_desc x l).
Proof.
  induction 1 as [|y l Hs IH Hy]; cbn.
  - repeat constructor.
  - destruct (Rle_dec (fst y) (fst x)) as [Hle|Hgt].
    + constructor; [now constructor|].
      constructor; [exact Hle|].
      rewrite Forall_forall in *. intros z Hz. specialize (Hy z Hz).
      unfold ge_score in *. lra.
    + constructor; [assumption|].
      rewrite Forall_forall in *. intros z Hz.
      apply (Permutation_in _ (Permutation_sym (insert_desc_perm A x l))) in Hz.
      destruct Hz as [<-|Hz]; [unfold ge_score; lra|auto].
Qed.

Lemma sort_desc_sorted A (l : list (R * A)) : StronglySorted ge_score (sort_desc l).
Proof.
  induction l; cbn; [constructor|now apply insert_desc_sorted].
Qed.

(** In a descending list an item with a strictly greater score stands before. *)
Lemma sorted_ranks_above A (l : list (R * A)) x y :
  StronglySorted ge_score l -> In x l -> In y l -> fst y < fst x ->
  ranks_above x y l.
Proof.
  induction 1 as [|z l Hs IH Hz]; intros Hx Hy Hlt; [contradiction|].
  destruct Hx as [->|Hx].
  - destruct Hy as [->|Hy]; [lra|].
    apply in_split in Hy as (l2 & l3 & ->).
    now exists [], l2, l3.
  - destruct Hy as [->|Hy].
    + rewrite Forall_forall in Hz. specialize (Hz _ Hx). unfold ge_score in Hz. lra.
    + destruct (IH Hx Hy Hlt) as (l1 & l2 & l3 & ->).
      now exists (z :: l1), l2, l3.
Qed.

Lemma ranks_above_map A B (f : A -> B) a b l :
  ranks_above a b l -> ranks_above (f a) (f b) (map f l).
Proof.
  intros (l1 & l2 & l3 & ->).
  exists (map f l1), (map f l2), (map f l3).
  now rewrite map_app; cbn; rewrite map_app.
Qed.

(** A ranking has no item twice, so an item that stands before another
    in it does so in every prefix that holds the other. *)
Lemma ranking_NoDup (f : nat * MemoryEntry -> R) (p : nat * MemoryEntry -> bool) ms :
  NoDup (sort_desc (map (fun im => (f im, im)) (filter p (enumerate ms)))).
Proof.
  eapply Permutation_NoDup; [apply sort_desc_perm|].
  apply Injective_map_NoDup.
  - intros x y H. now inversion H.
  - apply NoDup_filter, enumerate_NoDup.
Qed.

Lemma firstn_ranks_above A (l : list A) n a b :
  NoDup l -> ranks_above b a l -> In a (firstn n l) -> ranks_above b a (firstn n l).
Proof.
  intros Hnd (l1 & l2 & l3 & ->) Hin.
  replace (l1 ++ b :: l2 ++ a :: l3) with ((l1 ++ b :: l2) ++ a :: l3) in *
    by (rewrite <- app_assoc; reflexivity).
  set (p := l1 ++ b :: l2) in *.
  rewrite firstn_app in *.
  destruct (Nat.le_gt_cases n (length p)) as [Hle|Hgt].
  - exfalso.
    replace (n - length p)%nat with 0%nat in Hin by lia.
    cbn [firstn] in Hin. rewrite app_nil_r in Hin.
    apply NoDup_remove_2 in Hnd. apply Hnd.
    apply in_or_app. left. eapply firstn_incl. exact Hin.
  - rewrite firstn_all2 by lia.
    destruct (n - length p)%nat as [|k] eqn:Hk; [lia|].
    cbn [firstn]. exists l1, l2, (firstn k l3).
    unfold p. rewrite <- app_assoc. reflexivity.
Qed.

Lemma slice_to_ranks_above A (l : list A) k a b :
  NoDup l -> ranks_above b a l -> In a (slice_to k l) -> ranks_above b a (slice_to k l).
Proof.
  unfold slice_to. destruct (0 <=? k)%Z; apply firstn_ranks_above.
Qed.

Lemma ranks_above_cons A (a x y : A) l :
  ranks_above x y l -> ranks_above x y (a :: l).
Proof. intros (l1 & l2 & l3 & ->). now exists (a :: l1), l2, l3. Qed.

Lemma ranks_above_head A (x y : A) l : In y l -> ranks_above x y (x :: l).
Proof. intros H. apply in_split in H as (l2 & l3 & ->). now exists [], l2, l3. Qed.

Lemma insert_desc_before A (x y : R * A) l :
  In y l -> fst y <= fst x -> ranks_above x y (insert_desc x l).
Proof.
  induction l as [|z l IH]; intros Hin Hle; [contradiction|].
  cbn [insert_desc]. destruct (Rle_dec (fst z) (fst x)) as [_|Hgt].
  - now apply ranks_above_head.
  - destruct Hin as [->|Hin]; [contradiction|].
    apply ranks_above_cons. now apply IH.
Qed.

Lemma insert_desc_keeps_order A (a x y : R * A) l :
  ranks_above x y l -> ranks_above x y (insert_desc a l).
Proof.
  induction l as [|z l IH]; intros Hr.
  - destruct Hr as ([|] & ? & ? & H); discriminate H.
  - cbn [insert_desc]. destruct (Rle_dec (fst z) (fst a)).
    + now apply ranks_above_cons.
    + destruct Hr as ([|z' l1] & l2 & l3 & H); injection H as -> ->.
      * apply ranks_above_head.
        eapply Permutation_in; [apply insert_desc_perm|].
        right. apply in_or_app. right. now left.
      * apply ranks_above_cons, IH. now exists l1, l2, l3.
Qed.

(** [sort_desc] is stable: of two items in input order, the second with
    a score not above the first's, the first still stands before the
    second. *)
Lemma sort_desc_stable A (x y : R * A) l :
  ranks_above x y l -> fst y <= fst x -> ranks_above x y (sort_desc l).
Proof.
  induction l as [|a l IH]; intros Hr Hle.
  - destruct Hr as ([|] & ? & ? & H); discriminate H.
  - cbn [sort_desc fold_right]. fold (sort_desc l).
    destruct Hr as ([|a' l1] & l2 & l3 & H); injection H as -> ->.
    + apply insert_desc_before; [|exact Hle].
      eapply Permutation_in; [apply sort_desc_perm|].
      apply in_or_app. right. now left.
    + apply insert_desc_keeps_order, IH; [|exact Hle]. now exists l1, l2, l3.
Qed.

(** [sorted([(1, 0), (2, 1), (1, 2), (2, 3)], key=score, reverse=True)]
    keeps the ties in input order. *)
Example sort_desc_ties :
  sort_desc [(1, 0%nat); (2, 1%nat); (1, 2%nat); (2, 3%nat)]
  = [(2, 1%nat); (2, 3%nat); (1, 0%nat); (1, 2%nat)].
Proof.
  unfold sort_desc. cbn [fold_right].
  repeat (cbn [insert_desc fst];
          match goal with
          | |- context [Rle_dec ?a ?b] => destruct (Rle_dec a b); try lra
          end).
  reflexivity.
Qed.

(** ** The UTF-8 codec round trip *)

Section Utf8Facts.
Local Open Scope Z_scope.

Ltac bool_to_prop H :=
  unfold Utf8.continuation, Utf8.is_surrogate in H;
  repeat first
    [ rewrite andb_true_iff in H | rewrite andb_false_iff in H
    | rewrite negb_true_iff in H | rewrite negb_false_iff in H
    | rewrite Z.leb_le in H | rewrite Z.ltb_lt in H
    | rewrite Z.leb_gt in H | rewrite Z.ltb_ge in H ].

Ltac settle_test :=
  match goal with
  | |- context [if ?b then _ else _] =>
      let E := fresh "E" in
      destruct b eqn:E;
      [ | try (exfalso; bool_to_prop E; Z.to_euclidean_division_equations; lia) ];
      try (exfalso; bool_to_prop E; Z.to_euclidean_division_equations; lia)
  end.

Lemma decode_cons b0 r0 :
  Utf8.decode (b0 :: r0) =
        if (0 <=? b0) && (b0 <? 0x80) then
          s <- Utf8.decode r0 ;; Ok (b0 :: s)
        else if (0xC0 <=? b0) && (b0 <? 0xE0) then
          match r0 with
          | b1 :: r1 =>
              let c := (b0 - 0xC0) * 64 + (b1 - 0x80) in
              if Utf8.continuation b1 && (0x80 <=? c) then
                s <- Utf8.decode r1 ;; Ok (c :: s)
              else Raise UnicodeDecodeError
          | _ => Raise UnicodeDecodeError
          end
        else if (0xE0 <=? b0) && (b0 <? 0xF0) then
          match r0 with
          | b1 :: b2 :: r2 =>
              let c := (b0 - 0xE0) * 4096 + (b1 - 0x80) * 64 + (b2 - 0x80) in
              if Utf8.continuation b1 && Utf8.continuation b2 && (0x800 <=? c)
                 && negb (Utf8.is_surrogate c) then
                s <- Utf8.decode r2 ;; Ok (c :: s)
              else Raise UnicodeDecodeError
          | _ => Raise UnicodeDecodeError
          end
        else if (0xF0 <=? b0) && (b0 <? 0xF8) then
          match r0 with
          | b1 :: b2 :: b3 :: r3 =>
              let c := (b0 - 0xF0) * 262144 + (b1 - 0x80) * 4096
                       + (b2 - 0x80) * 64 + (b3 - 0x80) in
              if Utf8.continuation b1 && Utf8.continuation b2 && Utf8.continuation b3
                 && (0x10000 <=? c) && (c <? 0x110000) then
                s <- Utf8.decode r3 ;; Ok (c :: s)
              else Raise UnicodeDecodeError
          | _ => Raise UnicodeDecodeError
          end
        else Raise UnicodeDecodeError.
Proof. reflexivity. Qed.


Lemma decode_encode_point c b rest :
  Utf8.encode_point c = Ok b ->
  Utf8.decode (b ++ rest) = (s <- Utf8.decode rest ;; Ok (c :: s)).
Proof.
  unfold Utf8.encode_point.
  destruct (Z.ltb_spec c 0); [discriminate|].
  destruct (Z.ltb_spec c 0x80).
  { intros Hb; apply Ok_inj in Hb; subst b. cbn [app]. rewrite decode_cons. settle_test. reflexivity. }
  destruct (Z.ltb_spec c 0x800).
  { intros Hb; apply Ok_inj in Hb; subst b. cbn [app]. rewrite decode_cons. cbv beta iota zeta.
    replace ((192 + c / 64 - 192) * 64 + (128 + c mod 64 - 128)) with c 
      by (Z.to_euclidean_division_equations; lia).
    do 3 settle_test. reflexivity. }
  destruct (Utf8.is_surrogate c) eqn:Hs; [discriminate|].
  destruct (Z.ltb_spec c 0x10000).
  { intros Hb; apply Ok_inj in Hb; subst b. cbn [app]. rewrite decode_cons. cbv beta iota zeta.
    replace ((224 + c / 4096 - 224) * 4096 + (128 + (c / 64) mod 64 - 128) * 64 + (128 + c mod 64 - 128)) with c 
      by (Z.to_euclidean_division_equations; lia).
    rewrite Hs.
    do 4 settle_test. reflexivity. }
  destruct (Z.ltb_spec c 0x110000); [|discriminate].
  intros Hb; apply Ok_inj in Hb; subst b. cbn [app]. rewrite decode_cons. cbv beta iota zeta.
  replace ((240 + c / 262144 - 240) * 262144 + (128 + (c / 4096) mod 64 - 128) * 4096 + (128 + (c / 64) mod 64 - 128) * 64 + (128 + c mod 64 - 128)) with c
      by (Z.to_euclidean_division_equations; lia).
  do 5 settle_test. reflexivity.
Qed.

Lemma encode_scalar s : Forall Utf8.scalar s -> exists b, Utf8.encode s = Ok b.
Proof.
  induction 1 as [|c s [Hr Hs] _ [b IH]]; [now exists []|].
  cbn [Utf8.encode]. rewrite IH.
  unfold Utf8.encode_point. rewrite Hs.
  repeat match goal with |- context [if ?b then _ else _] => 
     let E := fresh in destruct b eqn:E; [try (rewrite Z.ltb_lt in E; lia)|] end; 
  try (eexists; reflexivity).
  rewrite Z.ltb_ge in *. lia.
Qed.

Lemma decode_encode s b : Utf8.encode s = Ok b -> Utf8.decode b = Ok s.
Proof.
  revert b. induction s as [|c s IH]; intros b.
  - intros [= <-]. reflexivity.
  - cbn [Utf8.encode]. destruct (Utf8.encode_point c) as [bc|] eqn:Hc; [|discriminate].
    cbn [bind]. destruct (Utf8.encode s) as [bs|]; [|discriminate].
    cbn [bind]. intros [= <-].
    erewrite decode_encode_point by eassumption. rewrite (IH _ eq_refl). reflexivity.
Qed.

End Utf8Facts.

(** ** The digest has 32 octets; a vector divided by its norm has norm 1 *)

Lemma be_bytes_length n x : length (Sha256.be_bytes n x) = n.
Proof. unfold Sha256.be_bytes. now rewrite length_map, length_rev, length_seq. Qed.

Lemma digest_length msg : length (Sha256.digest msg) = 32%nat.
Proof.
  unfold Sha256.digest, Sha256.output.
  repeat rewrite length_app. repeat rewrite be_bytes_length. reflexivity.
Qed.

Section NormFacts.
Local Open Scope R_scope.

Lemma dot_divide n u v :
  n <> 0 -> Np.dot (Np.divide u n) (Np.divide v n) = Np.dot u v / (n * n).
Proof.
  intros Hn. unfold Np.dot, Np.divide, Np.sum.
  revert v. induction u as [|x u IH]; intros [|y v]; cbn; try (field; assumption).
  rewrite IH. field. assumption.
Qed.

Lemma dot_self_nonneg v : 0 <= Np.dot v v.
Proof.
  unfold Np.dot, Np.sum. induction v as [|x v IH]; cbn; [lra|]. nra.
Qed.

Lemma dot_self_pos v : Exists (fun x => x <> 0) v -> 0 < Np.dot v v.
Proof.
  induction 1 as [x v Hx|x v _ IH].
  - pose proof (dot_self_nonneg v) as Hv. unfold Np.dot, Np.sum in *. cbn. nra.
  - pose proof (dot_self_nonneg [x]) as Hv. unfold Np.dot, Np.sum in *. cbn in *. nra.
Qed.

Lemma norm_divide_norm v : 0 < Np.dot v v -> Np.norm (Np.divide v (Np.norm v)) = 1.
Proof.
  intros Hpos. unfold Np.norm at 1.
  assert (Hn : Np.norm v <> 0).
  { unfold Np.norm. pose proof (sqrt_lt_R0 _ Hpos). lra. }
  rewrite dot_divide by assumption.
  unfold Np.norm. rewrite sqrt_sqrt by lra.
  replace (Np.dot v v / Np.dot v v) with 1 by (field; lra).
  apply sqrt_1.
Qed.

Lemma divide_length v n : length (Np.divide v n) = length v.
Proof. apply length_map. Qed.

End NormFacts.

Lemma norm_axis_1 : Np.norm [1; 0] = 1.
Proof.
  unfold Np.norm, Np.dot, Np.sum. cbn [combine map fold_right fst snd].
  replace (1 * 1 + (0 * 0 + 0)) with 1 by lra. apply sqrt_1.
Qed.

Lemma norm_axis_2 : Np.norm [0; 1] = 1.
Proof.
  unfold Np.norm, Np.dot, Np.sum. cbn [combine map fold_right fst snd].
  replace (0 * 0 + (1 * 1 + 0)) with 1 by lra. apply sqrt_1.
Qed.

Lemma cosine_axis_same : Np.cosine [1; 0] [1; 0] = 1.
Proof.
  unfold Np.cosine, Np.normalize. rewrite norm_axis_1.
  destruct (Req_dec_T 1 0); [lra|].
  unfold Np.divide, Np.dot, Np.sum. cbn [combine map fold_right fst snd]. field.
Qed.

Lemma cosine_axis_orthogonal : Np.cosine [1; 0] [0; 1] = 0.
Proof.
  unfold Np.cosine, Np.normalize. rewrite norm_axis_1, norm_axis_2.
  destruct (Req_dec_T 1 0); [lra|].
  unfold Np.divide, Np.dot, Np.sum. cbn [combine map fold_right fst snd]. field.
Qed.

Lemma ln_6_pos : 0 < ln (1 + 5).
Proof. rewrite <- ln_1. apply ln_increasing; lra. Qed.

Lemma clamp_one : Rmin (Rmax 1 0) 10 = 1.
Proof.
  unfold Rmin, Rmax. destruct (Rle_dec 1 0); [lra|]. destruct (Rle_dec 1 10); lra.
Qed.

Lemma clamp_in_range x : 0 <= Rmin (Rmax x 0) 10 <= 10.
Proof.
  unfold Rmin, Rmax.
  destruct (Rle_dec x 0); destruct (Rle_dec _ 10); lra.
Qed.

(** ** The embedding provider *)

Lemma hash_embedding_encoded text encoded :
  Utf8.encode text = Ok encoded ->
  hash_embedding text
  = Ok (Np.divide (map IZR (Sha256.digest encoded))
                  (Np.norm (map IZR (Sha256.digest encoded)))).
Proof. intros H. unfold hash_embedding. now rewrite H. Qed.

Lemma hash_embedding_length text v :
  hash_embedding text = Ok v -> length v = 32%nat.
Proof.
  unfold hash_embedding. destruct (Utf8.encode text) as [encoded|]; [|discriminate].
  cbn [bind]. intros H. apply Ok_inj in H. subst v.
  now rewrite divide_length, length_map, digest_length.
Qed.

Lemma generate_embedding_total model text :
  Forall Utf8.scalar text ->
  exists records v, _generate_embedding model text = (records, Ok v).
Proof.
  intros H. destruct (encode_scalar text H) as [encoded He].
  pose proof (hash_embedding_encoded text encoded He) as Hh.
  destruct model as [encode|]; cbn [_generate_embedding].
  - destruct (encode text) as [v|e]; [now exists [], v|].
    rewrite Hh. now do 2 eexists.
  - rewrite Hh. now do 2 eexists.
Qed.

Lemma generate_embedding_falls_back (encode : Encoder) text e :
  encode text = Raise e ->
  _generate_embedding (Some encode) text
  = ([LogError "Failed to generate embedding" e], hash_embedding text).
Proof. intros H. cbn [_generate_embedding]. now rewrite H. Qed.

Lemma hash_embedding_note :
  exists v, hash_embedding Scenario.note = Ok v /\ length v = 32%nat.
Proof.
  destruct (hash_embedding Scenario.note) as [v|] eqn:H.
  - exists v. split; [reflexivity|]. eapply hash_embedding_length; eassumption.
  - unfold hash_embedding in H. discriminate.
Qed.

Lemma hash_embedding_query :
  exists v, hash_embedding Scenario.query = Ok v /\ length v = 32%nat.
Proof.
  destruct (hash_embedding Scenario.query) as [v|] eqn:H.
  - exists v. split; [reflexivity|]. eapply hash_embedding_length; eassumption.
  - unfold hash_embedding in H. discriminate.
Qed.

Lemma note_digest_not_zero : ~ zero_digest Scenario.note.
Proof.
  intros (encoded & He & Hz).
  change (Utf8.encode Scenario.note) with (Ok Scenario.note) in He.
  apply Ok_inj in He. subst encoded.
  assert (Hd : exists b rest, Sha256.digest Scenario.note = b :: rest /\ b <> 0%Z).
  { vm_compute. do 2 eexists. split; [reflexivity|discriminate]. }
  destruct Hd as (b & rest & Hd & Hb). rewrite Hd in Hz.
  inversion Hz. contradiction.
Qed.

Lemma flaky_model_note : Scenario.flaky_model Scenario.note = Ok (repeat 1 384).
Proof.
  unfold Scenario.flaky_model.
  destruct (list_eq_dec Z.eq_dec Scenario.note Scenario.query) as [E|_];
    [discriminate E|reflexivity].
Qed.

Lemma flaky_model_query : Scenario.flaky_model Scenario.query = Raise RuntimeError.
Proof.
  unfold Scenario.flaky_model.
  destruct (list_eq_dec Z.eq_dec Scenario.query Scenario.query) as [_|E];
    [reflexivity|contradiction].
Qed.

(** C10.  With no model loaded, [_generate_embedding] returns a vector
    for every text that UTF-8 can encode, and it is a function of the
    text alone: equal texts give equal vectors and nothing is logged;
    every vector it returns has 32 components; and its L2 norm is 1,
    unless the SHA-256 digest of the text is the all-zero string (on
    which the code divides by a zero norm). *)
Theorem C10_hash_embedding_is_a_unit_vector_of_dimension_32 :
  forall text,
    (Forall Utf8.scalar text -> exists v, _generate_embedding None text = ([], Ok v))
    /\ (forall v,
          snd (_generate_embedding None text) = Ok v ->
          (forall text' v', text' = text ->
                            snd (_generate_embedding None text') = Ok v' -> v' = v)
          /\ fst (_generate_embedding None text) = []
          /\ length v = 32%nat
          /\ (~ zero_digest text -> Np.norm v = 1)).
Proof.
  intros text. split.
  { intros Htext. destruct (generate_embedding_total None text Htext) as (records & v & G).
    exists v. cbn [_generate_embedding] in *. injection G as _ G. now rewrite G. }
  intros v Hv. cbn [_generate_embedding fst snd] in *.
  split.
  { intros text' v' -> Hv'. rewrite Hv in Hv'. now apply Ok_inj in Hv'. }
  split; [reflexivity|].
  split; [eapply hash_embedding_length; eassumption|].
  intros Hnz. unfold hash_embedding in Hv.
  destruct (Utf8.encode text) as [encoded|] eqn:He; [|discriminate].
  cbn [bind] in Hv. apply Ok_inj in Hv. subst v.
  apply norm_divide_norm, dot_self_pos.
  apply Exists_exists.
  destruct (Forall_Exists_dec (fun b => b = 0%Z) (fun b => Z.eq_dec b 0)
              (Sha256.digest encoded)) as [Hall|Hex].
  - exfalso. apply Hnz. now exists encoded.
  - apply Exists_exists in Hex as (b & Hb & Hb0).
    exists (IZR b). split; [now apply in_map|].
    intros H0. apply eq_IZR_R0 in H0. contradiction.
Qed.

(** C10 on the text "note": its digest is not all zero, and the fallback
    returns a unit vector of dimension 32. *)
Lemma C10_hash_embedding_witness :
  exists v, snd (_generate_embedding None Scenario.note) = Ok v
            /\ length v = 32%nat /\ Np.norm v = 1.
Proof.
  destruct hash_embedding_note as (v & Hv & _).
  exists v. split; [exact Hv|].
  destruct (C10_hash_embedding_is_a_unit_vector_of_dimension_32 Scenario.note)
    as [_ Hvec].
  destruct (Hvec v Hv) as (_ & _ & Hlen & Hnorm).
  split; [exact Hlen|]. apply Hnorm, note_digest_not_zero.
Defined.

(** ** The codec *)

(** A text with a surrogate code point is refused by the encoder. *)
Lemma encode_point_raises c e : Utf8.encode_point c = Raise e -> e = UnicodeEncodeError.
Proof.
  unfold Utf8.encode_point.
  repeat match goal with |- context [if ?b then _ else _] => destruct b end;
    congruence.
Qed.

Lemma encode_surrogate_point c :
  Utf8.is_surrogate c = true -> Utf8.encode_point c = Raise UnicodeEncodeError.
Proof.
  intros Hs. unfold Utf8.encode_point. rewrite Hs.
  unfold Utf8.is_surrogate in Hs. apply andb_true_iff in Hs as [H1 H2].
  apply Z.leb_le in H1. apply Z.leb_le in H2.
  destruct (Z.ltb_spec c 0); [reflexivity|].
  destruct (Z.ltb_spec c 128); [lia|].
  destruct (Z.ltb_spec c 2048); [lia|]. reflexivity.
Qed.

Lemma encode_raises s e : Utf8.encode s = Raise e -> e = UnicodeEncodeError.
Proof.
  induction s as [|c s IH]; cbn [Utf8.encode]; [discriminate|].
  destruct (Utf8.encode_point c) eqn:Hc; cbn [bind].
  - destruct (Utf8.encode s); cbn [bind]; [discriminate|].
    intros H. apply IH. congruence.
  - intros H. apply (encode_point_raises c). congruence.
Qed.

Lemma encode_surrogate s :
  Exists (fun c => Utf8.is_surrogate c = true) s ->
  Utf8.encode s = Raise UnicodeEncodeError.
Proof.
  intros H. destruct (Utf8.encode s) as [b|e] eqn:He.
  - exfalso. revert b He. induction H as [c s Hc|c s _ IH]; intros b; cbn [Utf8.encode].
    + rewrite (encode_surrogate_point c Hc). discriminate.
    + destruct (Utf8.encode_point c); cbn [bind]; [|discriminate].
      destruct (Utf8.encode s) as [bs|]; cbn [bind]; [|discriminate].
      intros _. now apply (IH bs).
  - f_equal. now apply (encode_raises s).
Qed.

(** C6, as amended.  For every text that UTF-8 can encode (every code
    point a Unicode scalar value, that is, no lone surrogate), of any
    length, [_decompress_content(_compress_content(text)) == text],
    given that [zlib.decompress] inverts [zlib.compress] at level 9; on a
    text that holds a surrogate code point [_compress_content] raises
    [UnicodeEncodeError]. *)
Theorem C6_roundtrip_of_encodable_text :
  forall zlib_compress zlib_decompress,
    (forall data, zlib_decompress (zlib_compress 9%Z data) = Ok data) ->
    forall text,
      (Forall Utf8.scalar text ->
       (compressed <- _compress_content zlib_compress text ;;
        _decompress_content zlib_decompress compressed) = Ok text)
      /\ (Exists (fun c => Utf8.is_surrogate c = true) text ->
          _compress_content zlib_compress text = Raise UnicodeEncodeError).
Proof.
  intros zc zd Hzlib text. split.
  - intros Htext.
    destruct (encode_scalar text Htext) as [encoded He].
    unfold _compress_content, _decompress_content. rewrite He. cbn [bind].
    rewrite Hzlib. cbn [bind]. now apply decode_encode.
  - intros Hs. unfold _compress_content. now rewrite (encode_surrogate text Hs).
Qed.

Lemma stored_roundtrip level data :
  Scenario.stored_decompress (Scenario.stored_compress level data) = Ok data.
Proof. reflexivity. Qed.

Lemma long_text_scalar : Forall Utf8.scalar Scenario.long_text.
Proof.
  unfold Scenario.long_text. apply Forall_app. split.
  - apply Forall_forall. intros c Hc. apply repeat_spec in Hc. subst c.
    split; [lia|reflexivity].
  - constructor; [|constructor]. split; [lia|reflexivity].
Qed.

(** The amended C6 on a text of 1026 code points, one of them outside
    the basic plane. *)
Lemma C6_roundtrip_witness :
  (1024 < len Scenario.long_text)%Z
  /\ (compressed <- _compress_content Scenario.stored_compress Scenario.long_text ;;
      _decompress_content Scenario.stored_decompress compressed)
     = Ok Scenario.long_text.
Proof.
  split; [vm_compute; reflexivity|].
  apply (C6_roundtrip_of_encodable_text Scenario.stored_compress Scenario.stored_decompress).
  - intros data. apply stored_roundtrip.
  - exact long_text_scalar.
Defined.

(** C6 as stated fails: a text of 1025 lone surrogates is longer than
    the threshold, and [_compress_content] raises [UnicodeEncodeError] on
    it whatever zlib does, so the round trip does not return the text. *)
Lemma C6_lone_surrogates_do_not_round_trip :
  (1024 < len Scenario.lone_surrogates)%Z
  /\ (forall zlib_compress zlib_decompress,
        (compressed <- _compress_content zlib_compress Scenario.lone_surrogates ;;
         _decompress_content zlib_decompress compressed)
        = Raise UnicodeEncodeError).
Proof.
  split; [vm_compute; reflexivity|].
  intros zc zd. unfold _compress_content.
  change Scenario.lone_surrogates with (0xD800%Z :: repeat 0xD800%Z 1024).
  reflexivity.
Qed.

(** ** The append path *)

Lemma save_memories zc io mgr m :
  memories (_save_to_git_sync zc io mgr m) = memories mgr.
Proof.
  unfold _save_to_git_sync.
  destruct (document zc (compression_enabled mgr) m); [destruct io|]; reflexivity.
Qed.

Lemma save_embedding_model zc io mgr m :
  embedding_model (_save_to_git_sync zc io mgr m) = embedding_model mgr.
Proof.
  unfold _save_to_git_sync.
  destruct (document zc (compression_enabled mgr) m); [destruct io|]; reflexivity.
Qed.

Lemma save_compression_enabled zc io mgr m :
  compression_enabled (_save_to_git_sync zc io mgr m) = compression_enabled mgr.
Proof.
  unfold _save_to_git_sync.
  destruct (document zc (compression_enabled mgr) m); [destruct io|]; reflexivity.
Qed.

Lemma document_short zc compression m :
  (len (content m) <= 1024)%Z -> document zc compression m = Ok m.
Proof.
  intros H. unfold document.
  destruct (Z.ltb_spec 1024 (len (content m))); [lia|].
  now rewrite andb_false_r.
Qed.

Lemma save_log_committed zc mgr m data :
  document zc (compression_enabled mgr) m = Ok data ->
  log (_save_to_git_sync zc IoOk mgr m) = log mgr.
Proof. intros H. unfold _save_to_git_sync. now rewrite H. Qed.

Lemma save_failure_logged zc io mgr m :
  io <> IoOk ->
  exists e, hd_error (log (_save_to_git_sync zc io mgr m))
            = Some (LogError "Failed to save memory to Git" e).
Proof.
  intros Hio. unfold _save_to_git_sync.
  destruct (document zc (compression_enabled mgr) m); [|now eexists].
  destruct io; [contradiction| | |]; now eexists.
Qed.

Lemma add_memory_generated zc now io mgr content x tags source records v :
  _generate_embedding (embedding_model mgr) content = (records, Ok v) ->
  let e := new_entry now content x tags source v in
  snd (add_memory zc now io mgr content x tags source) = Ok e
  /\ memories (fst (add_memory zc now io mgr content x tags source))
     = memories mgr ++ [e]
  /\ embedding_model (fst (add_memory zc now io mgr content x tags source))
     = embedding_model mgr.
Proof.
  intros Hgen e. unfold add_memory. rewrite Hgen. cbn [fst snd].
  rewrite save_memories, save_embedding_model. repeat split.
Qed.

Lemma add_memory_raises zc now io mgr content x tags source records e :
  _generate_embedding (embedding_model mgr) content = (records, Raise e) ->
  snd (add_memory zc now io mgr content x tags source) = Raise e
  /\ memories (fst (add_memory zc now io mgr content x tags source)) = memories mgr.
Proof.
  intros Hgen. unfold add_memory. rewrite Hgen. split; reflexivity.
Qed.

Lemma add_memory_index zc now io mgr content x tags source :
  memories (fst (add_memory zc now io mgr content x tags source)) = memories mgr
  \/ exists v,
       memories (fst (add_memory zc now io mgr content x tags source))
       = memories mgr ++ [new_entry now content x tags source v].
Proof.
  destruct (_generate_embedding (embedding_model mgr) content) as [records [v|e]] eqn:G.
  - right. exists v. eapply add_memory_generated. eassumption.
  - left. eapply add_memory_raises. eassumption.
Qed.

Lemma add_memory_returns zc now io mgr content x tags source e :
  snd (add_memory zc now io mgr content x tags source) = Ok e ->
  importance e = Rmin (Rmax x 0) 10
  /\ In e (memories (fst (add_memory zc now io mgr content x tags source))).
Proof.
  destruct (_generate_embedding (embedding_model mgr) content) as [records [v|e']] eqn:G.
  - destruct (add_memory_generated zc now io mgr content x tags source records v G)
      as (Hr & Hm & _).
    rewrite Hr, Hm. intros He. apply Ok_inj in He. subst e.
    split; [reflexivity|]. apply in_or_app. right. now left.
  - destruct (add_memory_raises zc now io mgr content x tags source records e' G)
      as (Hr & _).
    rewrite Hr. discriminate.
Qed.

Lemma embedded_new_entry now content x tags source v d :
  length v = d -> d <> 0%nat ->
  embedded d (new_entry now content x tags source v).
Proof.
  intros Hv Hd. unfold embedded, has_embedding, embedding_of. cbn [embedding new_entry].
  destruct v; [cbn in Hv; congruence|]. now split.
Qed.

(** X2.  For every encodable content, [add_memory] returns the entry it
    constructed and leaves it in the live index, whether or not the model
    raises and wherever the write to the ledger fails: a raising model
    is replaced by the hash fallback for that call, and a failed save is
    logged. *)
Theorem append_survives_backend_and_ledger_failures :
  forall zlib_compress now io mgr content x tags source,
    Forall Utf8.scalar content ->
    exists e,
      snd (add_memory zlib_compress now io mgr content x tags source) = Ok e
      /\ In e (memories (fst (add_memory zlib_compress now io mgr content x tags source)))
      /\ (forall (encode : Encoder) err,
            embedding_model mgr = Some encode -> encode content = Raise err ->
            Ok (embedding_of e) = hash_embedding content)
      /\ (io <> IoOk ->
          exists err,
            hd_error (log (fst (add_memory zlib_compress now io mgr content x tags source)))
            = Some (LogError "Failed to save memory to Git" err)).
Proof.
  intros zc now io mgr content x tags source Hc.
  destruct (generate_embedding_total (embedding_model mgr) content Hc)
    as (records & v & G).
  destruct (add_memory_generated zc now io mgr content x tags source records v G)
    as (Hr & Hm & _).
  exists (new_entry now content x tags source v).
  split; [exact Hr|]. split; [rewrite Hm; apply in_or_app; right; now left|].
  split.
  - intros encode err Hmodel Herr.
    rewrite Hmodel, (generate_embedding_falls_back encode content err Herr) in G.
    injection G as _ G. now rewrite G.
  - intros Hio. unfold add_memory. rewrite G. cbn [fst].
    now apply save_failure_logged.
Qed.

(** X2 with a model that raises on the content and a commit that
    fails. *)
Lemma append_survives_witness :
  exists e,
    snd (add_memory Scenario.stored_compress 100 CommitFails
           (__init__ true empty_repo (Some Scenario.flaky_model))
           Scenario.query 1 None Scenario.tester) = Ok e
    /\ Ok (embedding_of e) = hash_embedding Scenario.query.
Proof.
  assert (Hc : Forall Utf8.scalar Scenario.query).
  { constructor; [|constructor]. split; [lia|reflexivity]. }
  destruct (append_survives_backend_and_ledger_failures Scenario.stored_compress 100
              CommitFails (__init__ true empty_repo (Some Scenario.flaky_model))
              Scenario.query 1 None Scenario.tester Hc) as (e & Hr & _ & Hfb & _).
  exists e. split; [exact Hr|].
  exact (Hfb Scenario.flaky_model RuntimeError eq_refl flaky_model_query).
Defined.

(** ** Retrieval: the scored list and the result *)

Lemma present_embeddings_all d ms :
  Forall (embedded d) ms -> present_embeddings ms = map embedding_of ms.
Proof.
  induction 1 as [|m ms [Hm _] _ IH]; [reflexivity|].
  cbn [present_embeddings map]. rewrite IH.
  unfold has_embedding, embedding_of in *.
  destruct (embedding m) as [[|x v]|]; try discriminate. reflexivity.
Qed.

Lemma cosine_similarity_rows q Y :
  Forall (fun y => length y = length q) Y ->
  Np.cosine_similarity q Y = Ok (map (Np.cosine q) Y).
Proof.
  intros H. unfold Np.cosine_similarity.
  replace (forallb _ Y) with true; [reflexivity|].
  symmetry. apply forallb_forall. rewrite Forall_forall in H.
  intros y Hy. apply Nat.eqb_eq. auto.
Qed.

Lemma cosine_similarity_mismatch q Y y :
  In y Y -> length y <> length q -> Np.cosine_similarity q Y = Raise ValueError.
Proof.
  intros Hin Hlen. unfold Np.cosine_similarity.
  destruct (forallb _ Y) eqn:E; [|reflexivity].
  rewrite forallb_forall in E. apply E in Hin. apply Nat.eqb_eq in Hin. contradiction.
Qed.

Lemma score_loop_aligned (f : MemoryEntry -> R) min_importance suffix :
  forall prefix,
    score_loop (map f (prefix ++ suffix)) min_importance
               (enumerate_from (length prefix) suffix)
    = Ok (scored_as f min_importance (enumerate_from (length prefix) suffix)).
Proof.
  induction suffix as [|m suffix IH]; intros prefix; [reflexivity|].
  cbn [enumerate_from score_loop]. unfold scored_as. cbn [filter snd].
  specialize (IH (prefix ++ [m])).
  rewrite <- app_assoc, length_app, Nat.add_1_r in IH. cbn [app] in IH.
  unfold passes at 1.
  destruct (Rle_dec min_importance (importance m)).
  - rewrite nth_error_map, nth_error_app2, Nat.sub_diag by lia. cbn [nth_error option_map].
    rewrite IH. reflexivity.
  - exact IH.
Qed.

Lemma scored_memories_aligned q min_importance ms :
  Forall (embedded (length q)) ms ->
  scored_memories q min_importance ms
  = Ok (map (fun im => (own_score q (snd im), im))
            (filter (fun im => passes min_importance (snd im)) (enumerate ms))).
Proof.
  intros Hms. unfold scored_memories.
  rewrite (present_embeddings_all _ _ Hms).
  rewrite cosine_similarity_rows.
  2:{ rewrite Forall_map. eapply Forall_impl; [|exact Hms]. now intros m [_ H]. }
  cbn [bind]. rewrite map_map.
  exact (score_loop_aligned (fun m => Np.cosine q (embedding_of m)) min_importance ms []).
Qed.

Lemma score_loop_passes similarities min_importance ims :
  forall scored,
    score_loop similarities min_importance ims = Ok scored ->
    Forall (fun x => min_importance <= importance (snd (snd x))) scored.
Proof.
  induction ims as [|[i m] ims IH]; intros scored; cbn [score_loop].
  - intros H. apply Ok_inj in H. subst. constructor.
  - destruct (Rle_dec min_importance (importance m)) as [Hle|_]; [|apply IH].
    destruct (nth_error similarities i); [|discriminate].
    destruct (score_loop similarities min_importance ims) as [tl|]; [|discriminate].
    cbn [bind]. intros H. apply Ok_inj in H. subst scored.
    constructor; [exact Hle|now apply IH].
Qed.

Lemma score_loop_members similarities min_importance ims :
  forall scored,
    score_loop similarities min_importance ims = Ok scored ->
    Forall (fun x => In (snd x) ims) scored.
Proof.
  induction ims as [|[i m] ims IH]; intros scored; cbn [score_loop].
  - intros H. apply Ok_inj in H. subst. constructor.
  - assert (Hweak : forall l : list (R * (nat * MemoryEntry)),
               Forall (fun x => In (snd x) ims) l ->
               Forall (fun x => In (snd x) ((i, m) :: ims)) l).
    { intros l Hl. eapply Forall_impl; [|exact Hl]. intros x Hx. now right. }
    destruct (Rle_dec min_importance (importance m)) as [Hle|_].
    2:{ intros H. now apply Hweak, IH. }
    destruct (nth_error similarities i); [|discriminate].
    destruct (score_loop similarities min_importance ims) as [tl|]; [|discriminate].
    cbn [bind]. intros H. apply Ok_inj in H. subst scored.
    constructor; [now left|now apply Hweak, IH].
Qed.

Lemma retrieve_scored now mgr query top_k min_importance records q scored :
  memories mgr <> [] ->
  present_embeddings (memories mgr) <> [] ->
  _generate_embedding (embedding_model mgr) query = (records, Ok q) ->
  scored_memories q min_importance (memories mgr) = Ok scored ->
  let top := slice_to top_k (sort_desc scored) in
  snd (retrieve_memories now mgr query top_k min_importance)
  = Ok (map (fun x => touch now (snd (snd x))) top)
  /\ memories (fst (retrieve_memories now mgr query top_k min_importance))
     = touch_positions now (map (fun x => fst (snd x)) top) (memories mgr).
Proof.
  intros Hne Hpe Hgen Hsc top. unfold retrieve_memories.
  destruct (memories mgr) as [|m ms] eqn:Hms; [contradiction|].
  rewrite Hgen. cbn [logged memories].
  rewrite Hms.
  destruct (present_embeddings (m :: ms)) eqn:Hp; [contradiction|].
  rewrite Hsc. split; reflexivity.
Qed.

Lemma retrieve_raises now mgr query top_k min_importance records q e :
  memories mgr <> [] ->
  present_embeddings (memories mgr) <> [] ->
  _generate_embedding (embedding_model mgr) query = (records, Ok q) ->
  scored_memories q min_importance (memories mgr) = Raise e ->
  snd (retrieve_memories now mgr query top_k min_importance) = Raise e
  /\ memories (fst (retrieve_memories now mgr query top_k min_importance))
     = memories mgr
  /\ log (fst (retrieve_memories now mgr query top_k min_importance))
     = records ++ log mgr.
Proof.
  intros Hne Hpe Hgen Hsc. unfold retrieve_memories.
  destruct (memories mgr) as [|m ms] eqn:Hms; [contradiction|].
  rewrite Hgen. cbn [logged memories].
  rewrite Hms.
  destruct (present_embeddings (m :: ms)) eqn:Hp; [contradiction|].
  rewrite Hsc. split; [reflexivity|]. cbn [fst logged memories log]. now rewrite Hms.
Qed.

Lemma retrieve_result_shape now mgr query top_k min_importance r :
  snd (retrieve_memories now mgr query top_k min_importance) = Ok r ->
  r = []
  \/ exists q scored,
       scored_memories q min_importance (memories mgr) = Ok scored
       /\ r = map (fun x => touch now (snd (snd x))) (slice_to top_k (sort_desc scored)).
Proof.
  unfold retrieve_memories.
  destruct (memories mgr) as [|m ms] eqn:E.
  { intros H. apply Ok_inj in H. now left. }
  destruct (_generate_embedding (embedding_model mgr) query) as [records [q|e]];
    [|discriminate].
  cbn [logged memories]. rewrite E.
  destruct (present_embeddings (m :: ms)).
  { intros H. apply Ok_inj in H. now left. }
  destruct (scored_memories q min_importance (m :: ms)) as [scored|] eqn:Hs;
    [|discriminate].
  intros H. apply Ok_inj in H. right. exists q, scored. now split.
Qed.

Lemma retrieve_memories_index now mgr query top_k min_importance :
  memories (fst (retrieve_memories now mgr query top_k min_importance)) = memories mgr
  \/ exists positions,
       memories (fst (retrieve_memories now mgr query top_k min_importance))
       = touch_positions now positions (memories mgr).
Proof.
  unfold retrieve_memories.
  destruct (memories mgr) as [|m ms] eqn:E; [left; exact E|].
  destruct (_generate_embedding (embedding_model mgr) query) as [records [q|e]].
  2:{ left. exact E. }
  cbn [logged memories]. rewrite E.
  destruct (present_embeddings (m :: ms)); [left; exact E|].
  destruct (scored_memories q min_importance (m :: ms)).
  - right. eexists. reflexivity.
  - left. exact E.
Qed.

Lemma passes_zero m : 0 <= importance m -> passes 0 m = true.
Proof. intros H. unfold passes. now destruct (Rle_dec 0 (importance m)). Qed.

Lemma own_score_zero q m :
  Np.cosine q (embedding_of m) = 0 -> own_score q m = 0.
Proof. intros H. unfold own_score. rewrite H. apply Rmult_0_l. Qed.

Lemma own_score_increasing q a b :
  Np.cosine q (embedding_of a) = Np.cosine q (embedding_of b) ->
  0 < Np.cosine q (embedding_of a) ->
  0 <= importance a < importance b ->
  own_score q a < own_score q b.
Proof.
  intros Heq Hpos [Ha Hab]. unfold own_score. rewrite <- Heq.
  apply Rmult_lt_compat_l; [assumption|].
  apply Rplus_lt_compat_l, ln_increasing; lra.
Qed.

Lemma in_scored q min_importance ms i a :
  nth_error ms i = Some a -> passes min_importance a = true ->
  In (own_score q a, (i, a))
     (sort_desc (map (fun im => (own_score q (snd im), im))
                     (filter (fun im => passes min_importance (snd im)) (enumerate ms)))).
Proof.
  intros Hi Hp. eapply Permutation_in; [apply sort_desc_perm|].
  apply (in_map (fun im => (own_score q (snd im), im)) _ (i, a)).
  apply filter_In. split; [now apply in_enumerate|exact Hp].
Qed.

(** ** Retrieval: scoring, ranking and the size of the result *)

(** On every store whose live entries all carry an embedding of the
    query embedding's dimension, [retrieve_memories] scores each entry
    that passes the importance filter as
    [cosine_similarity(query, its own embedding) * (1 + ln(1 + importance))]
    and returns the first [top_k] of the stable descending order of these
    scores.  Consequently an entry whose similarity to the query is 0 has
    score 0 whatever its importance; and of two entries with equal
    positive similarity, the one with strictly greater importance
    (importances being non-negative) has the strictly greater score,
    stands before the other in the ranking, and stands before it in the
    returned sequence whenever the other is returned. *)
Lemma aligned_store_scores :
  forall now mgr query top_k min_importance records q,
    _generate_embedding (embedding_model mgr) query = (records, Ok q) ->
    Forall (embedded (length q)) (memories mgr) ->
    let scored :=
      map (fun im => (own_score q (snd im), im))
          (filter (fun im => passes min_importance (snd im)) (enumerate (memories mgr))) in
    let top := slice_to top_k (sort_desc scored) in
    scored_memories q min_importance (memories mgr) = Ok scored
    /\ snd (retrieve_memories now mgr query top_k min_importance)
       = Ok (map (fun x => touch now (snd (snd x))) top)
    /\ (forall i a,
          nth_error (memories mgr) i = Some a -> passes min_importance a = true ->
          Np.cosine q (embedding_of a) = 0 ->
          own_score q a = 0 /\ In (0, (i, a)) (sort_desc scored))
    /\ (forall i j a b,
          nth_error (memories mgr) i = Some a -> nth_error (memories mgr) j = Some b ->
          passes min_importance a = true -> passes min_importance b = true ->
          Np.cosine q (embedding_of a) = Np.cosine q (embedding_of b) ->
          0 < Np.cosine q (embedding_of a) ->
          0 <= importance a < importance b ->
          own_score q a < own_score q b
          /\ ranks_above (own_score q b, (j, b)) (own_score q a, (i, a))
                         (sort_desc scored)
          /\ (In (own_score q a, (i, a)) top ->
              ranks_above (touch now b) (touch now a)
                          (map (fun x => touch now (snd (snd x))) top))).
Proof.
  intros now mgr query top_k min_importance records q Hgen Hemb scored top.
  pose proof (scored_memories_aligned q min_importance _ Hemb) as Hsc.
  fold scored in Hsc.
  split; [exact Hsc|]. split.
  { destruct (memories mgr) as [|m ms] eqn:Hm.
    - unfold retrieve_memories. rewrite Hm. cbn [snd].
      subst top scored. cbn [enumerate enumerate_from filter map sort_desc fold_right].
      unfold slice_to. destruct (0 <=? top_k)%Z; now rewrite firstn_nil.
    - rewrite <- Hm in *.
      assert (Hne : memories mgr <> []) by (rewrite Hm; discriminate).
      assert (Hpe : present_embeddings (memories mgr) <> []).
      { rewrite (present_embeddings_all _ _ Hemb), Hm. discriminate. }
      now destruct (retrieve_scored now mgr query top_k min_importance records q scored
                      Hne Hpe Hgen Hsc). }
  split.
  - intros i a Hi Hp Hz. split; [now apply own_score_zero|].
    rewrite <- (own_score_zero q a Hz). now apply in_scored.
  - intros i j a b Hi Hj Hpa Hpb Heq Hpos Himp.
    assert (Hlt : own_score q a < own_score q b) by now apply own_score_increasing.
    assert (Hrank : ranks_above (own_score q b, (j, b)) (own_score q a, (i, a))
                                (sort_desc scored)).
    { apply sorted_ranks_above; [apply sort_desc_sorted| | |exact Hlt];
        now apply in_scored. }
    split; [exact Hlt|]. split; [exact Hrank|].
    intros Hin.
    apply (ranks_above_map _ _ (fun x => touch now (snd (snd x)))
             (own_score q b, (j, b)) (own_score q a, (i, a))).
    apply slice_to_ranks_above; [|exact Hrank|exact Hin].
    apply (ranking_NoDup (fun im => own_score q (snd im))).
Qed.

(** C3, as amended.  For every store state, query and [top_k >= 0], the
    sequence [retrieve_memories] returns has at most [top_k] entries, and
    it is empty for [top_k = 0]; and the call does return whenever the
    query has an embedding and every live entry carries an embedding of
    its dimension, and on the empty store. *)
Theorem C3_top_k_bounds_the_result :
  forall now mgr query top_k min_importance,
    (forall r,
        snd (retrieve_memories now mgr query top_k min_importance) = Ok r ->
        ((0 <= top_k)%Z -> (len r <= top_k)%Z) /\ (top_k = 0%Z -> r = []))
    /\ (forall records q,
          _generate_embedding (embedding_model mgr) query = (records, Ok q) ->
          Forall (embedded (length q)) (memories mgr) ->
          exists r, snd (retrieve_memories now mgr query top_k min_importance) = Ok r)
    /\ (memories mgr = [] ->
        snd (retrieve_memories now mgr query top_k min_importance) = Ok []).
Proof.
  intros now mgr query top_k min_importance. split; [|split].
  3:{ intros Hm. unfold retrieve_memories. now rewrite Hm. }
  - intros r Hr.
    apply retrieve_result_shape in Hr as [->|(q & scored & Hsc & ->)].
    { split; [unfold len; cbn; lia|reflexivity]. }
    split.
    + intros Hk. unfold len. rewrite length_map. now apply slice_to_length_le.
    + intros ->. reflexivity.
  - intros records q Hgen Hemb.
    destruct (memories mgr) as [|m ms] eqn:Hm.
    { exists []. unfold retrieve_memories. now rewrite Hm. }
    rewrite <- Hm in Hemb.
    assert (Hne : memories mgr <> []) by (rewrite Hm; discriminate).
    assert (Hpe : present_embeddings (memories mgr) <> []).
    { rewrite (present_embeddings_all _ _ Hemb), Hm. discriminate. }
    eexists.
    exact (proj1 (retrieve_scored now mgr query top_k min_importance records q _
                    Hne Hpe Hgen (scored_memories_aligned q min_importance _ Hemb))).
Qed.

(** The amended C3 on the two-entry store [Scenario.ranked] with
    [top_k = 1]. *)
Lemma C3_top_k_witness :
  exists r, snd (retrieve_memories 300 Scenario.ranked Scenario.query 1 0) = Ok r
            /\ (len r <= 1)%Z.
Proof.
  assert (Hgen : _generate_embedding (embedding_model Scenario.ranked) Scenario.query
                 = ([], Ok [1; 0])) by reflexivity.
  assert (Hemb : Forall (embedded (length [1; 0])) (memories Scenario.ranked)).
  { constructor; [|constructor; [|constructor]]; split; reflexivity. }
  destruct (C3_top_k_bounds_the_result 300 Scenario.ranked Scenario.query 1 0)
    as (Hbound & Hreturns & _).
  destruct (Hreturns [] [1; 0] Hgen Hemb) as [r Hr].
  exists r. split; [exact Hr|].
  apply (Hbound r Hr). lia.
Defined.

(** X1.  Whenever [retrieve_memories] returns, every entry of its result
    is a live entry of the store, with its access statistics updated,
    whose importance is [>= min_importance]. *)
Theorem retrieval_returns_filtered_entries :
  forall now mgr query top_k min_importance r,
    snd (retrieve_memories now mgr query top_k min_importance) = Ok r ->
    Forall (fun m => min_importance <= importance m
                     /\ exists m0, In m0 (memories mgr) /\ m = touch now m0) r.
Proof.
  intros now mgr query top_k min_importance r Hr.
  apply retrieve_result_shape in Hr as [->|(q & scored & Hsc & ->)]; [constructor|].
  unfold scored_memories in Hsc.
  destruct (Np.cosine_similarity q (present_embeddings (memories mgr)))
    as [sims|]; [|discriminate].
  cbn [bind] in Hsc.
  pose proof (score_loop_passes _ _ _ _ Hsc) as Hpass.
  pose proof (score_loop_members _ _ _ _ Hsc) as Hmem.
  apply Forall_forall. intros m Hm.
  apply in_map_iff in Hm as (x & <- & Hx).
  apply slice_to_incl in Hx.
  apply (Permutation_in _ (Permutation_sym (sort_desc_perm _ scored))) in Hx.
  rewrite Forall_forall in Hpass, Hmem. split; [exact (Hpass x Hx)|].
  exists (snd (snd x)). split; [|reflexivity].
  specialize (Hmem x Hx). destruct (snd x) as [i m0]. cbn [snd].
  eapply enumerate_from_member. exact Hmem.
Qed.

(** X1 on the two-entry store [Scenario.ranked] with [top_k = 1]. *)
Lemma retrieval_filter_witness :
  exists r, snd (retrieve_memories 300 Scenario.ranked Scenario.query 1 0) = Ok r
            /\ Forall (fun m => 0 <= importance m) r.
Proof.
  assert (Hne : memories Scenario.ranked <> []) by discriminate.
  assert (Hgen : _generate_embedding (embedding_model Scenario.ranked) Scenario.query
                 = ([], Ok [1; 0])) by reflexivity.
  assert (Hemb : Forall (embedded (length [1; 0])) (memories Scenario.ranked)).
  { constructor; [|constructor; [|constructor]]; split; reflexivity. }
  assert (Hpe : present_embeddings (memories Scenario.ranked) <> []) by discriminate.
  destruct (retrieve_scored 300 Scenario.ranked Scenario.query 1 0 [] [1; 0] _
              Hne Hpe Hgen (scored_memories_aligned [1; 0] 0 _ Hemb)) as [Hres _].
  eexists. split; [exact Hres|].
  pose proof (retrieval_returns_filtered_entries 300 Scenario.ranked Scenario.query
                1 0 _ Hres) as H.
  eapply Forall_impl; [|exact H]. now intros m [Hm _].
Defined.

(** ** Retrieval on stores that break the embedding invariant, and at a negative [top_k] *)

Lemma two_notes_state v :
  hash_embedding Scenario.note = Ok v ->
  memories Scenario.two_notes
  = [new_entry 100 Scenario.note 1 None Scenario.tester v;
     new_entry 200 Scenario.note 1 None Scenario.tester v]
  /\ embedding_model Scenario.two_notes = None.
Proof.
  intros Hv. unfold Scenario.two_notes.
  set (s1 := fst (add_memory _ 100 _ Scenario.fresh _ _ _ _)).
  assert (G0 : _generate_embedding (embedding_model Scenario.fresh) Scenario.note = ([], Ok v)).
  { change (embedding_model Scenario.fresh) with (@None Encoder).
    cbn [_generate_embedding]. now rewrite Hv. }
  destruct (add_memory_generated Scenario.stored_compress 100 IoOk Scenario.fresh
              Scenario.note 1 None Scenario.tester [] v G0) as (_ & M1 & E1).
  fold s1 in M1, E1.
  assert (G1 : _generate_embedding (embedding_model s1) Scenario.note = ([], Ok v)).
  { rewrite E1. exact G0. }
  destruct (add_memory_generated Scenario.stored_compress 200 IoOk s1
              Scenario.note 1 None Scenario.tester [] v G1) as (_ & M2 & E2).
  rewrite M2, M1, E2, E1. split; reflexivity.
Qed.

Lemma bare_then_added_state v :
  hash_embedding Scenario.note = Ok v ->
  memories Scenario.bare_then_added
  = [Scenario.entry Scenario.draft 5 None;
     new_entry 100 Scenario.note 1 None Scenario.tester v]
  /\ embedding_model Scenario.bare_then_added = None.
Proof.
  intros Hv. unfold Scenario.bare_then_added.
  set (s0 := with_memories Scenario.fresh _).
  assert (G0 : _generate_embedding (embedding_model s0) Scenario.note = ([], Ok v)).
  { change (embedding_model s0) with (@None Encoder).
    cbn [_generate_embedding]. now rewrite Hv. }
  destruct (add_memory_generated Scenario.stored_compress 100 IoOk s0
              Scenario.note 1 None Scenario.tester [] v G0) as (_ & M1 & E1).
  rewrite M1, E1. split; reflexivity.
Qed.

Lemma model_store_state :
  memories Scenario.model_store
  = [new_entry 100 Scenario.note 1 None Scenario.tester (repeat 1 384)]
  /\ embedding_model Scenario.model_store = Some Scenario.flaky_model
  /\ snd (add_memory Scenario.stored_compress 100 IoOk
            (__init__ true empty_repo (Some Scenario.flaky_model))
            Scenario.note 1 None Scenario.tester)
     = Ok (new_entry 100 Scenario.note 1 None Scenario.tester (repeat 1 384)).
Proof.
  unfold Scenario.model_store.
  set (s0 := __init__ true empty_repo (Some Scenario.flaky_model)).
  assert (G0 : _generate_embedding (embedding_model s0) Scenario.note
               = ([], Ok (repeat 1 384))).
  { change (embedding_model s0) with (Some Scenario.flaky_model).
    cbn [_generate_embedding]. now rewrite flaky_model_note. }
  destruct (add_memory_generated Scenario.stored_compress 100 IoOk s0
              Scenario.note 1 None Scenario.tester [] _ G0) as (R1 & M1 & E1).
  rewrite M1, E1, R1. repeat split.
Qed.

(** An index assembled by hand, not through the operations, can hold an
    entry without an embedding, and there the positions of
    [similarities] and of [self.memories] part.  In [Scenario.shifted]
    the query embedding is [[1; 0]]; the entry [e_aligned] (embedding
    [[1; 0]], importance 5) has similarity 1 to the query, but is scored
    with [similarities[1]], the similarity of [e_orthogonal]'s embedding,
    while the entry without an embedding is scored with the similarity of
    [e_aligned]'s and returned first.  The hypothesis that a store is
    built through the operations cannot be dropped from the statements
    about scoring. *)
Lemma assembled_index_scores_with_another_embedding :
  own_score [1; 0] Scenario.e_aligned = 1 + ln (1 + 5)
  /\ scored_memories [1; 0] 3 (memories Scenario.shifted)
     = Ok [(1 + ln (1 + 5), (0%nat, Scenario.e_bare));
           (0, (1%nat, Scenario.e_aligned))]
  /\ snd (retrieve_memories 300 Scenario.shifted Scenario.query 5 3)
     = Ok [touch 300 Scenario.e_bare; touch 300 Scenario.e_aligned].
Proof.
  assert (Hown : own_score [1; 0] Scenario.e_aligned = 1 + ln (1 + 5)).
  { unfold own_score. cbn [embedding_of embedding importance Scenario.e_aligned Scenario.entry].
    rewrite cosine_axis_same. lra. }
  assert (Hsc : scored_memories [1; 0] 3 (memories Scenario.shifted)
     = Ok [(1 + ln (1 + 5), (0%nat, Scenario.e_bare));
           (0, (1%nat, Scenario.e_aligned))]).
  { unfold scored_memories.
    cbn [memories Scenario.shifted with_memories present_embeddings embedding
         Scenario.e_bare Scenario.e_aligned Scenario.e_orthogonal Scenario.entry].
    rewrite cosine_similarity_rows by (repeat (constructor; try reflexivity)).
    cbn [bind map enumerate enumerate_from score_loop importance nth_error].
    rewrite cosine_axis_same, cosine_axis_orthogonal.
    change (importance Scenario.e_bare) with 5.
    change (importance Scenario.e_aligned) with 5.
    change (importance Scenario.e_orthogonal) with 1.
    destruct (Rle_dec 3 5); [|lra]. destruct (Rle_dec 3 1); [lra|].
    cbn [bind]. rewrite Rmult_1_l, Rmult_0_l. reflexivity. }
  split; [exact Hown|]. split; [exact Hsc|].
  assert (Hgen : _generate_embedding (embedding_model Scenario.shifted) Scenario.query
                 = ([], Ok [1; 0])) by reflexivity.
  assert (Hne : memories Scenario.shifted <> []) by discriminate.
  assert (Hpe : present_embeddings (memories Scenario.shifted) <> []) by discriminate.
  destruct (retrieve_scored 300 _ _ 5 3 _ _ _ Hne Hpe Hgen Hsc) as [Hres _].
  rewrite Hres.
  cbn [sort_desc fold_right insert_desc fst].
  pose proof ln_6_pos.
  destruct (Rle_dec 0 (1 + ln (1 + 5))); [|lra].
  reflexivity.
Qed.

(** Likewise in [Scenario.bare_then_added], where an entry whose
    embedding is [None] (importance 5) was put into the index by hand
    before an entry appended through [add_memory] (importance 1):
    [retrieve_memories(query, top_k=5, min_importance=3)] gives the entry
    without an embedding the similarity of the other entry's embedding
    and returns it. *)
Lemma assembled_index_returns_entry_without_embedding :
  embedding (Scenario.entry Scenario.draft 5 None) = None
  /\ In (Scenario.entry Scenario.draft 5 None) (memories Scenario.bare_then_added)
  /\ snd (retrieve_memories 300 Scenario.bare_then_added Scenario.query 5 3)
     = Ok [touch 300 (Scenario.entry Scenario.draft 5 None)].
Proof.
  destruct hash_embedding_note as (v & Hv & Lv).
  destruct hash_embedding_query as (q & Hq & Lq).
  destruct (bare_then_added_state v Hv) as [Hm Hmodel].
  split; [reflexivity|]. split; [rewrite Hm; now left|].
  set (e0 := Scenario.entry Scenario.draft 5 None) in *.
  set (e1 := new_entry 100 _ _ _ _ _) in *.
  assert (Hgen : _generate_embedding (embedding_model Scenario.bare_then_added)
                   Scenario.query = ([], Ok q)).
  { rewrite Hmodel. cbn [_generate_embedding]. now rewrite Hq. }
  assert (Hp : present_embeddings [e0; e1] = [v]).
  { cbn [present_embeddings embedding e0 e1 Scenario.entry new_entry].
    destruct v; [discriminate Lv|reflexivity]. }
  assert (Hsc : scored_memories q 3 (memories Scenario.bare_then_added)
                = Ok [(Np.cosine q v * (1 + ln (1 + 5)), (0%nat, e0))]).
  { rewrite Hm. unfold scored_memories. rewrite Hp.
    rewrite cosine_similarity_rows by (constructor; [lia|constructor]).
    cbn [bind map enumerate enumerate_from score_loop].
    cbn [importance e0 e1 Scenario.entry new_entry]. rewrite clamp_one.
    destruct (Rle_dec 3 5); [|lra]. destruct (Rle_dec 3 1); [lra|].
    reflexivity. }
  assert (Hne : memories Scenario.bare_then_added <> []) by (rewrite Hm; discriminate).
  assert (Hpe : present_embeddings (memories Scenario.bare_then_added) <> []).
  { rewrite Hm, Hp. discriminate. }
  destruct (retrieve_scored 300 _ _ 5 3 _ _ _ Hne Hpe Hgen Hsc) as [Hres _].
  rewrite Hres. reflexivity.
Qed.

Lemma bare_then_added_raises_at_zero :
  snd (retrieve_memories 300 Scenario.bare_then_added Scenario.query 0 0)
  = Raise IndexError.
Proof.
  destruct hash_embedding_note as (v & Hv & Lv).
  destruct hash_embedding_query as (q & Hq & Lq).
  destruct (bare_then_added_state v Hv) as [Hm Hmodel].
  set (e0 := Scenario.entry Scenario.draft 5 None) in *.
  set (e1 := new_entry 100 _ _ _ _ _) in *.
  assert (Hgen : _generate_embedding (embedding_model Scenario.bare_then_added)
                   Scenario.query = ([], Ok q)).
  { rewrite Hmodel. cbn [_generate_embedding]. now rewrite Hq. }
  assert (Hp : present_embeddings [e0; e1] = [v]).
  { cbn [present_embeddings embedding e0 e1 Scenario.entry new_entry].
    destruct v; [discriminate Lv|reflexivity]. }
  assert (Hsc : scored_memories q 0 (memories Scenario.bare_then_added)
                = Raise IndexError).
  { rewrite Hm. unfold scored_memories. rewrite Hp.
    rewrite cosine_similarity_rows by (constructor; [lia|constructor]).
    cbn [bind map enumerate enumerate_from score_loop].
    cbn [importance e0 e1 Scenario.entry new_entry]. rewrite clamp_one.
    destruct (Rle_dec 0 5); [|lra]. destruct (Rle_dec 0 1); [|lra].
    reflexivity. }
  assert (Hne : memories Scenario.bare_then_added <> []) by (rewrite Hm; discriminate).
  assert (Hpe : present_embeddings (memories Scenario.bare_then_added) <> []).
  { rewrite Hm, Hp. discriminate. }
  exact (proj1 (retrieve_raises 300 _ _ 0 0 _ _ _ Hne Hpe Hgen Hsc)).
Qed.

(** C3 as stated fails at a negative [top_k].  The claim gives every
    [top_k <= 0] an empty result.  On the store [Scenario.two_notes] (two
    entries appended through [add_memory], no model installed),
    [retrieve_memories(query, top_k=-1, min_importance=0)] scores both
    entries and the slice [scored_memories[:-1]] drops only the last of
    them: the call returns the first entry, not the empty sequence.  Nor
    is [top_k <= 0] free of errors: on [Scenario.bare_then_added] the
    call with [top_k = 0] raises [IndexError] before it reaches the
    slice. *)
Lemma C3_negative_top_k_returns_an_entry :
  length (memories Scenario.two_notes) = 2%nat
  /\ snd (retrieve_memories 300 Scenario.two_notes Scenario.query (-1) 0)
     = Ok (map (touch 300) (firstn 1 (memories Scenario.two_notes)))
  /\ length (map (touch 300) (firstn 1 (memories Scenario.two_notes))) = 1%nat
  /\ snd (retrieve_memories 300 Scenario.bare_then_added Scenario.query 0 0)
     = Raise IndexError.
Proof.
  pose proof bare_then_added_raises_at_zero as Hzero.
  destruct hash_embedding_note as (v & Hv & Lv).
  destruct hash_embedding_query as (q & Hq & Lq).
  destruct (two_notes_state v Hv) as [Hm Hmodel].
  rewrite Hm. split; [reflexivity|]. split; [|split; [reflexivity|exact Hzero]].
  clear Hzero.
  set (e1 := new_entry 100 _ _ _ _ _) in *.
  set (e2 := new_entry 200 _ _ _ _ _) in *.
  assert (Hemb : Forall (embedded (length q)) [e1; e2]).
  { constructor; [|constructor; [|constructor]]; apply embedded_new_entry; lia. }
  pose proof (scored_memories_aligned q 0 _ Hemb) as Hsc.
  assert (Hgen : _generate_embedding (embedding_model Scenario.two_notes) Scenario.query
                 = ([], Ok q)).
  { rewrite Hmodel. cbn [_generate_embedding]. now rewrite Hq. }
  rewrite <- Hm in Hsc.
  assert (Hne : memories Scenario.two_notes <> []) by (rewrite Hm; discriminate).
  assert (Hpe : present_embeddings (memories Scenario.two_notes) <> []).
  { rewrite Hm, (present_embeddings_all _ _ Hemb). discriminate. }
  destruct (retrieve_scored 300 _ _ (-1) 0 _ _ _ Hne Hpe Hgen Hsc) as [Hres _].
  rewrite Hres, Hm. clear Hres Hsc Hgen.
  cbn [enumerate enumerate_from filter snd].
  assert (P1 : passes 0 e1 = true).
  { unfold passes. cbn [importance e1 new_entry]. rewrite clamp_one.
    destruct (Rle_dec 0 1); [reflexivity|lra]. }
  change (passes 0 e2) with (passes 0 e1). rewrite P1.
  cbn [map snd]. change (own_score q e2) with (own_score q e1).
  set (s := own_score q e1).
  cbn [sort_desc fold_right insert_desc fst].
  destruct (Rle_dec s s); [|lra].
  reflexivity.
Qed.

(** C7, when the model-backed path raises at retrieval time.  One entry
    is appended while the model works, so it carries the model's
    384-dimensional embedding.  On the query the model raises; the
    failure is logged and the hash fallback answers with a
    32-dimensional vector, and [cosine_similarity] raises [ValueError]
    on the two dimensions: [retrieve_memories] raises to its caller
    because of the backend failure. *)
Theorem C7_retrieve_raises_after_backend_failure :
  snd (add_memory Scenario.stored_compress 100 IoOk
         (__init__ true empty_repo (Some Scenario.flaky_model))
         Scenario.note 1 None Scenario.tester)
  = Ok (new_entry 100 Scenario.note 1 None Scenario.tester (repeat 1 384))
  /\ Scenario.flaky_model Scenario.query = Raise RuntimeError
  /\ snd (retrieve_memories 300 Scenario.model_store Scenario.query 5 0)
     = Raise ValueError
  /\ log (fst (retrieve_memories 300 Scenario.model_store Scenario.query 5 0))
     = [LogError "Failed to generate embedding" RuntimeError].
Proof.
  destruct model_store_state as (Hm & Hmodel & Hadd).
  destruct hash_embedding_query as (q & Hq & Lq).
  split; [exact Hadd|]. split; [exact flaky_model_query|].
  set (e := new_entry 100 _ _ _ _ _) in *.
  assert (Hgen : _generate_embedding (embedding_model Scenario.model_store) Scenario.query
                 = ([LogError "Failed to generate embedding" RuntimeError], Ok q)).
  { rewrite Hmodel. cbn [_generate_embedding]. now rewrite flaky_model_query, Hq. }
  assert (Hp : present_embeddings (memories Scenario.model_store) = [repeat 1 384]).
  { rewrite Hm. reflexivity. }
  assert (Hsc : scored_memories q 0 (memories Scenario.model_store) = Raise ValueError).
  { unfold scored_memories. rewrite Hp.
    rewrite (cosine_similarity_mismatch q _ (repeat 1 384)); [reflexivity|now left|].
    rewrite repeat_length, Lq. lia. }
  assert (Hne : memories Scenario.model_store <> []) by (rewrite Hm; discriminate).
  assert (Hpe : present_embeddings (memories Scenario.model_store) <> []).
  { rewrite Hp. discriminate. }
  destruct (retrieve_raises 300 _ _ 5 0 _ _ _ Hne Hpe Hgen Hsc) as (Hres & _ & Hlog).
  split; [exact Hres|]. rewrite Hlog.
  assert (Hl : log Scenario.model_store = []); [|now rewrite Hl].
  unfold Scenario.model_store, add_memory.
  change (embedding_model (__init__ true empty_repo (Some Scenario.flaky_model)))
    with (Some Scenario.flaky_model).
  cbn [_generate_embedding]. rewrite flaky_model_note. cbn [fst].
  erewrite save_log_committed; [reflexivity|].
  apply document_short. vm_compute. discriminate.
Qed.

(** ** Clustering *)

Lemma cluster_memories_few fit_predict mgr eps min_samples :
  (len (memories mgr) < min_samples)%Z ->
  cluster_memories fit_predict mgr eps min_samples = Ok [memories mgr].
Proof.
  intros H. unfold cluster_memories.
  destruct (Z.ltb_spec (len (memories mgr)) min_samples); [reflexivity|lia].
Qed.

Lemma cluster_memories_no_candidates fit_predict mgr eps min_samples :
  present_embeddings (memories mgr) = [] ->
  cluster_memories fit_predict mgr eps min_samples = Ok [memories mgr].
Proof.
  intros H. unfold cluster_memories. rewrite H.
  destruct (len (memories mgr) <? min_samples)%Z; reflexivity.
Qed.

(** The guard counts live entries, not entries with an embedding.  On
    the index [Scenario.sparse], assembled by hand with one embedded
    entry among three, [min_samples = 2] does not stop the call and the
    clusterer is run on the one embedding: the hypothesis that a store is
    built through the operations cannot be dropped from the statement
    about the guard. *)
Lemma assembled_index_one_candidate_is_clustered :
  length (present_embeddings (memories Scenario.sparse)) = 1%nat
  /\ (Z.of_nat 1 < 2)%Z
  /\ cluster_memories Scenario.all_noise Scenario.sparse (3 / 10) 2
     = Ok [[Scenario.entry Scenario.note 1 (Some [1; 0])]]
  /\ cluster_memories (fun _ _ _ => Raise ValueError) Scenario.sparse (3 / 10) 2
     = Raise ValueError
  /\ (forall fit_predict,
        (forall eps k X labels, fit_predict eps k X = Ok labels ->
                                length labels = length X) ->
        cluster_memories fit_predict Scenario.sparse (3 / 10) 2
        <> Ok [memories Scenario.sparse]).
Proof.
  split; [reflexivity|]. split; [lia|]. split; [reflexivity|]. split; [reflexivity|].
  intros fit_predict Hlabels. unfold cluster_memories.
  change (len (memories Scenario.sparse) <? 2)%Z with false.
  change (present_embeddings (memories Scenario.sparse)) with [[1; 0]].
  cbv iota.
  destruct (fit_predict (3 / 10) 2%Z [[1; 0]]) as [labels|] eqn:E; [|discriminate].
  apply Hlabels in E. destruct labels as [|l [|]]; try discriminate E.
  cbn. discriminate.
Qed.

(** ** Consolidation: decay and pruning *)

Lemma retained_above_threshold m :
  retained m = true -> MEMORY_IMPORTANCE_THRESHOLD < importance m.
Proof.
  unfold retained. destruct (Rlt_dec MEMORY_IMPORTANCE_THRESHOLD (importance m));
    [trivial|discriminate].
Qed.

Lemma consolidate_memories_index fit_predict now mgr :
  memories (fst (consolidate_memories fit_predict now mgr))
  = filter retained (map (decay now) (memories mgr)).
Proof.
  unfold consolidate_memories. destruct (memories mgr) eqn:E; [|reflexivity].
  cbn [fst]. now rewrite E.
Qed.

Lemma consolidate_memories_repo fit_predict now mgr :
  repo (fst (consolidate_memories fit_predict now mgr)) = repo mgr.
Proof.
  unfold consolidate_memories. destruct (memories mgr); reflexivity.
Qed.

Lemma present_embeddings_length ms :
  (length (present_embeddings ms) <= length ms)%nat.
Proof.
  induction ms as [|m ms IH]; cbn [present_embeddings length]; [lia|].
  destruct (embedding m) as [[|x v]|]; cbn [length]; lia.
Qed.

Lemma group_by_label_returns ms labels :
  forall start clusters,
    (start + length labels <= length ms)%nat ->
    exists grouped, group_by_label ms (enumerate_from start labels) clusters = Ok grouped.
Proof.
  induction labels as [|l labels IH]; intros start clusters Hlen;
    cbn [enumerate_from group_by_label].
  - now eexists.
  - cbn [length] in Hlen.
    destruct (nth_error ms start) as [m|] eqn:Hn.
    + apply IH. lia.
    + apply nth_error_None in Hn. lia.
Qed.

Lemma cluster_memories_returns fit_predict mgr eps min_samples :
  (forall e k X, exists labels,
      fit_predict e k X = Ok labels /\ length labels = length X) ->
  exists clusters, cluster_memories fit_predict mgr eps min_samples = Ok clusters.
Proof.
  intros Hfit. unfold cluster_memories.
  destruct (len (memories mgr) <? min_samples)%Z; [now eexists|].
  destruct (present_embeddings (memories mgr)) as [|v vs] eqn:Hp; [now eexists|].
  destruct (Hfit eps min_samples (v :: vs)) as (labels & -> & Hlen).
  cbn [bind].
  destruct (group_by_label_returns (memories mgr) labels 0 []) as [grouped Hg].
  { rewrite Hlen, <- Hp. apply present_embeddings_length. }
  unfold enumerate. rewrite Hg. cbn [bind]. now eexists.
Qed.

Lemma consolidate_memories_completes fit_predict now mgr :
  (forall e k X, exists labels,
      fit_predict e k X = Ok labels /\ length labels = length X) ->
  snd (consolidate_memories fit_predict now mgr) = Ok tt.
Proof.
  intros Hfit. unfold consolidate_memories.
  destruct (memories mgr); [reflexivity|]. cbn [snd].
  match goal with
  | |- context [cluster_memories fit_predict ?m ?e ?k] =>
      destruct (cluster_memories_returns fit_predict m e k Hfit) as [clusters ->]
  end.
  reflexivity.
Qed.

(** C5.  After [consolidate_memories] (whether or not the clustering at
    its end raises) no entry of the live index has importance [<= 0.1],
    and the ledger is the one it was: the repository, and so the number
    of records in its history, is unchanged.  The call completes
    whenever the clusterer answers with one label per sample. *)
Theorem C5_consolidation_prunes_index_only :
  forall fit_predict now mgr,
    Forall (fun m => ~ importance m <= 1 / 10)
           (memories (fst (consolidate_memories fit_predict now mgr)))
    /\ repo (fst (consolidate_memories fit_predict now mgr)) = repo mgr
    /\ length (history (repo (fst (consolidate_memories fit_predict now mgr))))
       = length (history (repo mgr))
    /\ ((forall e k X, exists labels,
            fit_predict e k X = Ok labels /\ length labels = length X) ->
        snd (consolidate_memories fit_predict now mgr) = Ok tt).
Proof.
  intros fit_predict now mgr.
  rewrite consolidate_memories_index, consolidate_memories_repo.
  split; [|split; [reflexivity|split; [reflexivity|]]].
  - apply Forall_forall. intros m Hm. apply filter_In in Hm as [_ Hm].
    apply retained_above_threshold in Hm. unfold MEMORY_IMPORTANCE_THRESHOLD in Hm. lra.
  - apply consolidate_memories_completes.
Qed.

(** C5 on a concrete run: the store of [Scenario.consolidated], under a
    clusterer that marks every sample as noise, completes and keeps no
    entry of importance [<= 0.1], and the ledger keeps its one record. *)
Lemma C5_consolidation_witness :
  snd (consolidate_memories Scenario.all_noise 200 (fst Scenario.over_important)) = Ok tt
  /\ Forall (fun m => ~ importance m <= 1 / 10) (memories Scenario.consolidated)
  /\ length (history (repo Scenario.consolidated))
     = length (history (repo (fst Scenario.over_important))).
Proof.
  destruct (C5_consolidation_prunes_index_only Scenario.all_noise 200
              (fst Scenario.over_important)) as (Hprune & _ & Hledger & Hdone).
  split; [|split; [exact Hprune|exact Hledger]].
  apply Hdone. intros e k X. exists (map (fun _ => (-1)%Z) X).
  split; [reflexivity|apply length_map].
Defined.

(** ** The importance range is an invariant of the store *)

Lemma decay_in_range now m :
  timestamp m <= now -> importance_in_range m -> importance_in_range (decay now m).
Proof.
  unfold importance_in_range, decay, MEMORY_DECAY_HALF_LIFE_DAYS. cbn [importance].
  intros Hage [Hlo Hhi].
  set (a := - ((now - timestamp m) / 86400) / 30).
  assert (Ha : a <= 0) by (unfold a; lra).
  pose proof (exp_pos a) as Hpos.
  assert (Hle : exp a <= 1).
  { destruct Ha as [Ha| ->]; [|rewrite exp_0; lra].
    left. rewrite <- exp_0. now apply exp_increasing. }
  split; nra.
Qed.

Lemma touch_positions_in_range now positions ms :
  Forall importance_in_range ms ->
  Forall importance_in_range (touch_positions now positions ms).
Proof.
  intros H. unfold touch_positions, enumerate. generalize 0%nat.
  induction H as [|m ms Hm _ IH]; intros i; cbn [enumerate_from map]; constructor.
  - cbn [fst snd]. destruct (existsb _ positions); assumption.
  - apply IH.
Qed.

Lemma step_in_range zc fit_predict mgr mgr' :
  step zc fit_predict mgr mgr' -> store_in_range mgr -> store_in_range mgr'.
Proof.
  unfold store_in_range.
  intros [now io s content x tags source|now s query top_k min_importance|now s Hage] H.
  - destruct (add_memory_index zc now io s content x tags source) as [->|[v ->]];
      [assumption|].
    apply Forall_app. split; [assumption|].
    constructor; [|constructor]. apply clamp_in_range.
  - destruct (retrieve_memories_index now s query top_k min_importance) as [->|[p ->]];
      [assumption|].
    now apply touch_positions_in_range.
  - rewrite consolidate_memories_index.
    apply Forall_forall. intros m Hm. apply filter_In in Hm as [Hm _].
    apply in_map_iff in Hm as (m0 & <- & Hm0).
    rewrite Forall_forall in H, Hage. apply decay_in_range; auto.
Qed.

(** C4.  [add_memory] constructs its entry with importance
    [min(max(x, 0), 10)], which lies in [[0, 10]], for every real [x]
    (and it does return an entry for every content that UTF-8 can
    encode); and in every store reached from a newly constructed one by
    [add_memory], [retrieve_memories] and [consolidate_memories] (run at
    a current time not before any live entry's timestamp), every live
    entry has its importance in [[0, 10]]. *)
Theorem C4_importance_stays_in_range :
  forall zlib_compress fit_predict,
    (forall now io mgr content x tags source e,
        snd (add_memory zlib_compress now io mgr content x tags source) = Ok e ->
        importance e = Rmin (Rmax x 0) 10 /\ 0 <= importance e <= 10)
    /\ (forall now io mgr content x tags source,
          Forall Utf8.scalar content ->
          exists e, snd (add_memory zlib_compress now io mgr content x tags source) = Ok e)
    /\ (forall mgr,
          reachable zlib_compress fit_predict mgr ->
          forall m, In m (memories mgr) -> 0 <= importance m <= 10).
Proof.
  intros zc fit_predict. split; [|split].
  - intros now io mgr content x tags source e He.
    apply add_memory_returns in He as [He _]. rewrite He.
    split; [reflexivity|apply clamp_in_range].
  - intros now io mgr content x tags source Hc.
    destruct (generate_embedding_total (embedding_model mgr) content Hc)
      as (records & v & G).
    eexists. eapply add_memory_generated. exact G.
  - intros mgr Hreach.
    assert (Hrange : store_in_range mgr).
    { induction Hreach as [c r model|a b _ IH Hstep].
      - constructor.
      - eapply step_in_range; eassumption. }
    intros m Hm. unfold store_in_range in Hrange. rewrite Forall_forall in Hrange.
    now apply Hrange.
Qed.

(** C4 on a concrete run: an append with importance 25 is clamped to 10,
    and the store consolidated a hundred seconds later is in range. *)
Lemma C4_importance_witness :
  (exists e, snd Scenario.over_important = Ok e
             /\ importance e = Rmin (Rmax 25 0) 10 /\ 0 <= importance e <= 10)
  /\ Forall importance_in_range (memories Scenario.consolidated).
Proof.
  pose proof (C4_importance_stays_in_range Scenario.stored_compress Scenario.all_noise)
    as (Hclamp & _ & Hinv).
  destruct hash_embedding_note as (v & Hv & _).
  assert (G : _generate_embedding (embedding_model Scenario.fresh) Scenario.note
              = ([], Ok v)).
  { change (embedding_model Scenario.fresh) with (@None Encoder).
    cbn [_generate_embedding]. now rewrite Hv. }
  destruct (add_memory_generated Scenario.stored_compress 100 IoOk Scenario.fresh
              Scenario.note 25 None Scenario.tester [] v G) as (Hr & Hm & _).
  fold Scenario.over_important in Hr, Hm.
  split.
  - eexists. split; [exact Hr|]. exact (Hclamp _ _ _ _ _ _ _ _ Hr).
  - apply Forall_forall. intros m. apply Hinv.
    unfold Scenario.consolidated.
    eapply reach_step; [eapply reach_step; [apply reach_init|]|].
    + unfold Scenario.over_important. apply step_add.
    + apply step_consolidate. fold Scenario.over_important. rewrite Hm.
      constructor; [|constructor]. cbn [timestamp new_entry]. lra.
Defined.

(** ** Statistics *)

Lemma get_stats_nonempty available mgr :
  memories mgr <> [] ->
  lookup "total_memories" (get_stats available mgr) = Some (VInt (len (memories mgr)))
  /\ lookup "total_size_bytes" (get_stats available mgr)
     = Some (VInt (total_size (memories mgr)))
  /\ lookup "average_importance" (get_stats available mgr)
     = Some (VFloat (Np.mean (map importance (memories mgr))))
  /\ lookup "compression_enabled" (get_stats available mgr)
     = Some (VBool (compression_enabled mgr)).
Proof.
  intros Hne. unfold get_stats. destruct (memories mgr); [contradiction|].
  repeat split.
Qed.

(** C9, on the freshly constructed store.  The claim lists four fields
    for every store state; [get_stats] of an empty index returns the
    three-key dictionary of its early return, without
    [compression_enabled] (which [test_memory_stats] asserts on a fresh
    manager). *)
Theorem C9_stats_of_empty_store_lack_compression_flag :
  forall available compression existing model,
    get_stats available (__init__ compression existing model)
    = [("total_memories"%string, VInt 0);
       ("total_size_bytes"%string, VInt 0);
       ("average_importance"%string, VInt 0)]
    /\ contains "compression_enabled" (get_stats available (__init__ compression existing model))
       = false.
Proof. intros. split; reflexivity. Qed.

(** The non-empty branch of [get_stats], for every store: the entry
    count, the total content length, the mean importance and the
    compression flag. *)
Lemma stats_of_non_empty_store :
  forall available mgr,
    memories mgr <> [] ->
    lookup "total_memories" (get_stats available mgr) = Some (VInt (len (memories mgr)))
    /\ lookup "total_size_bytes" (get_stats available mgr)
       = Some (VInt (total_size (memories mgr)))
    /\ lookup "average_importance" (get_stats available mgr)
       = Some (VFloat (Np.mean (map importance (memories mgr))))
    /\ lookup "compression_enabled" (get_stats available mgr)
       = Some (VBool (compression_enabled mgr)).
Proof. intros available mgr. apply get_stats_nonempty. Qed.
(** ** Retrieval: what a call leaves behind *)

Lemma nth_error_enumerate_from A (l : list A) : forall start i,
  nth_error (enumerate_from start l) i
  = option_map (fun a => ((start + i)%nat, a)) (nth_error l i).
Proof.
  induction l as [|x l IH]; intros start [|i]; cbn [enumerate_from nth_error option_map];
    try reflexivity.
  - now rewrite Nat.add_0_r.
  - rewrite IH. now replace (S start + i)%nat with (start + S i)%nat by lia.
Qed.

Lemma enumerate_nth_error A (l : list A) i a :
  In (i, a) (enumerate l) -> nth_error l i = Some a.
Proof.
  intros H. apply In_nth_error in H as [n Hn].
  unfold enumerate in Hn. rewrite nth_error_enumerate_from in Hn.
  destruct (nth_error l n) as [b|] eqn:E; [|discriminate].
  cbn [option_map] in Hn. injection Hn as <- <-. exact E.
Qed.

Lemma enumerate_from_length A (l : list A) : forall start,
  length (enumerate_from start l) = length l.
Proof. induction l; intros start; cbn [enumerate_from length]; auto. Qed.

Lemma touch_positions_length now positions ms :
  length (touch_positions now positions ms) = length ms.
Proof.
  unfold touch_positions, enumerate. now rewrite length_map, enumerate_from_length.
Qed.

Lemma touch_positions_nth now positions ms i m :
  nth_error ms i = Some m ->
  nth_error (touch_positions now positions ms) i
  = Some (if existsb (Nat.eqb i) positions then touch now m else m).
Proof.
  intros H. unfold touch_positions, enumerate.
  rewrite nth_error_map, nth_error_enumerate_from, H. reflexivity.
Qed.

Lemma score_loop_filter similarities min_importance ims :
  forall scored,
    score_loop similarities min_importance ims = Ok scored ->
    map snd scored = filter (fun im => passes min_importance (snd im)) ims.
Proof.
  induction ims as [|[i m] ims IH]; intros scored; cbn [score_loop filter snd].
  - intros H. apply Ok_inj in H. now subst scored.
  - unfold passes. destruct (Rle_dec min_importance (importance m)); [|apply IH].
    destruct (nth_error similarities i); [|discriminate].
    destruct (score_loop similarities min_importance ims) as [rest|]; [|discriminate].
    cbn [bind]. intros H. apply Ok_inj in H. subst scored.
    cbn [map snd]. now rewrite (IH rest).
Qed.

Lemma NoDup_map_filter A B (f : A -> B) (p : A -> bool) l :
  NoDup (map f l) -> NoDup (map f (filter p l)).
Proof.
  induction l as [|x l IH]; cbn [map filter]; [auto|].
  intros H. inversion H as [|? ? Hx Hl]; subst.
  destruct (p x); [|auto]. cbn [map]. constructor; [|auto].
  intros Hin. apply Hx. apply in_map_iff in Hin as (y & <- & Hy).
  apply in_map. apply filter_In in Hy. tauto.
Qed.

Lemma NoDup_firstn A n (l : list A) : NoDup l -> NoDup (firstn n l).
Proof.
  intros H. rewrite <- (firstn_skipn n l) in H. now apply NoDup_app_remove_r in H.
Qed.

Lemma NoDup_slice_to A (k : Z) (l : list A) : NoDup l -> NoDup (slice_to k l).
Proof. unfold slice_to. destruct (0 <=? k)%Z; apply NoDup_firstn. Qed.

Lemma slice_to_map A B (f : A -> B) (k : Z) l :
  slice_to k (map f l) = map f (slice_to k l).
Proof.
  unfold slice_to. rewrite length_map. destruct (0 <=? k)%Z; apply firstn_map.
Qed.

(** The positions of the scored entries are distinct, and each is the
    position of its entry in the index. *)
Lemma scored_positions q min_importance ms scored :
  scored_memories q min_importance ms = Ok scored ->
  NoDup (map (fun x => fst (snd x)) scored)
  /\ Forall (fun x => nth_error ms (fst (snd x)) = Some (snd (snd x))) scored.
Proof.
  unfold scored_memories.
  destruct (Np.cosine_similarity q (present_embeddings ms)) as [sims|]; [|discriminate].
  cbn [bind]. intros H. split.
  - apply score_loop_filter in H.
    rewrite <- (map_map snd fst), H.
    apply NoDup_map_filter. unfold enumerate. rewrite enumerate_from_fst.
    apply seq_NoDup.
  - apply score_loop_members in H. eapply Forall_impl; [|exact H].
    intros [s [i m]] Hin. cbn [fst snd] in *. now apply enumerate_nth_error.
Qed.

Lemma retrieve_memories_frame now mgr query top_k min_importance :
  repo (fst (retrieve_memories now mgr query top_k min_importance)) = repo mgr
  /\ embedding_model (fst (retrieve_memories now mgr query top_k min_importance))
     = embedding_model mgr
  /\ compression_enabled (fst (retrieve_memories now mgr query top_k min_importance))
     = compression_enabled mgr.
Proof.
  unfold retrieve_memories.
  destruct (memories mgr) as [|m0 ms] eqn:Hms; [now repeat split|].
  destruct (_generate_embedding (embedding_model mgr) query) as [records [v|e]];
    [|now repeat split].
  cbn [logged memories]. rewrite Hms.
  destruct (present_embeddings (m0 :: ms)); [now repeat split|].
  destruct (scored_memories v min_importance (m0 :: ms)); now repeat split.
Qed.

(** X4.  [retrieve_memories] changes nothing but the access statistics of
    the entries it returns: the repository, the model and the length of
    the index are as before; a call that raises leaves every entry as it
    was; a call that returns has picked distinct positions of the index,
    returns the entries at these positions with [access_count + 1] and
    [last_accessed = now], and leaves exactly these updated in the index,
    every other entry untouched. *)
Theorem retrieval_touches_exactly_the_returned_entries :
  forall now mgr query top_k min_importance,
    repo (fst (retrieve_memories now mgr query top_k min_importance)) = repo mgr
    /\ embedding_model (fst (retrieve_memories now mgr query top_k min_importance))
       = embedding_model mgr
    /\ length (memories (fst (retrieve_memories now mgr query top_k min_importance)))
       = length (memories mgr)
    /\ (forall e,
          snd (retrieve_memories now mgr query top_k min_importance) = Raise e ->
          memories (fst (retrieve_memories now mgr query top_k min_importance))
          = memories mgr)
    /\ (forall r,
          snd (retrieve_memories now mgr query top_k min_importance) = Ok r ->
          exists positions,
            NoDup positions
            /\ Forall2 (fun i m' => exists m, nth_error (memories mgr) i = Some m
                                              /\ m' = touch now m) positions r
            /\ (forall i m,
                  nth_error (memories mgr) i = Some m ->
                  nth_error (memories (fst (retrieve_memories now mgr query top_k
                                              min_importance))) i
                  = Some (if existsb (Nat.eqb i) positions then touch now m else m))).
Proof.
  intros now mgr query top_k min_importance.
  destruct (retrieve_memories_frame now mgr query top_k min_importance) as (Hr & Hm & _).
  split; [exact Hr|]. split; [exact Hm|].
  assert (Hcases :
    (memories (fst (retrieve_memories now mgr query top_k min_importance)) = memories mgr
     /\ (forall r, snd (retrieve_memories now mgr query top_k min_importance) = Ok r
                   -> r = []))
    \/ exists q scored,
         scored_memories q min_importance (memories mgr) = Ok scored
         /\ snd (retrieve_memories now mgr query top_k min_importance)
            = Ok (map (fun x => touch now (snd (snd x)))
                      (slice_to top_k (sort_desc scored)))
         /\ memories (fst (retrieve_memories now mgr query top_k min_importance))
            = touch_positions now
                (map (fun x => fst (snd x)) (slice_to top_k (sort_desc scored)))
                (memories mgr)).
  { unfold retrieve_memories.
    destruct (memories mgr) as [|m0 ms] eqn:Hms.
    { left. split; [exact Hms|]. intros r H. now apply Ok_inj in H. }
    destruct (_generate_embedding (embedding_model mgr) query) as [records [q|e]].
    2:{ left. cbn [fst snd logged memories]. split; [exact Hms|discriminate]. }
    cbn [logged memories]. rewrite Hms.
    destruct (present_embeddings (m0 :: ms)).
    { left. cbn [fst snd memories]. split; [exact Hms|].
      intros r H. now apply Ok_inj in H. }
    destruct (scored_memories q min_importance (m0 :: ms)) as [scored|e] eqn:Hs.
    2:{ left. cbn [fst snd memories]. split; [exact Hms|discriminate]. }
    right. exists q, scored. cbn [fst snd with_memories memories]. auto. }
  destruct Hcases as [[Hsame Hnil]|(q & scored & Hs & Hres & Hidx)].
  - rewrite Hsame. split; [reflexivity|]. split; [reflexivity|].
    intros r H. apply Hnil in H. subst r. exists []. split; [constructor|].
    split; [constructor|]. intros i m Hi. exact Hi.
  - split; [rewrite Hidx; apply touch_positions_length|].
    split; [intros e He; rewrite Hres in He; discriminate|].
    intros r Hr'. rewrite Hres in Hr'. apply Ok_inj in Hr'. subst r.
    destruct (scored_positions q min_importance (memories mgr) scored Hs) as [Hnd Hpos].
    exists (map (fun x => fst (snd x)) (slice_to top_k (sort_desc scored))).
    split.
    { rewrite <- slice_to_map. apply NoDup_slice_to.
      eapply Permutation_NoDup; [|exact Hnd].
      apply Permutation_map, sort_desc_perm. }
    split.
    { assert (Hall : Forall (fun x => nth_error (memories mgr) (fst (snd x))
                                      = Some (snd (snd x)))
                            (slice_to top_k (sort_desc scored))).
      { apply Forall_forall. intros x Hx. apply slice_to_incl in Hx.
        rewrite Forall_forall in Hpos. apply Hpos.
        eapply Permutation_in; [|exact Hx]. apply Permutation_sym, sort_desc_perm. }
      revert Hall. generalize (slice_to top_k (sort_desc scored)).
      induction 1 as [|x top Hx _ IH]; cbn [map]; constructor; [|exact IH].
      now exists (snd (snd x)). }
    intros i m Hi. rewrite Hidx. now apply touch_positions_nth.
Qed.
(** ** The ledger: files and commits *)

Lemma read_file_written path doc wt :
  read_file path (write_file path doc wt) = Some doc.
Proof.
  unfold read_file, write_file. cbn [find fst]. now rewrite Z.eqb_refl.
Qed.

Lemma read_file_other path other doc wt :
  other <> path ->
  read_file other (write_file path doc wt) = read_file other wt.
Proof.
  intros Hne. unfold read_file, write_file. cbn [find fst].
  destruct (Z.eqb_spec path other) as [E|_]; [now subst|].
  f_equal. induction wt as [|[p d] wt IH]; cbn [filter find fst]; [reflexivity|].
  destruct (Z.eqb_spec p path) as [->|Hp]; cbn [negb find fst].
  - destruct (Z.eqb_spec path other) as [E|_]; [now subst|]. exact IH.
  - destruct (p =? other)%Z; [reflexivity|exact IH].
Qed.

Lemma write_file_once path doc wt :
  filter (fun f => Z.eqb (fst f) path) (write_file path doc wt) = [(path, doc)].
Proof.
  unfold write_file. cbn [filter fst]. rewrite Z.eqb_refl. f_equal.
  induction wt as [|[p d] wt IH]; cbn [filter fst]; [reflexivity|].
  destruct (Z.eqb_spec p path) as [->|Hp]; cbn [negb filter fst]; [exact IH|].
  destruct (Z.eqb_spec p path); [contradiction|exact IH].
Qed.

Lemma save_committed zc mgr m data :
  document zc (compression_enabled mgr) m = Ok data ->
  repo (_save_to_git_sync zc IoOk mgr m)
  = mkRepo (write_file (file_of m) data (worktree (repo mgr)))
           (mkCommit (file_of m) (source m) (timestamp m) :: history (repo mgr)).
Proof. intros H. unfold _save_to_git_sync. now rewrite H. Qed.

Lemma save_refused zc io mgr m e :
  document zc (compression_enabled mgr) m = Raise e ->
  repo (_save_to_git_sync zc io mgr m) = repo mgr.
Proof. intros H. unfold _save_to_git_sync. now rewrite H. Qed.

(** The document of an entry whose content UTF-8 can encode. *)
Lemma document_of_encodable zc compression m :
  Forall Utf8.scalar (content m) ->
  exists encoded,
    Utf8.encode (content m) = Ok encoded
    /\ document zc compression m
       = Ok (if compression && (1024 <? len (content m))%Z
             then mkMemoryEntry (Utf8.hex (zc 9%Z encoded)) (timestamp m) (importance m)
                    (access_count m) (last_accessed m) (embedding m) (tags m)
                    (source m) true
             else m).
Proof.
  intros H. destruct (encode_scalar (content m) H) as [encoded He].
  exists encoded. split; [exact He|].
  unfold document, _compress_content. rewrite He.
  now destruct (compression && (1024 <? len (content m))%Z).
Qed.

Lemma add_memory_saved zc now io mgr content x tags source records v :
  _generate_embedding (embedding_model mgr) content = (records, Ok v) ->
  fst (add_memory zc now io mgr content x tags source)
  = _save_to_git_sync zc io
      (with_memories (logged mgr records)
         (memories mgr ++ [new_entry now content x tags source v]))
      (new_entry now content x tags source v).
Proof. intros H. unfold add_memory. now rewrite H. Qed.

(** X5.  A save that goes through: for every content that UTF-8 can
    encode, [add_memory] with working file system and Git adds exactly
    one commit, for the file named [int(timestamp * 1000)], with the
    entry's source and timestamp; that file then holds the entry's
    document, which is the entry itself when compression is off or the
    content has at most 1024 code points, and otherwise the entry with
    its content replaced by the hexadecimal form of the level-9
    compression of its UTF-8 encoding and [compressed] set; every other
    file is as it was; and the entry returned and indexed keeps the plain
    content and is not marked compressed. *)
Theorem successful_save_files_one_document_under_one_commit :
  forall zlib_compress now mgr content x tags source,
    Forall Utf8.scalar content ->
    exists e encoded,
      snd (add_memory zlib_compress now IoOk mgr content x tags source) = Ok e
      /\ DiffMem.content e = content /\ compressed e = false /\ timestamp e = now
      /\ Utf8.encode content = Ok encoded
      /\ history (repo (fst (add_memory zlib_compress now IoOk mgr content x tags source)))
         = mkCommit (int_of_float (now * 1000)) source now :: history (repo mgr)
      /\ read_file (int_of_float (now * 1000))
           (worktree (repo (fst (add_memory zlib_compress now IoOk mgr content x tags
                                   source))))
         = Some (if compression_enabled mgr && (1024 <? len content)%Z
                 then mkMemoryEntry (Utf8.hex (zlib_compress 9%Z encoded)) now
                        (importance e) 0 now (embedding e) (DiffMem.tags e) source true
                 else e)
      /\ (forall other,
            other <> int_of_float (now * 1000) ->
            read_file other
              (worktree (repo (fst (add_memory zlib_compress now IoOk mgr content x tags
                                      source))))
            = read_file other (worktree (repo mgr))).
Proof.
  intros zc now mgr content x tags source Hc.
  destruct (generate_embedding_total (embedding_model mgr) content Hc) as (records & v & G).
  destruct (add_memory_generated zc now IoOk mgr content x tags source records v G)
    as (Hres & _ & _).
  set (e := new_entry now content x tags source v) in *.
  destruct (document_of_encodable zc (compression_enabled mgr) e Hc) as (encoded & He & Hd).
  exists e, encoded.
  rewrite (add_memory_saved zc now IoOk mgr content x tags source records v G).
  fold e.
  rewrite (save_committed zc (with_memories (logged mgr records) (memories mgr ++ [e]))
             e _ Hd).
  cbn [history worktree].
  repeat split; try assumption.
  - apply read_file_written.
  - intros other Hne. now apply read_file_other.
Qed.

(** X5 on a text of 1026 code points saved with compression enabled:
    the file holds the hexadecimal form of the compressed encoding. *)
Lemma successful_save_witness :
  exists e encoded,
    snd (add_memory Scenario.stored_compress 100 IoOk Scenario.fresh Scenario.long_text
           1 None Scenario.tester) = Ok e
    /\ Utf8.encode Scenario.long_text = Ok encoded
    /\ read_file (int_of_float (100 * 1000))
         (worktree (repo (fst (add_memory Scenario.stored_compress 100 IoOk Scenario.fresh
                                 Scenario.long_text 1 None Scenario.tester))))
       = Some (mkMemoryEntry (Utf8.hex (Scenario.stored_compress 9%Z encoded)) 100
                 (importance e) 0 100 (embedding e) (tags e) Scenario.tester true).
Proof.
  destruct (successful_save_files_one_document_under_one_commit Scenario.stored_compress
              100 Scenario.fresh Scenario.long_text 1 None Scenario.tester
              long_text_scalar)
    as (e & encoded & H1 & _ & _ & _ & H2 & _ & H3 & _).
  exists e, encoded. split; [exact H1|]. split; [exact H2|].
  assert (Hlong : (1024 <? len Scenario.long_text)%Z = true) by (vm_compute; reflexivity).
  change (compression_enabled Scenario.fresh) with true in H3.
  rewrite Hlong in H3. exact H3.
Defined.

Lemma keeps_ledger_refl mgr : keeps_ledger mgr mgr.
Proof.
  repeat split; try (now exists []); auto.
Qed.

Lemma keeps_ledger_trans a b c :
  keeps_ledger a b -> keeps_ledger b c -> keeps_ledger a c.
Proof.
  intros ([n1 H1] & F1 & [r1 L1] & C1 & M1) ([n2 H2] & F2 & [r2 L2] & C2 & M2).
  repeat split.
  - exists (n2 ++ n1). now rewrite H2, H1, app_assoc.
  - auto.
  - exists (r2 ++ r1). now rewrite L2, L1, app_assoc.
  - congruence.
  - congruence.
Qed.

Lemma read_file_kept path doc wt name :
  read_file name wt <> None -> read_file name (write_file path doc wt) <> None.
Proof.
  intros H. destruct (Z.eq_dec name path) as [->|Hne].
  - now rewrite read_file_written.
  - now rewrite read_file_other.
Qed.

Lemma save_keeps_ledger zc io mgr m : keeps_ledger mgr (_save_to_git_sync zc io mgr m).
Proof.
  unfold _save_to_git_sync.
  destruct (document zc (compression_enabled mgr) m) as [data|e].
  - destruct io; cbn.
    + repeat split; auto.
      * now exists [mkCommit (int_of_float (timestamp m * 1000)) (source m) (timestamp m)].
      * intros name. apply read_file_kept.
      * now exists [].
    + repeat split; auto.
      * now exists [].
      * now exists [LogError "Failed to save memory to Git" OSError].
    + repeat split; auto.
      * now exists [].
      * intros name. apply read_file_kept.
      * now exists [LogError "Failed to save memory to Git" GitCommandError].
    + repeat split; auto.
      * now exists [].
      * intros name. apply read_file_kept.
      * now exists [LogError "Failed to save memory to Git" GitCommandError].
  - repeat split; auto.
    + now exists [].
    + now exists [LogError "Failed to save memory to Git" e].
Qed.

Lemma logged_keeps_ledger mgr records ms :
  keeps_ledger mgr (with_memories (logged mgr records) ms).
Proof.
  repeat split; auto.
  - now exists [].
  - now exists records.
Qed.

Lemma step_keeps_ledger zc fit_predict mgr mgr' :
  step zc fit_predict mgr mgr' -> keeps_ledger mgr mgr'.
Proof.
  intros [now io m content x tags source|now m query top_k min_importance|now m _].
  - unfold add_memory.
    destruct (_generate_embedding (embedding_model m) content) as [records [v|e]];
      cbn [fst].
    + eapply keeps_ledger_trans; [|apply save_keeps_ledger].
      apply logged_keeps_ledger.
    + apply (logged_keeps_ledger m records (memories m)).
  - unfold retrieve_memories.
    destruct (memories m) as [|m0 ms] eqn:Hms; [apply keeps_ledger_refl|].
    destruct (_generate_embedding (embedding_model m) query) as [records [q|e]];
      cbn [logged memories]; rewrite ?Hms.
    2:{ apply (logged_keeps_ledger m records (memories m)). }
    destruct (present_embeddings (m0 :: ms)).
    { apply (logged_keeps_ledger m records (memories m)). }
    destruct (scored_memories q min_importance (m0 :: ms)); cbn [fst].
    + apply (logged_keeps_ledger m records).
    + apply (logged_keeps_ledger m records (memories m)).
  - unfold consolidate_memories.
    destruct (memories m); [apply keeps_ledger_refl|].
    apply (logged_keeps_ledger m []).
Qed.

Lemma evolves_keeps_ledger zc fit_predict mgr mgr' :
  evolves zc fit_predict mgr mgr' -> keeps_ledger mgr mgr'.
Proof.
  induction 1 as [mgr|mgr mgr' mgr'' _ IH Hstep]; [apply keeps_ledger_refl|].
  eapply keeps_ledger_trans; [exact IH|].
  eapply step_keeps_ledger; exact Hstep.
Qed.

(** X6.  No sequence of [add_memory], [retrieve_memories] and
    [consolidate_memories] calls undoes anything in the ledger: the commit
    history and the error log only grow at their newest end, a file once
    written is never removed, and the compression setting and the
    embedding model stay as they were. *)
Theorem ledger_and_log_only_grow :
  forall zlib_compress fit_predict mgr mgr',
    evolves zlib_compress fit_predict mgr mgr' ->
    (exists newer, history (repo mgr') = newer ++ history (repo mgr))
    /\ (forall name, read_file name (worktree (repo mgr)) <> None ->
                     read_file name (worktree (repo mgr')) <> None)
    /\ (exists records, log mgr' = records ++ log mgr)
    /\ compression_enabled mgr' = compression_enabled mgr
    /\ embedding_model mgr' = embedding_model mgr.
Proof.
  intros zc fit_predict mgr mgr' H.
  exact (evolves_keeps_ledger zc fit_predict mgr mgr' H).
Qed.

Lemma two_notes_evolved :
  evolves Scenario.stored_compress Scenario.all_noise Scenario.fresh Scenario.two_notes.
Proof.
  unfold Scenario.two_notes. cbv zeta.
  eapply evolves_step; [eapply evolves_step; [apply evolves_refl|]|]; apply step_add.
Qed.

(** X6 on two appends to a new store: both commits are new. *)
Lemma ledger_growth_witness :
  (exists newer,
      history (repo Scenario.two_notes) = newer ++ history (repo Scenario.fresh))
  /\ embedding_model Scenario.two_notes = embedding_model Scenario.fresh.
Proof.
  destruct (ledger_and_log_only_grow Scenario.stored_compress Scenario.all_noise
              Scenario.fresh Scenario.two_notes two_notes_evolved)
    as (Hh & _ & _ & _ & Hm).
  split; [exact Hh|exact Hm].
Defined.

Lemma two_notes_model : embedding_model Scenario.two_notes = None.
Proof.
  exact (proj2 (proj2 (proj2 (proj2
           (evolves_keeps_ledger _ _ _ _ two_notes_evolved))))).
Qed.

(** X7.  Two appends within one millisecond share a file: when
    [int(timestamp * 1000)] is the same for both, the index holds both
    entries and the history both commits, but the worktree holds one file
    of that name, and it holds the document of the second entry. *)
Theorem same_millisecond_appends_share_one_file :
  forall zlib_compress now1 now2 mgr content1 content2 x1 x2 tags1 tags2 source1 source2,
    Forall Utf8.scalar content1 -> Forall Utf8.scalar content2 ->
    int_of_float (now1 * 1000) = int_of_float (now2 * 1000) ->
    exists e1 e2 d2 mgr1 mgr2,
      add_memory zlib_compress now1 IoOk mgr content1 x1 tags1 source1 = (mgr1, Ok e1)
      /\ add_memory zlib_compress now2 IoOk mgr1 content2 x2 tags2 source2 = (mgr2, Ok e2)
      /\ memories mgr2 = memories mgr ++ [e1; e2]
      /\ history (repo mgr2)
         = mkCommit (file_of e2) source2 now2
           :: mkCommit (file_of e1) source1 now1 :: history (repo mgr)
      /\ file_of e1 = file_of e2
      /\ document zlib_compress (compression_enabled mgr) e2 = Ok d2
      /\ filter (fun f => Z.eqb (fst f) (file_of e1)) (worktree (repo mgr2))
         = [(file_of e1, d2)].
Proof.
  intros zc now1 now2 mgr c1 c2 x1 x2 tags1 tags2 s1 s2 H1 H2 Hms.
  destruct (generate_embedding_total (embedding_model mgr) c1 H1) as (r1 & v1 & G1).
  destruct (add_memory_generated zc now1 IoOk mgr c1 x1 tags1 s1 r1 v1 G1)
    as (Hres1 & Hidx1 & Hmod1).
  pose proof (add_memory_saved zc now1 IoOk mgr c1 x1 tags1 s1 r1 v1 G1) as Hfst1.
  set (e1 := new_entry now1 c1 x1 tags1 s1 v1) in *.
  set (mgr1 := fst (add_memory zc now1 IoOk mgr c1 x1 tags1 s1)) in *.
  destruct (generate_embedding_total (embedding_model mgr1) c2 H2) as (r2 & v2 & G2).
  destruct (add_memory_generated zc now2 IoOk mgr1 c2 x2 tags2 s2 r2 v2 G2)
    as (Hres2 & Hidx2 & _).
  pose proof (add_memory_saved zc now2 IoOk mgr1 c2 x2 tags2 s2 r2 v2 G2) as Hfst2.
  set (e2 := new_entry now2 c2 x2 tags2 s2 v2) in *.
  set (mgr2 := fst (add_memory zc now2 IoOk mgr1 c2 x2 tags2 s2)) in *.
  destruct (document_of_encodable zc (compression_enabled mgr) e1 H1) as (b1 & _ & Hd1).
  destruct (document_of_encodable zc (compression_enabled mgr) e2 H2) as (b2 & _ & Hd2).
  match type of Hd1 with _ = Ok ?d => set (d1 := d) in Hd1 end.
  match type of Hd2 with _ = Ok ?d => set (d2 := d) in Hd2 end.
  assert (Hc1 : compression_enabled mgr1 = compression_enabled mgr).
  { rewrite Hfst1. now rewrite save_compression_enabled. }
  assert (Hrepo1 : repo mgr1 = mkRepo (write_file (file_of e1) d1 (worktree (repo mgr)))
                                 (mkCommit (file_of e1) s1 now1 :: history (repo mgr))).
  { rewrite Hfst1.
    exact (save_committed zc (with_memories (logged mgr r1) (memories mgr ++ [e1])) e1 _ Hd1). }
  assert (Hrepo2 : repo mgr2 = mkRepo (write_file (file_of e2) d2 (worktree (repo mgr1)))
                                 (mkCommit (file_of e2) s2 now2 :: history (repo mgr1))).
  { rewrite Hfst2.
    refine (save_committed zc (with_memories (logged mgr1 r2) (memories mgr1 ++ [e2])) e2 _ _).
    cbn [with_memories logged compression_enabled]. rewrite Hc1. exact Hd2. }
  exists e1, e2, d2, mgr1, mgr2.
  split; [now rewrite (surjective_pairing (add_memory zc now1 IoOk mgr c1 x1 tags1 s1)), Hres1|].
  split; [now rewrite (surjective_pairing (add_memory zc now2 IoOk mgr1 c2 x2 tags2 s2)), Hres2|].
  split; [rewrite Hidx2, Hidx1, <- app_assoc; reflexivity|].
  split; [rewrite Hrepo2, Hrepo1; reflexivity|].
  split; [exact Hms|].
  split; [exact Hd2|].
  rewrite Hrepo2. cbn [worktree].
  change (file_of e1) with (int_of_float (now1 * 1000)).
  rewrite Hms. apply write_file_once.
Qed.

(** X7 on two appends at the same clock reading. *)
Lemma same_millisecond_witness :
  exists e1 e2 d2 mgr1 mgr2,
    add_memory Scenario.stored_compress 100 IoOk Scenario.fresh Scenario.note 1 None
      Scenario.tester = (mgr1, Ok e1)
    /\ add_memory Scenario.stored_compress 100 IoOk mgr1 Scenario.draft 1 None
         Scenario.tester = (mgr2, Ok e2)
    /\ content e1 = Scenario.note /\ content e2 = Scenario.draft
    /\ length (memories mgr2) = 2%nat
    /\ filter (fun f => Z.eqb (fst f) (file_of e1)) (worktree (repo mgr2))
       = [(file_of e1, d2)]
    /\ content d2 = Scenario.draft.
Proof.
  assert (Hn : Forall Utf8.scalar Scenario.note).
  { repeat constructor; cbn; lia. }
  assert (Hd : Forall Utf8.scalar Scenario.draft).
  { repeat constructor; cbn; lia. }
  destruct (same_millisecond_appends_share_one_file Scenario.stored_compress 100 100
              Scenario.fresh Scenario.note Scenario.draft 1 1 None None
              Scenario.tester Scenario.tester Hn Hd eq_refl)
    as (e1 & e2 & d2 & mgr1 & mgr2 & A1 & A2 & Hidx & _ & _ & Hdoc & Hfile).
  exists e1, e2, d2, mgr1, mgr2.
  assert (C1 : content e1 = Scenario.note).
  { unfold add_memory in A1.
    destruct (_generate_embedding (embedding_model Scenario.fresh) Scenario.note)
      as [records [v|e]]; [|discriminate].
    injection A1 as _ <-. reflexivity. }
  assert (C2 : content e2 = Scenario.draft).
  { unfold add_memory in A2.
    destruct (_generate_embedding (embedding_model mgr1) Scenario.draft)
      as [records [v|e]]; [|discriminate].
    injection A2 as _ <-. reflexivity. }
  repeat split; try assumption.
  - rewrite Hidx. reflexivity.
  - rewrite document_short in Hdoc.
    + apply Ok_inj in Hdoc. now subst d2.
    + rewrite C2. vm_compute. discriminate.
Defined.

(** ** Invariants of the stores the operations build *)

Lemma touch_positions_Forall (P : MemoryEntry -> Prop) now positions ms :
  (forall m, P m -> P (touch now m)) ->
  Forall P ms -> Forall P (touch_positions now positions ms).
Proof.
  intros Ht H. unfold touch_positions, enumerate. generalize 0%nat.
  induction H as [|m ms Hm _ IH]; intros i; cbn [enumerate_from map]; constructor.
  - cbn [fst snd]. destruct (existsb _ positions); auto.
  - apply IH.
Qed.

(** A property of entries that the access update and the decay keep, and
    that every newly constructed entry has, holds throughout the index
    after a step. *)
Lemma step_preserves (P : MemoryEntry -> Prop) zc fit_predict mgr mgr' :
  (forall now m, P m -> P (touch now m)) ->
  (forall now m, P m -> P (decay now m)) ->
  (forall now content x tags source records v,
      _generate_embedding (embedding_model mgr) content = (records, Ok v) ->
      P (new_entry now content x tags source v)) ->
  step zc fit_predict mgr mgr' ->
  Forall P (memories mgr) -> Forall P (memories mgr').
Proof.
  intros Ht Hd Hn Hstep H.
  destruct Hstep as [now io s content x tags source|now s query top_k min_importance
                    |now s _].
  - destruct (_generate_embedding (embedding_model s) content) as [records [v|e]] eqn:G.
    + destruct (add_memory_generated zc now io s content x tags source records v G)
        as (_ & -> & _).
      apply Forall_app. split; [assumption|]. constructor; [|constructor].
      eapply Hn. exact G.
    + destruct (add_memory_raises zc now io s content x tags source records e G)
        as (_ & ->).
      assumption.
  - destruct (retrieve_memories_index now s query top_k min_importance) as [->|[p ->]];
      [assumption|].
    apply touch_positions_Forall; auto.
  - rewrite consolidate_memories_index.
    apply Forall_forall. intros m Hm. apply filter_In in Hm as [Hm _].
    apply in_map_iff in Hm as (m0 & <- & Hm0).
    rewrite Forall_forall in H. auto.
Qed.

Lemma step_embedding_model zc fit_predict mgr mgr' :
  step zc fit_predict mgr mgr' -> embedding_model mgr' = embedding_model mgr.
Proof. intros H. exact (proj2 (proj2 (proj2 (proj2 (step_keeps_ledger _ _ _ _ H))))). Qed.

Lemma built_store_invariant zc fit_predict mgr :
  reachable zc fit_predict mgr ->
  Forall (fun m => embedding m <> None /\ compressed m = false
                   /\ (0 <= access_count m)%Z) (memories mgr)
  /\ (embedding_model mgr = None -> Forall (embedded 32) (memories mgr)).
Proof.
  intros Hreach.
  induction Hreach as [c r model|a b _ [IH1 IH2] Hstep]; [split; constructor|].
  split.
  - eapply step_preserves; [| | |exact Hstep|exact IH1].
    + intros now m (He & Hc & Ha). cbn [touch embedding compressed access_count].
      repeat split; auto. lia.
    + intros now m H. exact H.
    + intros now content x tags source records v _.
      cbn [new_entry embedding compressed access_count].
      repeat split; [discriminate|lia].
  - intros Hnone. rewrite (step_embedding_model zc fit_predict a b Hstep) in Hnone.
    eapply step_preserves; [| | |exact Hstep|exact (IH2 Hnone)].
    + intros now m H. exact H.
    + intros now m H. exact H.
    + intros now content x tags source records v G.
      rewrite Hnone in G. cbn [_generate_embedding] in G.
      injection G as _ G.
      apply embedded_new_entry; [|discriminate].
      eapply hash_embedding_length. exact G.
Qed.

(** X8.  In every store built from a newly constructed one by
    [add_memory], [retrieve_memories] and [consolidate_memories], every
    live entry carries an embedding (never [None]), is not marked
    compressed (compression touches the stored document only), and has a
    non-negative access count; in a store that has no embedding model the
    embedding of every live entry is present and has 32 components. *)
Theorem built_stores_hold_plain_embedded_entries :
  forall zlib_compress fit_predict mgr,
    reachable zlib_compress fit_predict mgr ->
    Forall (fun m => embedding m <> None /\ compressed m = false
                     /\ (0 <= access_count m)%Z) (memories mgr)
    /\ (embedding_model mgr = None -> Forall (embedded 32) (memories mgr)).
Proof.
  intros zc fit_predict mgr Hreach. exact (built_store_invariant zc fit_predict mgr Hreach).
Qed.

Lemma two_notes_reachable :
  reachable Scenario.stored_compress Scenario.all_noise Scenario.two_notes.
Proof.
  unfold Scenario.two_notes. cbv zeta.
  eapply reach_step; [eapply reach_step; [apply reach_init|]|]; apply step_add.
Qed.

(** X8 on the store of two appended notes. *)
Lemma built_store_witness :
  Forall (fun m => embedding m <> None /\ compressed m = false
                   /\ (0 <= access_count m)%Z) (memories Scenario.two_notes).
Proof.
  exact (proj1 (built_stores_hold_plain_embedded_entries Scenario.stored_compress
                  Scenario.all_noise Scenario.two_notes two_notes_reachable)).
Defined.

Lemma retrieve_returns_on_aligned now mgr query top_k min_importance records q :
  _generate_embedding (embedding_model mgr) query = (records, Ok q) ->
  Forall (embedded (length q)) (memories mgr) ->
  exists r, snd (retrieve_memories now mgr query top_k min_importance) = Ok r.
Proof.
  intros Hgen Hemb.
  destruct (memories mgr) as [|m ms] eqn:Hm.
  { exists []. unfold retrieve_memories. now rewrite Hm. }
  rewrite <- Hm in Hemb.
  assert (Hne : memories mgr <> []) by (rewrite Hm; discriminate).
  assert (Hpe : present_embeddings (memories mgr) <> []).
  { rewrite (present_embeddings_all _ _ Hemb), Hm. discriminate. }
  eexists.
  exact (proj1 (retrieve_scored now mgr query top_k min_importance records q _
                  Hne Hpe Hgen (scored_memories_aligned q min_importance _ Hemb))).
Qed.

(** X9.  On a store without an embedding model that was built through
    the operations, [retrieve_memories] returns for every query that UTF-8
    can encode, whatever [top_k] and [min_importance] are; on a query
    with a lone surrogate it raises [UnicodeEncodeError] unless the store
    is empty, and leaves the index as it was. *)
Theorem hash_backed_retrieval_returns :
  forall zlib_compress fit_predict mgr,
    reachable zlib_compress fit_predict mgr ->
    embedding_model mgr = None ->
    forall now query top_k min_importance,
      (Forall Utf8.scalar query ->
       exists r, snd (retrieve_memories now mgr query top_k min_importance) = Ok r)
      /\ (Exists (fun c => Utf8.is_surrogate c = true) query -> memories mgr <> [] ->
          retrieve_memories now mgr query top_k min_importance
          = (mgr, Raise UnicodeEncodeError)).
Proof.
  intros zc fit_predict mgr Hreach Hnone now query top_k min_importance.
  pose proof (proj2 (built_store_invariant zc fit_predict mgr Hreach) Hnone) as Hemb.
  split.
  - intros Hq.
    destruct (generate_embedding_total (embedding_model mgr) query Hq) as (records & q & G).
    assert (Hlen : length q = 32%nat).
    { rewrite Hnone in G. cbn [_generate_embedding] in G. injection G as _ G.
      eapply hash_embedding_length. exact G. }
    eapply retrieve_returns_on_aligned; [exact G|]. now rewrite Hlen.
  - intros Hs Hne. unfold retrieve_memories.
    destruct (memories mgr) as [|m ms]; [contradiction|].
    rewrite Hnone. cbn [_generate_embedding]. unfold hash_embedding.
    rewrite (encode_surrogate query Hs). cbn [bind].
    destruct mgr; reflexivity.
Qed.

(** X9 on the store of two appended notes. *)
Lemma hash_backed_retrieval_witness :
  exists r, snd (retrieve_memories 300 Scenario.two_notes Scenario.query 5 0) = Ok r.
Proof.
  apply (hash_backed_retrieval_returns Scenario.stored_compress Scenario.all_noise
           Scenario.two_notes two_notes_reachable two_notes_model 300 Scenario.query 5 0).
  repeat constructor; cbn; lia.
Defined.

(** ** Consolidation: the decay law *)

Lemma decay_importance now m :
  importance (decay now m)
  = importance m * exp (- (now - timestamp m) / (86400 * 30)).
Proof.
  unfold decay, MEMORY_DECAY_HALF_LIFE_DAYS. cbn [importance].
  f_equal. f_equal. field.
Qed.

Lemma exp_minus_one_below_half : exp (- 1) < 1 / 2.
Proof.
  replace (- 1) with (- (1)) by lra. rewrite exp_Ropp.
  assert (H : 2 < exp 1).
  { pose proof (exp_ineq1 1). lra. }
  apply Rmult_lt_reg_r with (exp 1); [lra|].
  rewrite Rinv_l; lra.
Qed.

Lemma retained_iff m : retained m = true <-> 1 / 10 < importance m.
Proof.
  unfold retained, MEMORY_IMPORTANCE_THRESHOLD.
  destruct (Rlt_dec (1 / 10) (importance m)); split; auto; discriminate.
Qed.

(** X10.  The decay of one consolidation run at time [now]: a live entry
    of timestamp [t] has its importance multiplied by
    [exp (-(now - t) / (86400 * 30))] and is kept exactly when the product
    exceeds 0.1; the product is no greater than the importance when the
    entry is not from the future and strictly greater when it is; and at
    an age of 30 days the factor is [exp (-1)], which is below one half. *)
Theorem consolidation_decays_importance_by_age :
  forall fit_predict now mgr m,
    In m (memories mgr) ->
    importance (decay now m)
    = importance m * exp (- (now - timestamp m) / (86400 * 30))
    /\ (In (decay now m) (memories (fst (consolidate_memories fit_predict now mgr)))
        <-> 1 / 10 < importance (decay now m))
    /\ (timestamp m <= now -> 0 <= importance m ->
        importance (decay now m) <= importance m)
    /\ (now < timestamp m -> 0 < importance m ->
        importance m < importance (decay now m))
    /\ (now = timestamp m + 30 * 86400 ->
        importance (decay now m) = importance m * exp (- 1)
        /\ (0 < importance m -> importance (decay now m) < importance m / 2)).
Proof.
  intros fit_predict now mgr m Hin.
  pose proof (decay_importance now m) as Hd.
  split; [exact Hd|]. split; [|split; [|split]].
  - rewrite consolidate_memories_index, filter_In, retained_iff. split; [tauto|].
    intros H. split; [|exact H]. now apply in_map.
  - intros Hage Hpos. rewrite Hd.
    set (a := - (now - timestamp m) / (86400 * 30)).
    assert (Ha : a <= 0) by (unfold a; lra).
    pose proof (exp_pos a).
    assert (exp a <= 1).
    { destruct Ha as [Ha| ->]; [|rewrite exp_0; lra].
      left. rewrite <- exp_0. now apply exp_increasing. }
    nra.
  - intros Hage Hpos. rewrite Hd.
    set (a := - (now - timestamp m) / (86400 * 30)).
    assert (Ha : 0 < a) by (unfold a; lra).
    assert (1 < exp a) by (rewrite <- exp_0; now apply exp_increasing).
    nra.
  - intros ->. rewrite Hd.
    replace (- (timestamp m + 30 * 86400 - timestamp m) / (86400 * 30)) with (- 1)
      by (field; lra).
    split; [reflexivity|]. intros Hpos.
    pose proof exp_minus_one_below_half. nra.
Qed.

(** X10 on the entry of importance 9 and timestamp 0, thirty days later. *)
Lemma decay_witness :
  importance (decay (30 * 86400) Scenario.e_major) = 9 * exp (- 1)
  /\ importance (decay (30 * 86400) Scenario.e_major) < 9 / 2.
Proof.
  destruct (consolidation_decays_importance_by_age Scenario.all_noise (30 * 86400)
              Scenario.ranked Scenario.e_major)
    as (_ & _ & _ & _ & H).
  { right. left. reflexivity. }
  destruct H as [H1 H2].
  { cbn [timestamp Scenario.e_major Scenario.entry]. lra. }
  change (importance Scenario.e_major) with 9 in H1, H2.
  split; [exact H1|]. apply H2. lra.
Defined.

(** X11.  Decay compounds over repeated consolidation: every entry that
    is live after a run at [t1] followed by a run at [t2] stems from an
    entry of the first store whose content, timestamp and embedding it
    keeps and whose importance has been multiplied by
    [exp (-((t1 - t) + (t2 - t)) / (86400 * 30))], [t] its timestamp: the
    age counts from the entry's creation in every run, so an entry older
    than the first run ends below what one run at [t2] gives it. *)
Theorem repeated_consolidation_compounds_the_decay :
  forall fit_predict t1 t2 mgr,
    Forall (fun m'' =>
              exists m,
                In m (memories mgr)
                /\ content m'' = content m /\ timestamp m'' = timestamp m
                /\ embedding m'' = embedding m
                /\ importance m''
                   = importance m
                     * exp (- ((t1 - timestamp m) + (t2 - timestamp m)) / (86400 * 30))
                /\ (timestamp m < t1 -> importance m'' < importance (decay t2 m)))
           (memories (fst (consolidate_memories fit_predict t2
                             (fst (consolidate_memories fit_predict t1 mgr))))).
Proof.
  intros fit_predict t1 t2 mgr. apply Forall_forall. intros m'' H.
  rewrite consolidate_memories_index in H. apply filter_In in H as [H Hkept].
  apply in_map_iff in H as (m' & <- & H).
  rewrite consolidate_memories_index in H. apply filter_In in H as [H _].
  apply in_map_iff in H as (m & <- & H).
  exists m. split; [exact H|]. repeat split.
  - rewrite !decay_importance. cbn [decay timestamp].
    rewrite Rmult_assoc, <- exp_plus. f_equal. f_equal. field.
  - intros Hold. apply retained_iff in Hkept.
    rewrite !decay_importance in *. cbn [decay timestamp] in *.
    set (a1 := - (t1 - timestamp m) / (86400 * 30)) in *.
    set (a2 := - (t2 - timestamp m) / (86400 * 30)) in *.
    assert (Ha1 : a1 < 0) by (unfold a1; lra).
    assert (H1 : exp a1 < 1) by (rewrite <- exp_0; now apply exp_increasing).
    pose proof (exp_pos a1). pose proof (exp_pos a2).
    assert (Hpos : 0 < importance m).
    { destruct (Rlt_dec 0 (importance m)) as [Hp|Hn]; [exact Hp|]. exfalso.
      assert (importance m * exp a1 <= 0) by nra.
      assert (importance m * exp a1 * exp a2 <= 0) by nra.
      lra. }
    assert (Hp2 : 0 < importance m * exp a2) by now apply Rmult_lt_0_compat.
    replace (importance m * exp a1 * exp a2) with (importance m * exp a2 * exp a1) by ring.
    nra.
Qed.

(** ** Clustering: the groups *)

Lemma nth_error_skipn_cons A (l : list A) : forall i a,
  nth_error l i = Some a -> skipn i l = a :: skipn (S i) l.
Proof.
  induction l as [|x l IH]; intros [|i] a H; try discriminate.
  - cbn in H. injection H as ->. reflexivity.
  - cbn [nth_error] in H. cbn [skipn]. rewrite (IH i a H). reflexivity.
Qed.

(** The grouping loop is a left fold of [add_to_cluster] over the labels
    paired with the entries at their positions. *)
Lemma group_by_label_fold ms labels :
  forall start clusters,
    (start + length labels <= length ms)%nat ->
    group_by_label ms (enumerate_from start labels) clusters
    = Ok (fold_left (fun c p => add_to_cluster (fst p) (snd p) c)
                    (combine labels (skipn start ms)) clusters).
Proof.
  induction labels as [|label labels IH]; intros start clusters Hlen;
    cbn [enumerate_from group_by_label combine fold_left]; [reflexivity|].
  cbn [length] in Hlen.
  destruct (nth_error ms start) as [m|] eqn:Hm.
  2:{ apply nth_error_None in Hm. lia. }
  rewrite (nth_error_skipn_cons _ ms start m Hm).
  cbn [combine fold_left fst snd]. apply IH. lia.
Qed.

Lemma filter_label_absent (seen : list (Z * MemoryEntry)) l :
  ~ In l (map fst seen) -> filter (fun p => Z.eqb (fst p) l) seen = [].
Proof.
  induction seen as [|[k m] seen IH]; cbn [map filter fst]; [reflexivity|].
  intros H. destruct (Z.eqb_spec k l) as [->|_]; [exfalso; apply H; now left|].
  apply IH. intros Hin. apply H. now right.
Qed.

Lemma add_to_cluster_keys label m c :
  map fst (add_to_cluster label m c)
  = if in_dec Z.eq_dec label (map fst c) then map fst c else map fst c ++ [label].
Proof.
  induction c as [|[l g] c IH]; cbn [add_to_cluster map fst app]; [reflexivity|].
  destruct (Z.eqb_spec l label) as [->|Hne].
  - cbn [map fst]. destruct (in_dec Z.eq_dec label (label :: map fst c)) as [_|H];
      [reflexivity|exfalso; apply H; now left].
  - cbn [map fst]. rewrite IH.
    destruct (in_dec Z.eq_dec label (map fst c)) as [Hin|Hout];
      destruct (in_dec Z.eq_dec label (l :: map fst c)) as [Hin'|Hout'];
      try reflexivity.
    + exfalso. apply Hout'. now right.
    + destruct Hin' as [E|Hin']; [congruence|contradiction].
Qed.

Lemma add_to_cluster_members label m c :
  NoDup (map fst c) ->
  forall l' g',
    In (l', g') (add_to_cluster label m c) ->
    (l' <> label /\ In (l', g') c)
    \/ (l' = label
        /\ ((exists g, In (label, g) c /\ g' = g ++ [m])
            \/ (~ In label (map fst c) /\ g' = [m]))).
Proof.
  induction c as [|[l g] c IH]; intros Hnd l' g'; cbn [add_to_cluster map fst].
  - intros [H|[]]. injection H as <- <-. right. split; [reflexivity|]. right.
    split; [intros []|reflexivity].
  - cbn [map fst] in Hnd. inversion Hnd as [|? ? Hl Hc]; subst.
    destruct (Z.eqb_spec l label) as [->|Hne].
    + intros [H|H].
      * injection H as <- <-. right. split; [reflexivity|]. left.
        exists g. split; [now left|reflexivity].
      * left. split; [|now right].
        intros ->. apply Hl. change label with (fst (label, g')). now apply in_map.
    + intros [H|H].
      * injection H as <- <-. left. split; [exact Hne|now left].
      * destruct (IH Hc l' g' H) as [[H1 H2]|[-> [(g0 & H1 & H2)|[H1 H2]]]].
        -- left. split; [exact H1|now right].
        -- right. split; [reflexivity|]. left. exists g0. split; [now right|exact H2].
        -- right. split; [reflexivity|]. right. split; [|exact H2].
           intros [E|Hin]; [congruence|contradiction].
Qed.

Lemma add_to_cluster_grouped seen c label m :
  grouped seen c -> grouped (seen ++ [(label, m)]) (add_to_cluster label m c).
Proof.
  intros (Hnd & Hkeys & Hgroups). unfold grouped.
  rewrite add_to_cluster_keys. split; [|split].
  - destruct (in_dec Z.eq_dec label (map fst c)) as [_|Hout]; [exact Hnd|].
    apply NoDup_app; [exact Hnd|repeat constructor; intros []|].
    intros l Hl [<-|[]]. contradiction.
  - intros l. rewrite map_app, in_app_iff. cbn [map fst In].
    destruct (in_dec Z.eq_dec label (map fst c)) as [Hin|Hout].
    + rewrite Hkeys. split; [tauto|]. intros [H|[<-|[]]]; [exact H|now apply Hkeys].
    + rewrite in_app_iff, Hkeys. cbn [In]. tauto.
  - apply Forall_forall. intros [l' g'] Hin. cbn [fst snd].
    rewrite Forall_forall in Hgroups.
    rewrite filter_app, map_app. cbn [filter fst].
    destruct (add_to_cluster_members label m c Hnd l' g' Hin)
      as [[H1 H2]|[-> [(g0 & H1 & H2)|[H1 H2]]]].
    + destruct (Z.eqb_spec label l') as [E|_]; [congruence|].
      cbn [map]. rewrite app_nil_r. exact (Hgroups _ H2).
    + rewrite Z.eqb_refl. cbn [map snd]. rewrite H2. f_equal. exact (Hgroups _ H1).
    + rewrite Z.eqb_refl. cbn [map snd]. rewrite H2.
      rewrite filter_label_absent; [reflexivity|]. now rewrite <- Hkeys.
Qed.

Lemma fold_add_to_cluster_grouped pairs :
  forall seen c,
    grouped seen c ->
    grouped (seen ++ pairs)
            (fold_left (fun c p => add_to_cluster (fst p) (snd p) c) pairs c).
Proof.
  induction pairs as [|[label m] pairs IH]; intros seen c H; cbn [fold_left fst snd].
  - now rewrite app_nil_r.
  - replace (seen ++ (label, m) :: pairs) with ((seen ++ [(label, m)]) ++ pairs)
      by (rewrite <- app_assoc; reflexivity).
    apply IH. now apply add_to_cluster_grouped.
Qed.

Lemma grouped_values seen c :
  grouped seen c ->
  map snd c = map (fun l => map snd (filter (fun p => Z.eqb (fst p) l) seen)) (map fst c).
Proof.
  intros (_ & _ & H). rewrite map_map.
  induction H as [|lg c Hlg _ IH]; cbn [map]; [reflexivity|]. now rewrite Hlg, IH.
Qed.

(** The pairs under distinct labels that cover all labels are the pairs,
    regrouped. *)
Lemma concat_by_label (ls : list Z) :
  forall (seen : list (Z * MemoryEntry)),
    NoDup ls -> (forall p, In p seen -> In (fst p) ls) ->
    Permutation (concat (map (fun l => filter (fun p => Z.eqb (fst p) l) seen) ls)) seen.
Proof.
  induction ls as [|l0 ls IH]; intros seen Hnd Hcov.
  - destruct seen as [|p seen]; [constructor|]. destruct (Hcov p); now left.
  - inversion Hnd as [|? ? Hl0 Hls]; subst. cbn [map concat].
    assert (Hsplit : Permutation seen
                       (filter (fun p => Z.eqb (fst p) l0) seen
                        ++ filter (fun p => negb (Z.eqb (fst p) l0)) seen)).
    { clear. induction seen as [|p seen IHs]; cbn [filter]; [constructor|].
      destruct (fst p =? l0)%Z; cbn [negb app].
      - now constructor.
      - now apply Permutation_cons_app. }
    etransitivity; [|symmetry; exact Hsplit]. apply Permutation_app_head.
    rewrite <- (IH (filter (fun p => negb (Z.eqb (fst p) l0)) seen) Hls).
    + apply Permutation_refl'. f_equal. apply map_ext_in. intros l Hl.
      assert (Hne : l <> l0) by (intros ->; contradiction).
      clear -Hne. induction seen as [|p seen IHs]; cbn [filter]; [reflexivity|].
      destruct (Z.eqb_spec (fst p) l0) as [E|Hp]; cbn [negb filter].
      * destruct (Z.eqb_spec (fst p) l) as [E'|_]; [congruence|exact IHs].
      * destruct (fst p =? l)%Z; [f_equal|]; exact IHs.
    + intros p Hp. apply filter_In in Hp as [Hp Hne].
      destruct (Hcov p Hp) as [E|H]; [|exact H].
      rewrite E, Z.eqb_refl in Hne. discriminate.
Qed.

Lemma combine_keys (labels : list Z) (ms : list MemoryEntry) :
  (length labels <= length ms)%nat -> map fst (combine labels ms) = labels.
Proof.
  revert ms. induction labels as [|l labels IH]; intros [|m ms] H; cbn in *;
    try reflexivity; try lia.
  f_equal. apply IH. lia.
Qed.

Lemma combine_values (labels : list Z) (ms : list MemoryEntry) :
  map snd (combine labels ms) = firstn (length labels) ms.
Proof.
  revert ms. induction labels as [|l labels IH]; intros [|m ms]; cbn; try reflexivity.
  f_equal. apply IH.
Qed.

Lemma concat_map_map A B (f : A -> B) (ls : list (list A)) :
  concat (map (map f) ls) = map f (concat ls).
Proof. now rewrite concat_map. Qed.

(** X12.  The groups of [cluster_memories]: when the store is not below
    the guards and the clusterer returns one label per embedding handed
    to it, the call returns one group per distinct label; the group of a
    label holds, in index order, the entries at the index positions that
    carry the label, label [k] being paired with position [k] of the
    index; no group is empty, and together the groups hold each of the
    first [len(labels)] entries of the index once (noise, label [-1], is
    a group like any other). *)
Theorem clusters_group_the_index_by_label :
  forall fit_predict mgr eps min_samples labels,
    (min_samples <= len (memories mgr))%Z ->
    present_embeddings (memories mgr) <> [] ->
    fit_predict eps min_samples (present_embeddings (memories mgr)) = Ok labels ->
    length labels = length (present_embeddings (memories mgr)) ->
    exists ls,
      NoDup ls
      /\ (forall l, In l ls <-> In l labels)
      /\ cluster_memories fit_predict mgr eps min_samples
         = Ok (map (fun l => members_of l labels (memories mgr)) ls)
      /\ Forall (fun group => group <> [])
                (map (fun l => members_of l labels (memories mgr)) ls)
      /\ Permutation (concat (map (fun l => members_of l labels (memories mgr)) ls))
                     (firstn (length labels) (memories mgr)).
Proof.
  intros fit_predict mgr eps min_samples labels Hguard Hpe Hfit Hlen.
  assert (Hle : (length labels <= length (memories mgr))%nat).
  { rewrite Hlen. apply present_embeddings_length. }
  set (pairs := combine labels (memories mgr)).
  set (c := fold_left (fun c p => add_to_cluster (fst p) (snd p) c) pairs []).
  assert (Hg : grouped pairs c).
  { apply (fold_add_to_cluster_grouped pairs [] []).
    repeat split; try constructor; auto. }
  pose proof (grouped_values pairs c Hg) as Hvalues.
  destruct Hg as (Hnd & Hkeys & _).
  assert (Hkeys' : forall l, In l (map fst c) <-> In l labels).
  { intros l. rewrite Hkeys. unfold pairs. now rewrite combine_keys. }
  exists (map fst c). split; [exact Hnd|]. split; [exact Hkeys'|].
  fold pairs in Hvalues. unfold members_of. fold pairs. rewrite <- Hvalues.
  split; [|split].
  - unfold cluster_memories.
    destruct (Z.ltb_spec (len (memories mgr)) min_samples) as [Hlt|_]; [lia|].
    destruct (present_embeddings (memories mgr)) as [|y Y] eqn:E; [contradiction|].
    rewrite Hfit. cbn [bind]. unfold enumerate.
    rewrite (group_by_label_fold (memories mgr) labels 0 []) by (cbn; lia).
    reflexivity.
  - rewrite Hvalues. apply Forall_forall. intros group Hgroup.
    apply in_map_iff in Hgroup as (l & <- & Hl).
    apply Hkeys in Hl. apply in_map_iff in Hl as ([k m] & Hk & Hin).
    cbn [fst] in Hk. subst k.
    intros Hnil. apply map_eq_nil in Hnil.
    assert (Hmem : In (l, m) (filter (fun p => Z.eqb (fst p) l) pairs)).
    { apply filter_In. split; [exact Hin|]. cbn [fst]. apply Z.eqb_refl. }
    rewrite Hnil in Hmem. destruct Hmem.
  - rewrite Hvalues.
    rewrite <- (map_map (fun l => filter (fun p => Z.eqb (fst p) l) pairs) (map snd)).
    rewrite concat_map_map.
    rewrite <- combine_values. fold pairs.
    apply Permutation_map, concat_by_label; [exact Hnd|].
    intros p Hp. apply Hkeys. now apply in_map.
Qed.

(** X12 on a store of three entries of which one has an embedding: the
    one label is paired with the first entry. *)
Lemma clusters_witness :
  exists ls,
    cluster_memories Scenario.all_noise Scenario.sparse (3 / 10) 2
    = Ok (map (fun l => members_of l [(-1)%Z] (memories Scenario.sparse)) ls)
    /\ Permutation
         (concat (map (fun l => members_of l [(-1)%Z] (memories Scenario.sparse)) ls))
         (firstn 1 (memories Scenario.sparse)).
Proof.
  destruct (clusters_group_the_index_by_label Scenario.all_noise Scenario.sparse
              (3 / 10) 2 [(-1)%Z])
    as (ls & _ & _ & Hc & _ & Hp).
  - vm_compute. discriminate.
  - discriminate.
  - reflexivity.
  - reflexivity.
  - exists ls. split; [exact Hc|exact Hp].
Defined.

(** ** Retrieval on an aligned store: how many entries, in which order *)

Lemma StronglySorted_firstn A (R : A -> A -> Prop) n (l : list A) :
  StronglySorted R l -> StronglySorted R (firstn n l).
Proof.
  intros H. revert n. induction H as [|x l Hl IH Hx]; intros [|n]; cbn [firstn];
    try constructor.
  - apply IH.
  - apply Forall_forall. intros y Hy. apply firstn_incl in Hy.
    rewrite Forall_forall in Hx. now apply Hx.
Qed.

Lemma StronglySorted_map A B (R : A -> A -> Prop) (S : B -> B -> Prop) (f : A -> B) l :
  (forall x y, In x l -> In y l -> R x y -> S (f x) (f y)) ->
  StronglySorted R l -> StronglySorted S (map f l).
Proof.
  intros Hf H. induction H as [|x l Hl IH Hx]; cbn [map]; constructor.
  - apply IH. intros a b Ha Hb. apply Hf; now right.
  - apply Forall_forall. intros y Hy. apply in_map_iff in Hy as (a & <- & Ha).
    rewrite Forall_forall in Hx. apply Hf; [now left|now right|auto].
Qed.

Lemma own_score_touch q now m : own_score q (touch now m) = own_score q m.
Proof. reflexivity. Qed.

Lemma slice_to_length A (k : Z) (l : list A) :
  length (slice_to k l)
  = if (0 <=? k)%Z then Nat.min (Z.to_nat k) (length l)
    else (length l - Z.to_nat (- k))%nat.
Proof.
  unfold slice_to. destruct (0 <=? k)%Z; rewrite length_firstn; lia.
Qed.

Lemma filter_enumerate_length A (p : A -> bool) (l : list A) : forall i,
  length (filter (fun im => p (snd im)) (enumerate_from i l)) = length (filter p l).
Proof.
  induction l as [|x l IH]; intros i; cbn [enumerate_from filter snd]; [reflexivity|].
  destruct (p x); cbn [length]; now rewrite IH.
Qed.

Lemma StronglySorted_app_order A (R : A -> A -> Prop) (l1 l2 : list A) :
  StronglySorted R (l1 ++ l2) -> forall a b, In a l1 -> In b l2 -> R a b.
Proof.
  induction l1 as [|x l1 IH]; cbn [app]; intros H a b Ha Hb; [destruct Ha|].
  inversion H as [|? ? Hl Hx]; subst. destruct Ha as [->|Ha].
  - rewrite Forall_forall in Hx. apply Hx. apply in_or_app. now right.
  - now apply IH.
Qed.

Lemma slice_to_prefix A (k : Z) (l : list A) :
  exists rest, l = slice_to k l ++ rest.
Proof.
  unfold slice_to. destruct (0 <=? k)%Z; eexists; symmetry; apply firstn_skipn.
Qed.

(** X13.  On a store whose live entries all carry an embedding of the
    query embedding's dimension, [retrieve_memories] returns, of the [n]
    entries whose importance is at least [min_importance], exactly
    [min(top_k, n)] when [top_k >= 0] and [n - |top_k|] (none, if that is
    negative) when [top_k < 0], in non-increasing order of the score
    [cosine * (1 + ln (1 + importance))]; and what it returns are the
    best: a live entry that passes the filter is among the returned, or
    its score is no greater than the score of any returned entry. *)
Theorem retrieval_returns_the_best_scored_entries :
  forall now mgr query top_k min_importance records q,
    _generate_embedding (embedding_model mgr) query = (records, Ok q) ->
    Forall (embedded (length q)) (memories mgr) ->
    exists r,
      snd (retrieve_memories now mgr query top_k min_importance) = Ok r
      /\ length r
         = (let n := length (filter (passes min_importance) (memories mgr)) in
            if (0 <=? top_k)%Z then Nat.min (Z.to_nat top_k) n
            else (n - Z.to_nat (- top_k))%nat)
      /\ StronglySorted (fun a b => own_score q b <= own_score q a) r
      /\ (forall b,
            In b (memories mgr) -> passes min_importance b = true ->
            In (touch now b) r
            \/ Forall (fun a => own_score q b <= own_score q a) r).
Proof.
  intros now mgr query top_k min_importance records q Hgen Hemb.
  set (scored := map (fun im => (own_score q (snd im), im))
                     (filter (fun im => passes min_importance (snd im))
                             (enumerate (memories mgr)))).
  assert (Hn : length scored = length (filter (passes min_importance) (memories mgr))).
  { unfold scored, enumerate. rewrite length_map. apply filter_enumerate_length. }
  assert (Hshape : forall x, In x (slice_to top_k (sort_desc scored)) ->
                             fst x = own_score q (snd (snd x))).
  { intros x Hx. apply slice_to_incl in Hx.
    apply (Permutation_in _ (Permutation_sym (sort_desc_perm _ scored))) in Hx.
    unfold scored in Hx. apply in_map_iff in Hx as (im & <- & _). reflexivity. }
  assert (Hsorted : StronglySorted (fun a b => own_score q b <= own_score q a)
                      (map (fun x => touch now (snd (snd x)))
                           (slice_to top_k (sort_desc scored)))).
  { apply StronglySorted_map with (R := ge_score).
    - intros x y Hx Hy Hxy. rewrite !own_score_touch.
      rewrite <- (Hshape x Hx), <- (Hshape y Hy). exact Hxy.
    - unfold slice_to. destruct (0 <=? top_k)%Z;
        apply StronglySorted_firstn, sort_desc_sorted. }
  assert (Hlen : length (map (fun x : R * (nat * MemoryEntry) => touch now (snd (snd x)))
                             (slice_to top_k (sort_desc scored)))
                 = (let n := length (filter (passes min_importance) (memories mgr)) in
                    if (0 <=? top_k)%Z then Nat.min (Z.to_nat top_k) n
                    else (n - Z.to_nat (- top_k))%nat)).
  { rewrite length_map, slice_to_length, sort_desc_length, Hn. reflexivity. }
  assert (Hbest : forall b,
             In b (memories mgr) -> passes min_importance b = true ->
             In (touch now b)
                (map (fun x => touch now (snd (snd x)))
                     (slice_to top_k (sort_desc scored)))
             \/ Forall (fun a => own_score q b <= own_score q a)
                       (map (fun x => touch now (snd (snd x)))
                            (slice_to top_k (sort_desc scored)))).
  { intros b Hb Hpass. apply In_nth_error in Hb as [j Hj].
    pose proof (in_scored q min_importance (memories mgr) j b Hj Hpass) as Hin.
    fold scored in Hin.
    destruct (slice_to_prefix _ top_k (sort_desc scored)) as [rest Hsplit].
    pose proof (sort_desc_sorted _ scored) as Hs.
    rewrite Hsplit in Hin, Hs. apply in_app_or in Hin as [Htop|Hrest].
    - left. apply in_map_iff. now exists (own_score q b, (j, b)).
    - right. apply Forall_forall. intros a Ha.
      apply in_map_iff in Ha as (x & <- & Hx). rewrite own_score_touch.
      rewrite <- (Hshape x Hx).
      exact (StronglySorted_app_order _ _ _ _ Hs x (own_score q b, (j, b)) Hx Hrest). }
  assert (Hcase : memories mgr = [] \/ memories mgr <> []).
  { destruct (memories mgr); [now left|right; discriminate]. }
  destruct Hcase as [Hm|Hne].
  { exists []. split; [unfold retrieve_memories; now rewrite Hm|].
    split; [|split; [constructor|]].
    - rewrite Hm. cbn. destruct (0 <=? top_k)%Z; [now rewrite Nat.min_0_r|reflexivity].
    - intros b Hb. rewrite Hm in Hb. destruct Hb. }
  assert (Hpe : present_embeddings (memories mgr) <> []).
  { rewrite (present_embeddings_all _ _ Hemb).
    destruct (memories mgr); [contradiction|discriminate]. }
  destruct (retrieve_scored now mgr query top_k min_importance records q scored
              Hne Hpe Hgen (scored_memories_aligned q min_importance _ Hemb))
    as [Hres _].
  eexists. split; [exact Hres|]. split; [exact Hlen|]. split; [exact Hsorted|exact Hbest].
Qed.

Lemma ranked_aligned : Forall (embedded 2) (memories Scenario.ranked).
Proof.
  constructor; [|constructor; [|constructor]]; split; reflexivity.
Qed.

(** X13 on the store of two entries, asked for three: both are returned. *)
Lemma best_scored_witness :
  exists r,
    snd (retrieve_memories 300 Scenario.ranked Scenario.query 3 0) = Ok r
    /\ length r = 2%nat.
Proof.
  destruct (retrieval_returns_the_best_scored_entries 300 Scenario.ranked Scenario.query
              3 0 [] [1; 0] eq_refl ranked_aligned)
    as (r & Hr & Hlen & _ & _).
  exists r. split; [exact Hr|]. rewrite Hlen.
  assert (Hp : filter (passes 0) (memories Scenario.ranked) = memories Scenario.ranked).
  { cbn [Scenario.ranked with_memories memories filter].
    rewrite !passes_zero; [reflexivity| |];
      cbn [importance Scenario.e_major Scenario.e_minor Scenario.entry]; lra. }
  rewrite Hp. reflexivity.
Defined.

(** ** Statistics of the stores the operations build *)

Lemma sum_bounds a b v :
  Forall (fun x => a <= x <= b) v ->
  a * INR (length v) <= Np.sum v <= b * INR (length v).
Proof.
  induction 1 as [|x v Hx _ IH]; [cbn; lra|].
  change (length (x :: v)) with (S (length v)). rewrite S_INR.
  change (Np.sum (x :: v)) with (x + Np.sum v). lra.
Qed.

Lemma mean_bounds a b v :
  v <> [] -> Forall (fun x => a <= x <= b) v -> a <= Np.mean v <= b.
Proof.
  intros Hne H. apply sum_bounds in H. unfold Np.mean.
  assert (Hn : 0 < INR (length v)).
  { destruct v; [contradiction|]. apply lt_0_INR. cbn. lia. }
  split.
  - apply Rmult_le_reg_r with (INR (length v)); [exact Hn|]. field_simplify; lra.
  - apply Rmult_le_reg_r with (INR (length v)); [exact Hn|]. field_simplify; lra.
Qed.

Lemma reachable_in_range zc fit_predict mgr :
  reachable zc fit_predict mgr -> store_in_range mgr.
Proof.
  induction 1 as [c r model|a b _ IH Hstep]; [constructor|].
  eapply step_in_range; eassumption.
Qed.

Lemma total_size_nonneg ms : (0 <= total_size ms)%Z.
Proof.
  unfold total_size. induction ms as [|m ms IH]; cbn [map fold_right]; [lia|].
  unfold len at 1. lia.
Qed.

(** X14.  The statistics of a store built through the operations that
    holds at least one entry: [average_importance] is a float between 0
    and 10, [total_size_bytes] is a non-negative integer, and
    [total_size_mb] is that integer divided by 1024 * 1024. *)
Theorem stats_of_built_stores_are_in_range :
  forall zlib_compress fit_predict available mgr,
    reachable zlib_compress fit_predict mgr ->
    memories mgr <> [] ->
    exists average size,
      lookup "average_importance" (get_stats available mgr) = Some (VFloat average)
      /\ 0 <= average <= 10
      /\ lookup "total_size_bytes" (get_stats available mgr) = Some (VInt size)
      /\ (0 <= size)%Z
      /\ lookup "total_size_mb" (get_stats available mgr)
         = Some (VFloat (IZR size / (1024 * 1024))).
Proof.
  intros zc fit_predict available mgr Hreach Hne.
  pose proof (reachable_in_range zc fit_predict mgr Hreach) as Hrange.
  exists (Np.mean (map importance (memories mgr))), (total_size (memories mgr)).
  unfold get_stats. destruct (memories mgr) as [|m ms] eqn:Hm; [contradiction|].
  rewrite <- Hm. cbn [lookup String.eqb Ascii.eqb Bool.eqb].
  split; [reflexivity|]. split.
  { apply mean_bounds; [rewrite Hm; discriminate|].
    unfold store_in_range in Hrange. rewrite Forall_forall in *.
    intros x Hx. apply in_map_iff in Hx as (e & <- & He). now apply Hrange. }
  split; [reflexivity|]. split; [apply total_size_nonneg|reflexivity].
Qed.

(** X14 on the store of two appended notes. *)
Lemma built_stats_witness :
  exists average,
    lookup "average_importance" (get_stats false Scenario.two_notes)
    = Some (VFloat average)
    /\ 0 <= average <= 10.
Proof.
  destruct hash_embedding_note as (v & Hv & _).
  destruct (stats_of_built_stores_are_in_range Scenario.stored_compress Scenario.all_noise
              false Scenario.two_notes two_notes_reachable)
    as (average & size & Ha & Hr & _).
  - rewrite (proj1 (two_notes_state v Hv)). discriminate.
  - exists average. split; [exact Ha|exact Hr].
Defined.

(** ** Retrieval and clustering on the stores the operations build *)

Lemma generated_nonempty model text records v :
  dimensioned model -> _generate_embedding model text = (records, Ok v) -> v <> [].
Proof.
  intros Hdim G. destruct model as [encode|]; cbn [_generate_embedding] in G.
  - destruct (encode text) as [u|e] eqn:E.
    + injection G as _ <-. now apply (Hdim encode text u).
    + injection G as _ G. apply hash_embedding_length in G.
      intros ->. discriminate G.
  - injection G as _ G. apply hash_embedding_length in G.
    intros ->. discriminate G.
Qed.

(** Every entry of a store built through the operations has a present
    embedding, the model's embeddings being never empty. *)
Lemma built_store_embedded zc fit_predict mgr :
  reachable zc fit_predict mgr -> dimensioned (embedding_model mgr) ->
  Forall (fun m => has_embedding m = true) (memories mgr).
Proof.
  intros Hreach.
  induction Hreach as [c r model|a b _ IH Hstep]; intros Hdim; [constructor|].
  rewrite (step_embedding_model zc fit_predict a b Hstep) in Hdim.
  eapply step_preserves; [| | |exact Hstep|exact (IH Hdim)].
  - intros now m H. exact H.
  - intros now m H. exact H.
  - intros now content x tags source records v G.
    pose proof (generated_nonempty _ _ _ _ Hdim G) as Hv.
    unfold has_embedding. cbn [new_entry embedding].
    destruct v; [contradiction|reflexivity].
Qed.

Lemma present_embeddings_embedded ms :
  Forall (fun m => has_embedding m = true) ms ->
  present_embeddings ms = map embedding_of ms.
Proof.
  induction 1 as [|m ms Hm _ IH]; [reflexivity|].
  cbn [present_embeddings map]. unfold has_embedding, embedding_of in *.
  destruct (embedding m) as [[|x v]|]; try discriminate. now rewrite IH.
Qed.

(** When the similarities are computed, every embedded entry has the
    dimension of the query. *)
Lemma scored_store_is_aligned q min_importance ms scored :
  Forall (fun m => has_embedding m = true) ms ->
  scored_memories q min_importance ms = Ok scored ->
  Forall (embedded (length q)) ms.
Proof.
  intros Hemb Hsc. unfold scored_memories, Np.cosine_similarity in Hsc.
  rewrite (present_embeddings_embedded ms Hemb) in Hsc.
  destruct (forallb (fun y => Nat.eqb (length y) (length q)) (map embedding_of ms))
    eqn:Hall; [|discriminate].
  rewrite forallb_forall in Hall. rewrite Forall_forall in *.
  intros m Hm. split; [now apply Hemb|].
  apply Nat.eqb_eq, Hall. now apply in_map.
Qed.

(** A call that returns on a built store has found every entry with an
    embedding of the query's dimension. *)
Lemma built_store_aligned_when_returned zc fit_predict mgr now query top_k
      min_importance records q r :
  reachable zc fit_predict mgr -> dimensioned (embedding_model mgr) ->
  _generate_embedding (embedding_model mgr) query = (records, Ok q) ->
  snd (retrieve_memories now mgr query top_k min_importance) = Ok r ->
  Forall (embedded (length q)) (memories mgr).
Proof.
  intros Hreach Hdim Hgen Hr.
  pose proof (built_store_embedded zc fit_predict mgr Hreach Hdim) as Hemb.
  assert (Hcase : memories mgr = [] \/ memories mgr <> []).
  { destruct (memories mgr); [now left|right; discriminate]. }
  destruct Hcase as [Hm|Hne]; [rewrite Hm; constructor|].
  assert (Hpe : present_embeddings (memories mgr) <> []).
  { rewrite (present_embeddings_embedded _ Hemb).
    destruct (memories mgr); [contradiction|discriminate]. }
  destruct (scored_memories q min_importance (memories mgr)) as [scored|e] eqn:Hsc.
  - eapply scored_store_is_aligned; eassumption.
  - destruct (retrieve_raises now mgr query top_k min_importance records q e
                Hne Hpe Hgen Hsc) as (Hraise & _).
    rewrite Hraise in Hr. discriminate.
Qed.

(** C1.  On every store built through the operations (the model's
    embeddings being never empty), whenever [retrieve_memories] returns,
    it has scored each candidate, that is each live entry with
    importance at least [min_importance], as
    [cosine_similarity(query_embedding, candidate.embedding)
     * (1 + ln(1 + candidate.importance))], and it returns the first
    [top_k] of the descending order of these scores.  Consequently a
    candidate whose similarity to the query is 0 has score 0 whatever its
    importance; and of two candidates with equal positive similarity, the
    one with strictly greater importance has the strictly greater score,
    stands before the other in the ranking, and stands before it in the
    returned sequence whenever the other is returned. *)
Theorem C1_scores_by_similarity_and_importance :
  forall zlib_compress fit_predict mgr,
    reachable zlib_compress fit_predict mgr ->
    dimensioned (embedding_model mgr) ->
    forall now query top_k min_importance records q r,
      _generate_embedding (embedding_model mgr) query = (records, Ok q) ->
      snd (retrieve_memories now mgr query top_k min_importance) = Ok r ->
      let scored :=
        map (fun im => (Np.cosine q (embedding_of (snd im))
                        * (1 + ln (1 + importance (snd im))), im))
            (filter (fun im => passes min_importance (snd im))
                    (enumerate (memories mgr))) in
      let top := slice_to top_k (sort_desc scored) in
      scored_memories q min_importance (memories mgr) = Ok scored
      /\ r = map (fun x => touch now (snd (snd x))) top
      /\ (forall i a,
            nth_error (memories mgr) i = Some a -> passes min_importance a = true ->
            Np.cosine q (embedding_of a) = 0 ->
            In (0, (i, a)) (sort_desc scored))
      /\ (forall i j a b,
            nth_error (memories mgr) i = Some a -> nth_error (memories mgr) j = Some b ->
            passes min_importance a = true -> passes min_importance b = true ->
            Np.cosine q (embedding_of a) = Np.cosine q (embedding_of b) ->
            0 < Np.cosine q (embedding_of a) ->
            importance a < importance b ->
            own_score q a < own_score q b
            /\ ranks_above (own_score q b, (j, b)) (own_score q a, (i, a))
                           (sort_desc scored)
            /\ (In (own_score q a, (i, a)) top ->
                ranks_above (touch now b) (touch now a) r)).
Proof.
  intros zc fit_predict mgr Hreach Hdim now query top_k min_importance records q r
         Hgen Hr scored top.
  pose proof (built_store_aligned_when_returned zc fit_predict mgr now query top_k
                min_importance records q r Hreach Hdim Hgen Hr) as Hemb.
  pose proof (reachable_in_range zc fit_predict mgr Hreach) as Hrange.
  destruct (aligned_store_scores now mgr query top_k min_importance records q Hgen Hemb)
    as (Hsc & Hres & Hzero & Hrank).
  change (scored_memories q min_importance (memories mgr) = Ok scored) in Hsc.
  fold scored in Hres, Hzero, Hrank. fold top in Hres, Hrank.
  rewrite Hres in Hr. apply Ok_inj in Hr. subst r.
  split; [exact Hsc|]. split; [reflexivity|]. split.
  - intros i a Hi Hp Hz. now apply (Hzero i a Hi Hp Hz).
  - intros i j a b Hi Hj Hpa Hpb Heq Hpos Himp.
    assert (Ha : 0 <= importance a).
    { unfold store_in_range in Hrange. rewrite Forall_forall in Hrange.
      apply nth_error_In in Hi. now apply Hrange. }
    destruct (Hrank i j a b Hi Hj Hpa Hpb Heq Hpos (conj Ha Himp)) as (H1 & H2 & H3).
    split; [exact H1|]. split; [exact H2|exact H3].
Qed.

Lemma axis_model_dimensioned : dimensioned (Some Scenario.axis_model).
Proof.
  intros encode text v H E. injection H as <-. unfold Scenario.axis_model in E.
  apply Ok_inj in E. subst v. discriminate.
Qed.

Lemma graded_state :
  memories Scenario.graded
  = [new_entry 100 Scenario.note 1 None Scenario.tester [1; 0];
     new_entry 200 Scenario.draft 9 None Scenario.tester [1; 0]]
  /\ embedding_model Scenario.graded = Some Scenario.axis_model.
Proof.
  unfold Scenario.graded.
  set (s0 := __init__ true empty_repo (Some Scenario.axis_model)).
  assert (G0 : _generate_embedding (embedding_model s0) Scenario.note = ([], Ok [1; 0]))
    by reflexivity.
  destruct (add_memory_generated Scenario.stored_compress 100 IoOk s0
              Scenario.note 1 None Scenario.tester [] _ G0) as (_ & M1 & E1).
  cbv zeta in M1.
  set (s1 := fst (add_memory Scenario.stored_compress 100 IoOk s0 Scenario.note 1 None
                    Scenario.tester)) in *.
  assert (G1 : _generate_embedding (embedding_model s1) Scenario.draft = ([], Ok [1; 0])).
  { rewrite E1. reflexivity. }
  destruct (add_memory_generated Scenario.stored_compress 200 IoOk s1
              Scenario.draft 9 None Scenario.tester [] _ G1) as (_ & M2 & E2).
  cbv zeta in M2. rewrite M2, M1, E2, E1. split; reflexivity.
Qed.

Lemma graded_reachable :
  reachable Scenario.stored_compress Scenario.all_noise Scenario.graded.
Proof.
  unfold Scenario.graded. cbv zeta.
  eapply reach_step; [eapply reach_step; [apply reach_init|]|]; apply step_add.
Qed.

Lemma clamp_nine : Rmin (Rmax 9 0) 10 = 9.
Proof.
  unfold Rmax. destruct (Rle_dec 9 0); [lra|].
  unfold Rmin. destruct (Rle_dec 9 10); [reflexivity|lra].
Qed.

(** C1 on the retrieval-ordering example, built through [add_memory]: two
    entries of equal similarity to the query, of importance 1 and 9; the
    entry of importance 9 has the greater score, ranks first, and is the
    one returned for [top_k = 1]. *)
Lemma C1_ranking_witness :
  exists a b r,
    memories Scenario.graded = [a; b]
    /\ importance a = 1 /\ importance b = 9
    /\ snd (retrieve_memories 300 Scenario.graded Scenario.query 1 0) = Ok r
    /\ own_score [1; 0] a < own_score [1; 0] b
    /\ ranks_above (own_score [1; 0] b, (1%nat, b)) (own_score [1; 0] a, (0%nat, a))
         (sort_desc
            (map (fun im => (Np.cosine [1; 0] (embedding_of (snd im))
                             * (1 + ln (1 + importance (snd im))), im))
               (filter (fun im => passes 0 (snd im))
                  (enumerate (memories Scenario.graded)))))
    /\ r = [touch 300 b].
Proof.
  destruct graded_state as [Hm Hmodel].
  set (a := new_entry 100 Scenario.note 1 None Scenario.tester [1; 0]) in *.
  set (b := new_entry 200 Scenario.draft 9 None Scenario.tester [1; 0]) in *.
  assert (Ia : importance a = 1) by apply clamp_one.
  assert (Ib : importance b = 9) by apply clamp_nine.
  assert (Hdim : dimensioned (embedding_model Scenario.graded)).
  { rewrite Hmodel. exact axis_model_dimensioned. }
  assert (Hgen : _generate_embedding (embedding_model Scenario.graded) Scenario.query
                 = ([], Ok [1; 0])).
  { rewrite Hmodel. reflexivity. }
  assert (Hemb : Forall (embedded (length [1; 0])) (memories Scenario.graded)).
  { rewrite Hm. constructor; [|constructor; [|constructor]]; split; reflexivity. }
  destruct (retrieve_returns_on_aligned 300 Scenario.graded Scenario.query 1 0 []
              [1; 0] Hgen Hemb) as [r Hr].
  assert (Pa : passes 0 a = true) by (apply passes_zero; rewrite Ia; lra).
  assert (Pb : passes 0 b = true) by (apply passes_zero; rewrite Ib; lra).
  destruct (C1_scores_by_similarity_and_importance Scenario.stored_compress
              Scenario.all_noise Scenario.graded graded_reachable Hdim
              300 Scenario.query 1 0 [] [1; 0] r Hgen Hr)
    as (_ & Hres & _ & Hrank).
  destruct (Hrank 0%nat 1%nat a b) as (Hlt & Hra & _).
  { rewrite Hm. reflexivity. }
  { rewrite Hm. reflexivity. }
  { exact Pa. }
  { exact Pb. }
  { reflexivity. }
  { change (embedding_of a) with [1; 0]. rewrite cosine_axis_same. lra. }
  { rewrite Ia, Ib. lra. }
  exists a, b, r.
  split; [exact Hm|]. split; [exact Ia|]. split; [exact Ib|]. split; [exact Hr|].
  split; [exact Hlt|]. split; [exact Hra|].
  rewrite Hres, Hm.
  cbn [enumerate enumerate_from filter snd]. rewrite Pa, Pb.
  cbn [map snd sort_desc fold_right insert_desc fst].
  change (Np.cosine [1; 0] (embedding_of b) * (1 + ln (1 + importance b)))
    with (own_score [1; 0] b).
  change (Np.cosine [1; 0] (embedding_of a) * (1 + ln (1 + importance a)))
    with (own_score [1; 0] a).
  destruct (Rle_dec (own_score [1; 0] b) (own_score [1; 0] a)); [lra|].
  reflexivity.
Defined.

(** C2.  On every store built through the operations (the model's
    embeddings being never empty), every entry in the sequence
    [retrieve_memories] returns is a live entry, with its access
    statistics updated, that has a present embedding and importance at
    least [min_importance]; no entry without an embedding is returned;
    and unless the store is empty, the returned entries are the first
    [top_k] of the descending order of a scored list in which every
    entry has a present embedding and has been scored with the
    similarity of that same entry's embedding to the query. *)
Theorem C2_returned_entries_are_embedded_and_scored_by_their_own_embedding :
  forall zlib_compress fit_predict mgr,
    reachable zlib_compress fit_predict mgr ->
    dimensioned (embedding_model mgr) ->
    forall now query top_k min_importance r,
      snd (retrieve_memories now mgr query top_k min_importance) = Ok r ->
      Forall (fun m => has_embedding m = true
                       /\ min_importance <= importance m
                       /\ exists m0, In m0 (memories mgr) /\ m = touch now m0) r
      /\ (forall m0, In m0 (memories mgr) -> has_embedding m0 = false ->
                     ~ In (touch now m0) r)
      /\ (memories mgr = []
          \/ exists records q scored,
               _generate_embedding (embedding_model mgr) query = (records, Ok q)
               /\ scored_memories q min_importance (memories mgr) = Ok scored
               /\ Forall (fun x =>
                            has_embedding (snd (snd x)) = true
                            /\ nth_error (memories mgr) (fst (snd x)) = Some (snd (snd x))
                            /\ fst x = Np.cosine q (embedding_of (snd (snd x)))
                                       * (1 + ln (1 + importance (snd (snd x)))))
                         scored
               /\ r = map (fun x => touch now (snd (snd x)))
                          (slice_to top_k (sort_desc scored))).
Proof.
  intros zc fit_predict mgr Hreach Hdim now query top_k min_importance r Hr.
  pose proof (built_store_embedded zc fit_predict mgr Hreach Hdim) as Hemb.
  assert (Hreturned :
    Forall (fun m => has_embedding m = true
                     /\ min_importance <= importance m
                     /\ exists m0, In m0 (memories mgr) /\ m = touch now m0) r).
  { destruct (retrieve_result_shape now mgr query top_k min_importance r Hr)
      as [->|(q & scored & Hsc & ->)]; [constructor|].
    unfold scored_memories in Hsc.
    destruct (Np.cosine_similarity q (present_embeddings (memories mgr)));
      [|discriminate].
    cbn [bind] in Hsc.
    pose proof (score_loop_passes _ _ _ _ Hsc) as Hp.
    pose proof (score_loop_members _ _ _ _ Hsc) as Hin.
    apply Forall_forall. intros m Hm.
    apply in_map_iff in Hm as (x & <- & Hx). apply slice_to_incl in Hx.
    apply (Permutation_in _ (Permutation_sym (sort_desc_perm _ scored))) in Hx.
    rewrite Forall_forall in Hp, Hin, Hemb.
    destruct x as [s [i m0]]. cbn [snd] in *.
    specialize (Hin _ Hx). cbn [snd] in Hin.
    apply enumerate_from_member in Hin.
    split; [exact (Hemb m0 Hin)|]. split; [exact (Hp _ Hx)|].
    now exists m0. }
  split; [exact Hreturned|]. split.
  { intros m0 Hm0 Hno Hin. rewrite Forall_forall in Hemb.
    rewrite (Hemb m0 Hm0) in Hno. discriminate. }
  assert (Hcase : memories mgr = [] \/ memories mgr <> []).
  { destruct (memories mgr); [now left|right; discriminate]. }
  destruct Hcase as [Hm|Hne]; [now left|]. right.
  assert (Hpe : present_embeddings (memories mgr) <> []).
  { rewrite (present_embeddings_embedded _ Hemb).
    destruct (memories mgr); [contradiction|discriminate]. }
  destruct (_generate_embedding (embedding_model mgr) query) as [records [q|e]] eqn:Hgen.
  2:{ exfalso. unfold retrieve_memories in Hr.
      destruct (memories mgr); [contradiction|]. rewrite Hgen in Hr. discriminate. }
  pose proof (built_store_aligned_when_returned zc fit_predict mgr now query top_k
                min_importance records q r Hreach Hdim Hgen Hr) as Hal.
  pose proof (scored_memories_aligned q min_importance _ Hal) as Hsc.
  destruct (retrieve_scored now mgr query top_k min_importance records q _
              Hne Hpe Hgen Hsc) as [Hres _].
  rewrite Hres in Hr. apply Ok_inj in Hr.
  exists records, q. eexists. split; [reflexivity|]. split; [exact Hsc|].
  split; [|now symmetry].
  apply Forall_forall. intros x Hx. apply in_map_iff in Hx as ([i m0] & <- & Hx).
  apply filter_In in Hx as [Hx _]. cbn [fst snd].
  pose proof (enumerate_nth_error _ _ _ _ Hx) as Hnth.
  rewrite Forall_forall in Hemb.
  split; [apply Hemb; eapply nth_error_In; exact Hnth|]. split; [exact Hnth|reflexivity].
Qed.

Lemma none_dimensioned : dimensioned None.
Proof. intros encode text v H. discriminate H. Qed.

(** C2 on the store of two notes appended through [add_memory]: the call
    returns both, and both carry an embedding. *)
Lemma C2_returned_entries_witness :
  exists r,
    snd (retrieve_memories 300 Scenario.two_notes Scenario.query 5 0) = Ok r
    /\ length r = 2%nat
    /\ Forall (fun m => has_embedding m = true /\ 0 <= importance m) r.
Proof.
  assert (Hdim : dimensioned (embedding_model Scenario.two_notes)).
  { rewrite two_notes_model. exact none_dimensioned. }
  destruct hash_embedding_query as (q & Hq & Lq).
  assert (Hgen : _generate_embedding (embedding_model Scenario.two_notes) Scenario.query
                 = ([], Ok q)).
  { rewrite two_notes_model. cbn [_generate_embedding]. now rewrite Hq. }
  pose proof (proj2 (built_store_invariant Scenario.stored_compress Scenario.all_noise
                       Scenario.two_notes two_notes_reachable) two_notes_model) as Hemb.
  rewrite <- Lq in Hemb.
  destruct (retrieve_returns_on_aligned 300 Scenario.two_notes Scenario.query 5 0 []
              q Hgen Hemb) as [r Hr].
  destruct (C2_returned_entries_are_embedded_and_scored_by_their_own_embedding
              Scenario.stored_compress Scenario.all_noise Scenario.two_notes
              two_notes_reachable Hdim 300 Scenario.query 5 0 r Hr)
    as (Hall & _ & Hscored).
  exists r. split; [exact Hr|]. split.
  - destruct hash_embedding_note as (v & Hv & _).
    destruct (two_notes_state v Hv) as [Hm _].
    destruct Hscored as [Hnil|(records' & q' & scored & _ & Hsc & _ & ->)].
    { rewrite Hm in Hnil. discriminate. }
    rewrite length_map, slice_to_length, sort_desc_length.
    unfold scored_memories in Hsc.
    destruct (Np.cosine_similarity q' (present_embeddings (memories Scenario.two_notes)));
      [|discriminate].
    cbn [bind] in Hsc. apply score_loop_filter in Hsc.
    rewrite <- (length_map snd scored), Hsc.
    unfold enumerate. rewrite filter_enumerate_length, Hm.
    cbn [filter]. rewrite !passes_zero;
      [reflexivity| |]; cbn [importance new_entry]; rewrite clamp_one; lra.
  - eapply Forall_impl; [|exact Hall]. intros m (H1 & H2 & _). now split.
Defined.

(** C8.  On every store built through the operations (the model's
    embeddings being never empty), whenever [cluster_memories(eps,
    min_samples)] is called with fewer candidate entries (entries with a
    present embedding) than [min_samples], it returns the single group of
    all live entries, and it does so whatever the clusterer would answer:
    no clustering is attempted. *)
Theorem C8_single_group_below_min_samples :
  forall zlib_compress fit_predict mgr,
    reachable zlib_compress fit_predict mgr ->
    dimensioned (embedding_model mgr) ->
    forall clusterer eps min_samples,
      (len (present_embeddings (memories mgr)) < min_samples)%Z ->
      cluster_memories clusterer mgr eps min_samples = Ok [memories mgr].
Proof.
  intros zc fit_predict mgr Hreach Hdim clusterer eps min_samples Hfew.
  pose proof (built_store_embedded zc fit_predict mgr Hreach Hdim) as Hemb.
  apply cluster_memories_few.
  rewrite (present_embeddings_embedded _ Hemb) in Hfew.
  unfold len in *. now rewrite length_map in Hfew.
Qed.

(** C8 on the store of two notes with [min_samples = 3], under a
    clusterer that would raise if it were called. *)
Lemma C8_single_group_witness :
  length (memories Scenario.two_notes) = 2%nat
  /\ cluster_memories (fun _ _ _ => Raise RuntimeError) Scenario.two_notes (3 / 10) 3
     = Ok [memories Scenario.two_notes].
Proof.
  destruct hash_embedding_note as (v & Hv & _).
  destruct (two_notes_state v Hv) as [Hm _].
  split; [rewrite Hm; reflexivity|].
  apply (C8_single_group_below_min_samples Scenario.stored_compress Scenario.all_noise
           Scenario.two_notes two_notes_reachable).
  - rewrite two_notes_model. exact none_dimensioned.
  - pose proof (present_embeddings_length (memories Scenario.two_notes)) as Hle.
    rewrite Hm in Hle at 2. cbn [length] in Hle. unfold len. lia.
Defined.

(** ** The node: conversation history and the bounded queue *)

Lemma slice_from_suffix A (k : Z) (l : list A) :
  exists older, l = older ++ Node.slice_from k l.
Proof.
  unfold Node.slice_from. destruct (0 <=? k)%Z.
  - exists (firstn (Z.to_nat k) l). now rewrite firstn_skipn.
  - exists (firstn (length l - Z.to_nat (- k)) l). now rewrite firstn_skipn.
Qed.

Lemma slice_from_last_length A (n : Z) (l : list A) :
  (0 < n)%Z -> len (Node.slice_from (- n) l) = Z.min n (len l).
Proof.
  intros Hn. unfold Node.slice_from, len.
  destruct (Z.leb_spec 0 (- n)); [lia|].
  rewrite length_skipn. lia.
Qed.

(** X15.  [get_conversation_history(limit)] returns a suffix of the
    queue: its last [min(limit, len)] messages when [limit > 0]; but the
    whole queue when [limit = 0], and the queue without its first
    [-limit] messages when [limit < 0]. *)
Theorem conversation_history_returns_a_suffix_of_the_queue :
  forall node limit,
    (exists older,
        Node.message_queue node = older ++ Node.get_conversation_history node limit)
    /\ ((0 < limit)%Z ->
        len (Node.get_conversation_history node limit)
        = Z.min limit (len (Node.message_queue node)))
    /\ (limit = 0%Z ->
        Node.get_conversation_history node limit = Node.message_queue node)
    /\ ((limit < 0)%Z ->
        Node.get_conversation_history node limit
        = skipn (Z.to_nat (- limit)) (Node.message_queue node)).
Proof.
  intros node limit. unfold Node.get_conversation_history.
  split; [|split; [|split]].
  - destruct (limit <? len (Node.message_queue node))%Z.
    + apply slice_from_suffix.
    + now exists [].
  - intros Hpos. destruct (Z.ltb_spec limit (len (Node.message_queue node))).
    + now apply slice_from_last_length.
    + lia.
  - intros ->. destruct (0 <? len (Node.message_queue node))%Z; reflexivity.
  - intros Hneg. destruct (Z.ltb_spec limit (len (Node.message_queue node))).
    + unfold Node.slice_from. destruct (Z.leb_spec 0 (- limit)); [reflexivity|lia].
    + unfold len in *. lia.
Qed.

Lemma str_eqb_eq a b : Node.str_eqb a b = true <-> a = b.
Proof.
  unfold Node.str_eqb. destruct (list_eq_dec Z.eq_dec a b); split; auto; discriminate.
Qed.

Lemma deque_append_bounded A (n : Z) (x : A) q :
  (0 <= n)%Z -> (len q <= n)%Z -> (len (Node.deque_append n x q) <= n)%Z.
Proof.
  intros Hn Hq. unfold Node.deque_append, len in *.
  destruct (Z.ltb_spec (Z.of_nat (length q)) n) as [Hlt|Hge].
  - rewrite length_app. cbn [length]. lia.
  - destruct q as [|y q]; cbn [app tl length] in *; [lia|].
    rewrite length_app. cbn [length]. lia.
Qed.

Lemma deque_append_last A (n : Z) (x : A) q :
  (0 < n)%Z ->
  Node.deque_append n x q = (if (len q <? n)%Z then q else tl q) ++ [x].
Proof.
  intros Hn. unfold Node.deque_append.
  destruct (Z.ltb_spec (len q) n) as [Hlt|Hge]; [reflexivity|].
  destruct q as [|y q]; [unfold len in Hge; cbn in Hge; lia|reflexivity].
Qed.

(** The outcomes of the body of [process_message]: the encryption raises
    and nothing has happened; or the message is queued and, if asked for,
    stored, and then either the store or Redis raises, or the message is
    published and handed to the agents' turn. *)
Lemma process_message_with_cases zc respond w node sender_id content encrypt
      store_in_memory trigger_agents :
  (exists e,
      Node.process_message_with zc respond w node sender_id content encrypt
        store_in_memory trigger_agents = (node, Raise e))
  \/ exists message_content mgr,
       (if encrypt then Node.encrypt_message w content else Ok content)
       = Ok message_content
       /\ (if store_in_memory
           then mgr = fst (add_memory zc (Node.memory_time w) (Node.io w)
                             (Node.memory_manager node) content 1
                             (Some [Node.text "message";
                                    Node.text "sender:" ++ sender_id]) sender_id)
           else mgr = Node.memory_manager node)
       /\ let message :=
            Node.mkMessage sender_id message_content (Node.message_time w)
              (Node.text "text") [] encrypt in
          let queued :=
            Node.with_memory_manager
              (Node.with_message_queue node
                 (Node.deque_append Node.MAX_MESSAGE_QUEUE_SIZE message
                    (Node.message_queue node))) mgr in
          let published := Node.with_channel queued (message :: Node.channel node) in
          (exists e,
              Node.process_message_with zc respond w node sender_id content encrypt
                store_in_memory trigger_agents = (queued, Raise e)
              /\ (store_in_memory = true
                  /\ snd (add_memory zc (Node.memory_time w) (Node.io w)
                            (Node.memory_manager node) content 1
                            (Some [Node.text "message";
                                   Node.text "sender:" ++ sender_id]) sender_id)
                     = Raise e
                  \/ Node.publish w = Raise e))
          \/ (Node.publish w = Ok tt
              /\ (store_in_memory = true ->
                  exists e,
                    snd (add_memory zc (Node.memory_time w) (Node.io w)
                           (Node.memory_manager node) content 1
                           (Some [Node.text "message";
                                  Node.text "sender:" ++ sender_id]) sender_id)
                    = Ok e)
              /\ Node.process_message_with zc respond w node sender_id content encrypt
                   store_in_memory trigger_agents
                 = ((if trigger_agents then respond published message else published),
                    Ok message)).
Proof.
  unfold Node.process_message_with.
  destruct (if encrypt then Node.encrypt_message w content else Ok content)
    as [message_content|e]; [|left; now exists e].
  right. cbv zeta. cbn [Node.memory_manager Node.with_message_queue].
  destruct store_in_memory.
  - destruct (add_memory zc (Node.memory_time w) (Node.io w) (Node.memory_manager node)
                content 1 (Some [Node.text "message"; Node.text "sender:" ++ sender_id])
                sender_id) as [mgr [e|err]] eqn:Hadd.
    + exists message_content, mgr. split; [reflexivity|]. split; [reflexivity|].
      cbn [bind fst snd]. destruct (Node.publish w) as [[]|err].
      * right. split; [reflexivity|]. split; [now exists e|reflexivity].
      * left. exists err. split; [reflexivity|now right].
    + exists message_content, mgr. split; [reflexivity|]. split; [reflexivity|].
      cbn [bind fst snd]. left. exists err. split; [reflexivity|left; now split].
  - exists message_content, (Node.memory_manager node).
    split; [reflexivity|]. split; [reflexivity|].
    cbn [fst snd]. destruct (Node.publish w) as [[]|err].
    + right. split; [reflexivity|]. split; [discriminate|]. destruct node; reflexivity.
    + left. exists err. split; [destruct node; reflexivity|now right].
Qed.

(** The body of [process_message] without the agents' turn: either it
    raises and nothing is published, or its message is published; the
    queue stays within its bound either way. *)
Lemma process_message_with_effect zc respond w node sender_id content encrypt
      store_in_memory :
  let out := Node.process_message_with zc respond w node sender_id content encrypt
               store_in_memory false in
  ((exists e, snd out = Raise e) /\ Node.channel (fst out) = Node.channel node
   \/ exists message,
        snd out = Ok message
        /\ Node.channel (fst out) = message :: Node.channel node
        /\ Node.sender message = sender_id /\ Node.encrypted message = encrypt)
  /\ (Node.bounded node -> Node.bounded (fst out))
  /\ Node.agents (fst out) = Node.agents node.
Proof.
  destruct (process_message_with_cases zc respond w node sender_id content encrypt
              store_in_memory false)
    as [[e ->]|(message_content & mgr & _ & _ & [(e & -> & _)|(_ & _ & ->)])];
    cbv zeta; cbn [fst snd].
  - split; [left; split; [now exists e|reflexivity]|]. now split.
  - split; [left; split; [now exists e|reflexivity]|]. split; [|reflexivity].
    unfold Node.bounded. cbn [Node.message_queue Node.with_memory_manager
                                Node.with_message_queue].
    now apply deque_append_bounded.
  - split; [right; eexists; repeat split|]. split; [|reflexivity].
    unfold Node.bounded. cbn [Node.message_queue Node.with_memory_manager
                                Node.with_message_queue Node.with_channel].
    now apply deque_append_bounded.
Qed.

Lemma respond_all_effect exn_text zc turns message content todo :
  forall node,
    (exists replies,
        Node.channel (Node.respond_all exn_text zc turns message content todo node)
        = replies ++ Node.channel node
        /\ Node.subsequence
             (map Node.sender (rev replies))
             (filter (fun k => negb (Node.str_eqb (Node.sender message) k))
                     (map fst todo))
        /\ Forall (fun m => Node.encrypted m = Node.encrypted message) replies)
    /\ (Node.bounded node ->
        Node.bounded (Node.respond_all exn_text zc turns message content todo node)).
Proof.
  induction todo as [|[agent_id agent] rest IH]; intros node; cbn [Node.respond_all].
  - split; [|auto]. exists []. repeat split; constructor.
  - cbn [map fst filter].
    destruct (Node.str_eqb (Node.sender message) agent_id); cbn [negb]; [apply IH|].
    destruct (Node.generate_response exn_text (Node.chat (turns agent_id)) agent content
                (Some (Node.slice_from (- Node.MAX_CONTEXT_MESSAGES)
                         (Node.message_queue node))))
      as [[agent' records] response_content].
    set (asked := Node.node_logged
                    (Node.with_agents node
                       (Node.dict_set agent_id agent' (Node.agents node))) records).
    pose proof (process_message_with_effect zc (fun n _ => n)
                  (Node.world (turns agent_id)) asked agent_id response_content
                  (Node.encrypted message) true) as Hbody.
    cbv zeta in Hbody.
    destruct (Node.process_message_with zc (fun n _ => n) (Node.world (turns agent_id))
                asked agent_id response_content (Node.encrypted message) true false)
      as [answered processed].
    cbn [fst snd] in Hbody. destruct Hbody as (Hchannel & Hbound & _).
    set (next := match processed with
                 | Ok _ => answered
                 | Raise e =>
                     Node.node_logged answered
                       [LogError "Agent failed to generate response" e]
                 end).
    assert (Hnext : Node.channel next = Node.channel answered
                    /\ Node.message_queue next = Node.message_queue answered).
    { unfold next. destruct processed; split; reflexivity. }
    destruct Hnext as [Hnc Hnq].
    destruct (IH next) as [(replies & Hr & Hsub & Hall) Hb].
    split.
    + destruct Hchannel as [[_ Hsame]|(reply & _ & Hpub & Hsender & Henc)].
      * exists replies. rewrite Hr, Hnc, Hsame. split; [reflexivity|].
        split; [now constructor|exact Hall].
      * exists (replies ++ [reply]). rewrite Hr, Hnc, Hpub, <- app_assoc.
        split; [reflexivity|]. split.
        -- rewrite rev_app_distr. cbn [rev app map]. rewrite Hsender.
           now constructor.
        -- apply Forall_app. split; [exact Hall|]. now constructor.
    + intros Hnode. apply Hb. unfold Node.bounded. rewrite Hnq. now apply Hbound.
Qed.

Lemma process_with_agents_effect exn_text zc fd turns node message :
  (exists replies,
      Node.channel (Node._process_with_agents exn_text zc fd turns node message)
      = replies ++ Node.channel node
      /\ Node.subsequence
           (map Node.sender (rev replies))
           (filter (fun k => negb (Node.str_eqb (Node.sender message) k))
                   (map fst (Node.agents node)))
      /\ Forall (fun m => Node.encrypted m = Node.encrypted message) replies)
  /\ (Node.bounded node ->
      Node.bounded (Node._process_with_agents exn_text zc fd turns node message)).
Proof.
  unfold Node._process_with_agents.
  destruct (if Node.encrypted message
            then Node.decrypt_message fd (Node.content message)
            else Ok (Node.content message)) as [content|e].
  - apply respond_all_effect.
  - split; [|auto]. exists []. split; [reflexivity|]. split; [|constructor].
    cbn [rev map]. induction (map fst (Node.agents node)) as [|k ks IH];
      cbn [filter]; [constructor|].
    destruct (negb _); [now constructor|exact IH].
Qed.

(** X16.  The message queue never exceeds [MAX_MESSAGE_QUEUE_SIZE]:
    [process_message], agents' answers included, leaves a queue of at
    most 1000 messages when it found one; and a call without the agents'
    turn that returns has put its message last in the queue, having
    dropped the oldest message if the queue was full. *)
Theorem message_queue_stays_within_its_bound :
  forall exn_text zlib_compress fernet_decrypt w turns node sender_id content encrypt
         store_in_memory trigger_agents,
    (len (Node.message_queue node) <= 1000)%Z ->
    (len (Node.message_queue
            (fst (Node.process_message exn_text zlib_compress fernet_decrypt w turns node
                    sender_id content encrypt store_in_memory trigger_agents)))
     <= 1000)%Z
    /\ (forall message,
          trigger_agents = false ->
          snd (Node.process_message exn_text zlib_compress fernet_decrypt w turns node
                 sender_id content encrypt store_in_memory trigger_agents) = Ok message ->
          Node.message_queue
            (fst (Node.process_message exn_text zlib_compress fernet_decrypt w turns node
                    sender_id content encrypt store_in_memory trigger_agents))
          = (if (len (Node.message_queue node) <? 1000)%Z
             then Node.message_queue node else tl (Node.message_queue node))
            ++ [message]).
Proof.
  intros exn_text zc fd w turns node sender_id content encrypt store_in_memory
         trigger_agents Hq.
  unfold Node.process_message.
  destruct (process_message_with_cases zc (Node._process_with_agents exn_text zc fd turns)
              w node sender_id content encrypt store_in_memory trigger_agents)
    as [[e ->]|(message_content & mgr & _ & _ & [(e & -> & _)|(_ & _ & ->)])];
    cbv zeta; cbn [fst snd].
  - split; [exact Hq|discriminate].
  - split; [|discriminate].
    cbn [Node.message_queue Node.with_memory_manager Node.with_message_queue].
    now apply deque_append_bounded.
  - set (message := Node.mkMessage sender_id message_content (Node.message_time w)
                      (Node.text "text") [] encrypt).
    set (published := Node.with_channel _ _).
    assert (Hb : Node.bounded published).
    { unfold Node.bounded, published.
      cbn [Node.message_queue Node.with_memory_manager Node.with_message_queue
             Node.with_channel].
      now apply deque_append_bounded. }
    split.
    + destruct trigger_agents; [|exact Hb].
      now apply (process_with_agents_effect exn_text zc fd turns published message).
    + intros m -> Hm. apply Ok_inj in Hm. subst m.
      unfold published.
      cbn [Node.message_queue Node.with_memory_manager Node.with_message_queue
             Node.with_channel].
      now apply deque_append_last.
Qed.

(** X16 on a first message to a node with one agent. *)
Lemma message_queue_witness :
  (len (Node.message_queue
          (fst (Node.process_message Scenario.exn_name Scenario.stored_compress
                  Scenario.unshift Scenario.calm Scenario.obliging Scenario.staffed
                  Scenario.tester Scenario.note false true true)))
   <= 1000)%Z.
Proof.
  apply (message_queue_stays_within_its_bound Scenario.exn_name Scenario.stored_compress
           Scenario.unshift Scenario.calm Scenario.obliging Scenario.staffed
           Scenario.tester Scenario.note false true true).
  vm_compute. discriminate.
Defined.

(** X17.  Agents answer at most once, never their own message, and their
    answers are not answered: when [process_message] returns, the
    messages it has published are its own message followed by answers
    whose senders are, in the order of [self.agents], some of the agents
    other than the sender, each answer encrypted exactly when the message
    was; when it raises, it has published nothing. *)
Theorem agents_answer_once_and_never_themselves :
  forall exn_text zlib_compress fernet_decrypt w turns node sender_id content encrypt
         store_in_memory,
    (forall message,
        snd (Node.process_message exn_text zlib_compress fernet_decrypt w turns node
               sender_id content encrypt store_in_memory true) = Ok message ->
        Node.sender message = sender_id
        /\ exists answers,
             Node.channel
               (fst (Node.process_message exn_text zlib_compress fernet_decrypt w turns
                       node sender_id content encrypt store_in_memory true))
             = answers ++ message :: Node.channel node
             /\ Node.subsequence
                  (map Node.sender (rev answers))
                  (filter (fun k => negb (Node.str_eqb sender_id k))
                          (map fst (Node.agents node)))
             /\ Forall (fun m => Node.encrypted m = encrypt) answers)
    /\ (forall e,
          snd (Node.process_message exn_text zlib_compress fernet_decrypt w turns node
                 sender_id content encrypt store_in_memory true) = Raise e ->
          Node.channel
            (fst (Node.process_message exn_text zlib_compress fernet_decrypt w turns node
                    sender_id content encrypt store_in_memory true))
          = Node.channel node).
Proof.
  intros exn_text zc fd w turns node sender_id content encrypt store_in_memory.
  unfold Node.process_message.
  destruct (process_message_with_cases zc (Node._process_with_agents exn_text zc fd turns)
              w node sender_id content encrypt store_in_memory true)
    as [[e ->]|(message_content & mgr & _ & _ & [(e & -> & _)|(_ & _ & ->)])];
    cbv zeta; cbn [fst snd].
  - split; [discriminate|reflexivity].
  - split; [discriminate|reflexivity].
  - split; [|discriminate].
    intros m Hm. apply Ok_inj in Hm. subst m. split; [reflexivity|].
    set (message := Node.mkMessage sender_id message_content (Node.message_time w)
                      (Node.text "text") [] encrypt).
    set (published := Node.with_channel _ _).
    destruct (process_with_agents_effect exn_text zc fd turns published message)
      as [(answers & Hc & Hsub & Hall) _].
    exists answers. split; [exact Hc|]. split; [exact Hsub|exact Hall].
Qed.

(** X17 on a message to a node with one agent whose client answers: the
    agent's answer is published after the message, and nothing else. *)
Lemma agents_answer_witness :
  exists message,
    snd (Node.process_message Scenario.exn_name Scenario.stored_compress
           Scenario.unshift Scenario.calm Scenario.obliging Scenario.staffed
           Scenario.tester Scenario.note false true true) = Ok message
    /\ Node.sender message = Scenario.tester
    /\ exists answers,
         Node.channel
           (fst (Node.process_message Scenario.exn_name Scenario.stored_compress
                   Scenario.unshift Scenario.calm Scenario.obliging Scenario.staffed
                   Scenario.tester Scenario.note false true true))
         = answers ++ message :: Node.channel Scenario.staffed
         /\ Node.subsequence (map Node.sender (rev answers)) [Node.text "bot"]
         /\ length answers = 1%nat.
Proof.
  pose proof (agents_answer_once_and_never_themselves Scenario.exn_name
                Scenario.stored_compress Scenario.unshift Scenario.calm
                Scenario.obliging Scenario.staffed Scenario.tester Scenario.note
                false true) as [Hok _].
  assert (Hreturns :
    exists message,
      snd (Node.process_message Scenario.exn_name Scenario.stored_compress
             Scenario.unshift Scenario.calm Scenario.obliging Scenario.staffed
             Scenario.tester Scenario.note false true true) = Ok message).
  { vm_compute. eexists. reflexivity. }
  destruct Hreturns as [message Hm]. exists message. split; [exact Hm|].
  destruct (Hok message Hm) as (Hs & answers & Hc & Hsub & _).
  split; [exact Hs|]. exists answers. split; [exact Hc|]. split; [exact Hsub|].
  assert (Hlen :
    length (Node.channel
              (fst (Node.process_message Scenario.exn_name Scenario.stored_compress
                      Scenario.unshift Scenario.calm Scenario.obliging Scenario.staffed
                      Scenario.tester Scenario.note false true true))) = 2%nat).
  { vm_compute. reflexivity. }
  rewrite Hc, length_app in Hlen. cbn [length Node.channel Scenario.staffed] in Hlen.
  change (length (Node.channel Scenario.staffed)) with 0%nat in Hlen. lia.
Defined.

(** ** The node: statistics, the prompt, the cipher *)

Lemma count_types ps :
  (Node.count_type Node.HUMAN ps + Node.count_type Node.AI_AGENT ps = len ps)%Z.
Proof.
  unfold Node.count_type, len.
  induction ps as [|[k p] ps IH]; cbn [filter snd length]; [reflexivity|].
  destruct (Node.type p); cbn [Node.is_type length]; lia.
Qed.

(** X19.  The node's statistics: [participants] is the sum of
    [human_participants] and [ai_agents], both non-negative, whatever the
    participants are; [messages_in_queue] is the length of the queue; and
    [memory_stats] is what the store's [get_stats] returns. *)
Theorem node_stats_count_every_participant_once :
  forall available node,
    exists total humans agents,
      Node.stat_lookup "participants" (Node.get_stats available node)
      = Some (Node.StatInt total)
      /\ Node.stat_lookup "human_participants" (Node.get_stats available node)
         = Some (Node.StatInt humans)
      /\ Node.stat_lookup "ai_agents" (Node.get_stats available node)
         = Some (Node.StatInt agents)
      /\ (total = humans + agents)%Z /\ (0 <= humans)%Z /\ (0 <= agents)%Z
      /\ Node.stat_lookup "messages_in_queue" (Node.get_stats available node)
         = Some (Node.StatInt (len (Node.message_queue node)))
      /\ Node.stat_lookup "memory_stats" (Node.get_stats available node)
         = Some (Node.StatDict (get_stats available (Node.memory_manager node))).
Proof.
  intros available node.
  exists (len (Node.participants node)),
         (Node.count_type Node.HUMAN (Node.participants node)),
         (Node.count_type Node.AI_AGENT (Node.participants node)).
  split; [reflexivity|]. split; [reflexivity|]. split; [reflexivity|].
  split; [symmetry; apply count_types|].
  split; [unfold Node.count_type, len; lia|].
  split; [unfold Node.count_type, len; lia|].
  split; reflexivity.
Qed.

Lemma slice_from_last A (n : nat) (l : list A) :
  Node.slice_from (- Z.of_nat (S n)) l = skipn (length l - S n) l.
Proof.
  unfold Node.slice_from.
  destruct (Z.leb_spec 0 (- Z.of_nat (S n))); [lia|].
  now rewrite Z.opp_involutive, Nat2Z.id.
Qed.

Lemma skipn_last_of_last A (a b : nat) (l : list A) :
  (a <= b)%nat ->
  skipn (length (skipn (length l - b) l) - a) (skipn (length l - b) l)
  = skipn (length l - a) l.
Proof.
  intros Hab. rewrite skipn_skipn, length_skipn. f_equal. lia.
Qed.

Lemma prompt_of_context agent message ctx :
  Node.prompt agent message (Some ctx)
  = Node.mkChatMessage Node.System (Node.system_prompt agent)
    :: map (fun ctx_msg =>
              Node.mkChatMessage
                (if negb (Node.str_eqb (Node.sender ctx_msg) (Node.agent_id agent))
                 then Node.User else Node.Assistant)
                (Node.content ctx_msg))
           (Node.slice_from (- Node.AI_AGENT_CONTEXT_WINDOW) ctx)
    ++ [Node.mkChatMessage Node.User message].
Proof. destruct ctx; reflexivity. Qed.

(** X20.  The prompt an agent sends: the system prompt first, the
    message being answered last as a [user] message, and between them at
    most five messages: the last five of the context, the agent's own as
    [assistant] and all others as [user].  The node hands over the last
    ten messages of its queue, of which the last five are used: the
    prompt is the one built from the last five messages of the queue. *)
Theorem prompt_holds_the_last_five_context_messages :
  forall agent message context queue,
    hd_error (Node.prompt agent message context)
    = Some (Node.mkChatMessage Node.System (Node.system_prompt agent))
    /\ last (Node.prompt agent message context) (Node.mkChatMessage Node.System [])
       = Node.mkChatMessage Node.User message
    /\ (2 <= length (Node.prompt agent message context) <= 7)%nat
    /\ Node.prompt agent message
         (Some (Node.slice_from (- Node.MAX_CONTEXT_MESSAGES) queue))
       = Node.prompt agent message (Some (skipn (length queue - 5) queue))
    /\ (forall ctx_msg,
          In ctx_msg (skipn (length queue - 5) queue) ->
          In (Node.mkChatMessage
                (if Node.str_eqb (Node.sender ctx_msg) (Node.agent_id agent)
                 then Node.Assistant else Node.User)
                (Node.content ctx_msg))
             (Node.prompt agent message
                (Some (Node.slice_from (- Node.MAX_CONTEXT_MESSAGES) queue)))).
Proof.
  intros agent message context queue.
  assert (Hshape : exists middle,
             Node.prompt agent message context
             = Node.mkChatMessage Node.System (Node.system_prompt agent)
               :: middle ++ [Node.mkChatMessage Node.User message]
             /\ (length middle <= 5)%nat).
  { destruct context as [ctx|]; [|exists []; split; [reflexivity|cbn; lia]].
    rewrite prompt_of_context. eexists. split; [reflexivity|].
    rewrite length_map.
    change (- Node.AI_AGENT_CONTEXT_WINDOW)%Z with (- Z.of_nat 5)%Z.
    rewrite slice_from_last, length_skipn. lia. }
  destruct Hshape as (middle & -> & Hlen).
  split; [reflexivity|]. split.
  { change (Node.mkChatMessage Node.System (Node.system_prompt agent)
            :: middle ++ [Node.mkChatMessage Node.User message])
      with ((Node.mkChatMessage Node.System (Node.system_prompt agent) :: middle)
            ++ [Node.mkChatMessage Node.User message]).
    apply last_last. }
  split.
  { cbn [length]. rewrite length_app. cbn [length]. lia. }
  assert (Hwindow :
    Node.slice_from (- Node.AI_AGENT_CONTEXT_WINDOW)
      (Node.slice_from (- Node.MAX_CONTEXT_MESSAGES) queue)
    = skipn (length queue - 5) queue).
  { change (- Node.AI_AGENT_CONTEXT_WINDOW)%Z with (- Z.of_nat 5)%Z.
    change (- Node.MAX_CONTEXT_MESSAGES)%Z with (- Z.of_nat 10)%Z.
    rewrite !slice_from_last. apply skipn_last_of_last. lia. }
  assert (Hself :
    Node.slice_from (- Node.AI_AGENT_CONTEXT_WINDOW) (skipn (length queue - 5) queue)
    = skipn (length queue - 5) queue).
  { change (- Node.AI_AGENT_CONTEXT_WINDOW)%Z with (- Z.of_nat 5)%Z.
    rewrite slice_from_last, length_skipn.
    replace (length queue - (length queue - 5) - 5)%nat with 0%nat by lia.
    reflexivity. }
  split.
  - rewrite !prompt_of_context, Hwindow, Hself. reflexivity.
  - intros ctx_msg Hin. rewrite prompt_of_context, Hwindow.
    right. apply in_or_app. left.
    apply in_map_iff. exists ctx_msg. split; [|exact Hin].
    now destruct (Node.str_eqb (Node.sender ctx_msg) (Node.agent_id agent)).
Qed.

Lemma encode_ascii s :
  Forall (fun c => (0 <= c < 128)%Z) s -> Utf8.encode s = Ok s.
Proof.
  induction 1 as [|c s Hc _ IH]; cbn [Utf8.encode]; [reflexivity|].
  unfold Utf8.encode_point.
  destruct (Z.ltb_spec c 0); [lia|]. destruct (Z.ltb_spec c 128); [|lia].
  cbn [bind]. rewrite IH. reflexivity.
Qed.

Lemma decode_ascii bs :
  Forall (fun b => (0 <= b < 128)%Z) bs -> Utf8.decode bs = Ok bs.
Proof.
  induction 1 as [|b bs Hb _ IH]; [reflexivity|].
  rewrite decode_cons.
  destruct (Z.leb_spec 0 b); [|lia]. destruct (Z.ltb_spec b 128); [|lia].
  cbn [andb]. rewrite IH. reflexivity.
Qed.

(** X21.  [decrypt_message(encrypt_message(content)) == content] for
    every content that UTF-8 can encode, given that the cipher's token
    for the encoded content is ASCII (Fernet tokens are base64) and that
    [cipher.decrypt] returns the encoded content for it; on a content
    with a lone surrogate [encrypt_message] raises
    [UnicodeEncodeError]. *)
Theorem message_encryption_round_trip :
  forall fernet_decrypt w content,
    (forall encoded,
        Utf8.encode content = Ok encoded ->
        Forall (fun b => (0 <= b < 128)%Z) (Node.fernet_encrypt w encoded)
        /\ fernet_decrypt (Node.fernet_encrypt w encoded) = Ok encoded) ->
    (Forall Utf8.scalar content ->
     (token <- Node.encrypt_message w content ;;
      Node.decrypt_message fernet_decrypt token) = Ok content)
    /\ (Exists (fun c => Utf8.is_surrogate c = true) content ->
        Node.encrypt_message w content = Raise UnicodeEncodeError).
Proof.
  intros fd w content Hcipher. split.
  - intros Hc. destruct (encode_scalar content Hc) as [encoded He].
    destruct (Hcipher encoded He) as [Hascii Hround].
    unfold Node.encrypt_message, Node.decrypt_message.
    rewrite He. cbn [bind]. rewrite (decode_ascii _ Hascii). cbn [bind].
    rewrite (encode_ascii _ Hascii). cbn [bind]. rewrite Hround. cbn [bind].
    now apply decode_encode.
  - intros Hs. unfold Node.encrypt_message. now rewrite (encode_surrogate content Hs).
Qed.

(** X21 on the text "note" under the stand-in cipher. *)
Lemma message_encryption_witness :
  (token <- Node.encrypt_message Scenario.calm Scenario.note ;;
   Node.decrypt_message Scenario.unshift token) = Ok Scenario.note.
Proof.
  apply (message_encryption_round_trip Scenario.unshift Scenario.calm Scenario.note).
  - intros encoded He. change (Utf8.encode Scenario.note) with (Ok Scenario.note) in He.
    apply Ok_inj in He. subst encoded. split.
    + repeat constructor; cbn; lia.
    + reflexivity.
  - repeat constructor; cbn; lia.
Defined.

(** ** The node: a message is stored before it is published *)

Lemma subsequence_nil_l A (l : list A) : Node.subsequence [] l.
Proof. induction l; constructor; assumption. Qed.

Lemma subsequence_app A (s1 s2 l1 l2 : list A) :
  Node.subsequence s1 l1 -> Node.subsequence s2 l2 ->
  Node.subsequence (s1 ++ s2) (l1 ++ l2).
Proof.
  intros H1 H2. induction H1; cbn [app]; [exact H2| |]; now constructor.
Qed.

Lemma add_memory_appended zc now io mgr content x tags source e :
  snd (add_memory zc now io mgr content x tags source) = Ok e ->
  memories (fst (add_memory zc now io mgr content x tags source)) = memories mgr ++ [e]
  /\ DiffMem.source e = source.
Proof.
  intros H.
  destruct (_generate_embedding (embedding_model mgr) content) as [records [v|err]] eqn:G.
  - destruct (add_memory_generated zc now io mgr content x tags source records v G)
      as (Hres & Hidx & _).
    cbv zeta in Hres, Hidx. rewrite Hres in H. apply Ok_inj in H. subst e.
    split; [exact Hidx|reflexivity].
  - destruct (add_memory_raises zc now io mgr content x tags source records err G)
      as (Hres & _).
    rewrite Hres in H. discriminate.
Qed.

Lemma stored_then_published_refl node node' :
  Node.memory_manager node' = Node.memory_manager node ->
  Node.channel node' = Node.channel node ->
  Node.stored_then_published node node'.
Proof.
  intros Hm Hc. exists [], []. rewrite Hm, Hc, app_nil_r. repeat split. constructor.
Qed.

Lemma stored_then_published_trans a b c :
  Node.stored_then_published a b -> Node.stored_then_published b c ->
  Node.stored_then_published a c.
Proof.
  intros (e1 & p1 & M1 & C1 & S1) (e2 & p2 & M2 & C2 & S2).
  exists (e1 ++ e2), (p2 ++ p1). rewrite M2, M1, C2, C1, !app_assoc.
  split; [reflexivity|]. split; [reflexivity|].
  rewrite rev_app_distr, !map_app. now apply subsequence_app.
Qed.

Lemma process_message_with_stores_first zc respond w node sender_id content encrypt :
  Node.stored_then_published node
    (fst (Node.process_message_with zc respond w node sender_id content encrypt
            true false)).
Proof.
  destruct (process_message_with_cases zc respond w node sender_id content encrypt
              true false)
    as [[e ->]|(message_content & mgr & _ & Hmgr & [(e & -> & _)|(_ & Hadd & ->)])];
    cbv zeta; cbn [fst snd].
  - now apply stored_then_published_refl.
  - subst mgr.
    destruct (add_memory_index zc (Node.memory_time w) (Node.io w)
                (Node.memory_manager node) content 1
                (Some [Node.text "message"; Node.text "sender:" ++ sender_id]) sender_id)
      as [Hsame|[v Hmore]].
    + exists [], []. cbn [Node.memory_manager Node.with_memory_manager Node.channel
                           Node.with_message_queue].
      rewrite Hsame, app_nil_r. repeat split. constructor.
    + exists [new_entry (Node.memory_time w) content 1
                (Some [Node.text "message"; Node.text "sender:" ++ sender_id])
                sender_id v], [].
      cbn [Node.memory_manager Node.with_memory_manager Node.channel
             Node.with_message_queue].
      rewrite Hmore. repeat split. apply subsequence_nil_l.
  - subst mgr. destruct (Hadd eq_refl) as [e He].
    destruct (add_memory_appended _ _ _ _ _ _ _ _ _ He) as [Hidx Hsrc].
    exists [e], [Node.mkMessage sender_id message_content (Node.message_time w)
                   (Node.text "text") [] encrypt].
    cbn [Node.memory_manager Node.with_memory_manager Node.channel
           Node.with_message_queue Node.with_channel].
    rewrite Hidx. split; [reflexivity|]. split; [reflexivity|].
    cbn [rev app map Node.sender]. rewrite Hsrc. repeat constructor.
Qed.

Lemma respond_all_stores_first exn_text zc turns message content todo :
  forall node,
    Node.stored_then_published node
      (Node.respond_all exn_text zc turns message content todo node).
Proof.
  induction todo as [|[agent_id agent] rest IH]; intros node; cbn [Node.respond_all].
  - now apply stored_then_published_refl.
  - destruct (Node.str_eqb (Node.sender message) agent_id); [apply IH|].
    destruct (Node.generate_response exn_text (Node.chat (turns agent_id)) agent content
                (Some (Node.slice_from (- Node.MAX_CONTEXT_MESSAGES)
                         (Node.message_queue node))))
      as [[agent' records] response_content].
    set (asked := Node.node_logged
                    (Node.with_agents node
                       (Node.dict_set agent_id agent' (Node.agents node))) records).
    pose proof (process_message_with_stores_first zc (fun n _ => n)
                  (Node.world (turns agent_id)) asked agent_id response_content
                  (Node.encrypted message)) as Hbody.
    destruct (Node.process_message_with zc (fun n _ => n) (Node.world (turns agent_id))
                asked agent_id response_content (Node.encrypted message) true false)
      as [answered processed].
    cbn [fst] in Hbody.
    eapply stored_then_published_trans; [|apply IH].
    eapply stored_then_published_trans;
      [apply (stored_then_published_refl node asked); reflexivity|].
    eapply stored_then_published_trans; [exact Hbody|].
    apply stored_then_published_refl; destruct processed; reflexivity.
Qed.

Lemma process_with_agents_stores_first exn_text zc fd turns node message :
  Node.stored_then_published node
    (Node._process_with_agents exn_text zc fd turns node message).
Proof.
  unfold Node._process_with_agents.
  destruct (if Node.encrypted message
            then Node.decrypt_message fd (Node.content message)
            else Ok (Node.content message)) as [content|e].
  - apply respond_all_stores_first.
  - now apply stored_then_published_refl.
Qed.

(** The agents' turn follows the body of [process_message] when the body
    returns. *)
Lemma process_message_with_trigger zc respond w node sender_id content encrypt
      store_in_memory :
  Node.process_message_with zc respond w node sender_id content encrypt
    store_in_memory true
  = match Node.process_message_with zc respond w node sender_id content encrypt
            store_in_memory false with
    | (node', Ok message) => (respond node' message, Ok message)
    | (node', Raise e) => (node', Raise e)
    end.
Proof.
  unfold Node.process_message_with.
  destruct (if encrypt then Node.encrypt_message w content else Ok content);
    [|reflexivity].
  cbv zeta. destruct store_in_memory.
  - destruct (add_memory _ _ _ _ _ _ _ _) as [mgr [e|err]]; cbn [bind];
      [|reflexivity].
    destruct (Node.publish w); reflexivity.
  - destruct (Node.publish w); reflexivity.
Qed.

(** X22.  A message is stored before it is published: after
    [process_message] with [store_in_memory] set, the agents' turn
    included, the memory index is the index before followed by new
    entries, the channel holds the messages published before and, ahead
    of them, the new ones, and to every new message, in the order of
    publishing, belongs a new entry whose source is the message's sender
    (an entry whose message Redis refused stays in the index). *)
Theorem every_published_message_was_stored_first :
  forall exn_text zlib_compress fernet_decrypt w turns node sender_id content encrypt
         trigger_agents,
    exists entries published,
      memories
        (Node.memory_manager
           (fst (Node.process_message exn_text zlib_compress fernet_decrypt w turns node
                   sender_id content encrypt true trigger_agents)))
      = memories (Node.memory_manager node) ++ entries
      /\ Node.channel
           (fst (Node.process_message exn_text zlib_compress fernet_decrypt w turns node
                   sender_id content encrypt true trigger_agents))
         = published ++ Node.channel node
      /\ Node.subsequence (map Node.sender (rev published)) (map source entries)
      /\ (length published <= length entries)%nat.
Proof.
  intros exn_text zc fd w turns node sender_id content encrypt trigger_agents.
  assert (H : Node.stored_then_published node
                (fst (Node.process_message exn_text zc fd w turns node sender_id content
                        encrypt true trigger_agents))).
  { pose proof (process_message_with_stores_first zc
                  (Node._process_with_agents exn_text zc fd turns) w node sender_id
                  content encrypt) as Hbody.
    unfold Node.process_message.
    destruct trigger_agents; [|exact Hbody].
    rewrite process_message_with_trigger.
    destruct (Node.process_message_with zc (Node._process_with_agents exn_text zc fd turns)
                w node sender_id content encrypt true false) as [node' [message|e]];
      cbn [fst] in *; [|exact Hbody].
    eapply stored_then_published_trans; [exact Hbody|].
    apply process_with_agents_stores_first. }
  destruct H as (entries & published & Hm & Hc & Hs).
  exists entries, published. repeat split; try assumption.
  clear -Hs. rewrite <- (length_map source entries), <- (length_rev published),
    <- (length_map Node.sender (rev published)).
  induction Hs; cbn [length]; lia.
Qed.

(** X22 on a message to a node with one agent that answers: two messages
    are published and two entries stored. *)
Lemma stored_first_witness :
  exists entries published,
    memories
      (Node.memory_manager
         (fst (Node.process_message Scenario.exn_name Scenario.stored_compress
                 Scenario.unshift Scenario.calm Scenario.obliging Scenario.staffed
                 Scenario.tester Scenario.note false true true)))
    = entries
    /\ Node.channel
         (fst (Node.process_message Scenario.exn_name Scenario.stored_compress
                 Scenario.unshift Scenario.calm Scenario.obliging Scenario.staffed
                 Scenario.tester Scenario.note false true true))
       = published
    /\ map Node.sender (rev published) = [Scenario.tester; Node.text "bot"]
    /\ Node.subsequence (map Node.sender (rev published)) (map source entries).
Proof.
  destruct (every_published_message_was_stored_first Scenario.exn_name
              Scenario.stored_compress Scenario.unshift Scenario.calm Scenario.obliging
              Scenario.staffed Scenario.tester Scenario.note false true)
    as (entries & published & Hm & Hc & Hs & _).
  exists entries, published.
  split; [exact Hm|]. split; [rewrite Hc; apply app_nil_r|].
  split; [|exact Hs].
  assert (Hsenders :
    map Node.sender
      (rev (Node.channel
              (fst (Node.process_message Scenario.exn_name Scenario.stored_compress
                      Scenario.unshift Scenario.calm Scenario.obliging Scenario.staffed
                      Scenario.tester Scenario.note false true true))))
    = [Scenario.tester; Node.text "bot"]).
  { vm_compute. reflexivity. }
  rewrite Hc in Hsenders.
  change (Node.channel Scenario.staffed) with (@nil Node.Message) in Hsenders.
  rewrite app_nil_r in Hsenders. exact Hsenders.
Defined.

(** ** The node: what the store is given *)

Lemma generate_embedding_encoded model text encoded :
  Utf8.encode text = Ok encoded ->
  exists records v, _generate_embedding model text = (records, Ok v).
Proof.
  intros He. pose proof (hash_embedding_encoded text encoded He) as Hh.
  destruct model as [encode|]; cbn [_generate_embedding].
  - destruct (encode text) as [v|e]; [now exists [], v|].
    rewrite Hh. now do 2 eexists.
  - rewrite Hh. now do 2 eexists.
Qed.

(** The body of [process_message] on a message to encrypt and store,
    when the cipher's token is text and the store takes the content. *)
Lemma process_encrypted_body zc respond w node sender_id content encoded token e :
  Utf8.encode content = Ok encoded ->
  Utf8.decode (Node.fernet_encrypt w encoded) = Ok token ->
  snd (add_memory zc (Node.memory_time w) (Node.io w) (Node.memory_manager node)
         content 1 (Some [Node.text "message"; Node.text "sender:" ++ sender_id])
         sender_id) = Ok e ->
  Node.process_message_with zc respond w node sender_id content true true false
  = (let message :=
       Node.mkMessage sender_id token (Node.message_time w) (Node.text "text") [] true in
     let queued :=
       Node.with_memory_manager
         (Node.with_message_queue node
            (Node.deque_append Node.MAX_MESSAGE_QUEUE_SIZE message
               (Node.message_queue node)))
         (fst (add_memory zc (Node.memory_time w) (Node.io w) (Node.memory_manager node)
                 content 1 (Some [Node.text "message"; Node.text "sender:" ++ sender_id])
                 sender_id)) in
     match Node.publish w with
     | Ok _ => (Node.with_channel queued (message :: Node.channel node), Ok message)
     | Raise err => (queued, Raise err)
     end).
Proof.
  intros He Ht Hadd.
  unfold Node.process_message_with, Node.encrypt_message.
  rewrite He. cbn [bind]. rewrite Ht. cbv zeta.
  cbn [Node.memory_manager Node.with_message_queue].
  rewrite (surjective_pairing (add_memory _ _ _ _ _ _ _ _)), Hadd. cbn [bind fst].
  destruct (Node.publish w) as [[]|err]; reflexivity.
Qed.

(** X18.  The store is given the plaintext: [process_message] with
    [encrypt] and [store_in_memory] set, whatever [trigger_agents] is,
    returns (and, Redis willing, publishes) the message with the Fernet
    token as its content, but appends to the memory index an entry that
    holds the content as it was passed in, with importance 1, the tags
    [message] and [sender:<id>] and the sender as its source, followed
    only by what the agents' turn stores; the entry is in the index also
    when Redis raises; and without the agents' turn nothing follows it
    and the message is the last of the queue. *)
Theorem encrypted_messages_are_remembered_in_plaintext :
  forall exn_text zlib_compress fernet_decrypt w turns node sender_id content encoded token
         trigger_agents,
    Utf8.encode content = Ok encoded ->
    Utf8.decode (Node.fernet_encrypt w encoded) = Ok token ->
    exists e answered,
      snd (Node.process_message exn_text zlib_compress fernet_decrypt w turns node
             sender_id content true true trigger_agents)
      = match Node.publish w with
        | Ok _ => Ok (Node.mkMessage sender_id token (Node.message_time w)
                        (Node.text "text") [] true)
        | Raise err => Raise err
        end
      /\ memories
           (Node.memory_manager
              (fst (Node.process_message exn_text zlib_compress fernet_decrypt w turns
                      node sender_id content true true trigger_agents)))
         = memories (Node.memory_manager node) ++ e :: answered
      /\ DiffMem.content e = content
      /\ importance e = 1
      /\ tags e = [Node.text "message"; Node.text "sender:" ++ sender_id]
      /\ source e = sender_id
      /\ timestamp e = Node.memory_time w
      /\ compressed e = false
      /\ match Node.publish w with
         | Ok _ =>
             exists answers,
               Node.channel
                 (fst (Node.process_message exn_text zlib_compress fernet_decrypt w turns
                         node sender_id content true true trigger_agents))
               = answers
                 ++ Node.mkMessage sender_id token (Node.message_time w)
                      (Node.text "text") [] true
                 :: Node.channel node
         | Raise _ =>
             Node.channel
               (fst (Node.process_message exn_text zlib_compress fernet_decrypt w turns
                       node sender_id content true true trigger_agents))
             = Node.channel node
             /\ answered = []
         end
      /\ (trigger_agents = false ->
          answered = []
          /\ Node.message_queue
               (fst (Node.process_message exn_text zlib_compress fernet_decrypt w turns
                       node sender_id content true true trigger_agents))
             = Node.deque_append 1000
                 (Node.mkMessage sender_id token (Node.message_time w) (Node.text "text")
                    [] true)
                 (Node.message_queue node)).
Proof.
  intros exn_text zc fd w turns node sender_id content encoded token trigger_agents He Ht.
  destruct (generate_embedding_encoded (embedding_model (Node.memory_manager node))
              content encoded He) as (records & v & G).
  destruct (add_memory_generated zc (Node.memory_time w) (Node.io w)
              (Node.memory_manager node) content 1
              (Some [Node.text "message"; Node.text "sender:" ++ sender_id]) sender_id
              records v G) as (Hres & Hidx & _).
  cbv zeta in Hres, Hidx.
  set (e := new_entry (Node.memory_time w) content 1
              (Some [Node.text "message"; Node.text "sender:" ++ sender_id])
              sender_id v) in *.
  assert (Hclamp : importance e = 1) by apply clamp_one.
  pose proof (process_encrypted_body zc (Node._process_with_agents exn_text zc fd turns)
                w node sender_id content encoded token e He Ht Hres) as Hbody.
  cbv zeta in Hbody.
  set (message := Node.mkMessage sender_id token (Node.message_time w)
                    (Node.text "text") [] true) in *.
  set (queued := Node.with_memory_manager _ _) in Hbody.
  assert (Hq : memories (Node.memory_manager queued)
               = memories (Node.memory_manager node) ++ [e]) by exact Hidx.
  unfold Node.process_message.
  destruct trigger_agents.
  - rewrite process_message_with_trigger, Hbody.
    destruct (Node.publish w) as [[]|err]; cbn [fst snd].
    + destruct (process_with_agents_stores_first exn_text zc fd turns
                  (Node.with_channel queued (message :: Node.channel node)) message)
        as (entries & published & Hm & Hc & _).
      exists e, entries. split; [reflexivity|]. split.
      { rewrite Hm. cbn [Node.memory_manager Node.with_channel].
        change (memories (Node.memory_manager queued) ++ entries
                = memories (Node.memory_manager node) ++ e :: entries).
        rewrite Hq, <- app_assoc. reflexivity. }
      repeat (split; [first [reflexivity|exact Hclamp]|]).
      split; [exists published; exact Hc|discriminate].
    + exists e, []. split; [reflexivity|]. split; [exact Hq|].
      repeat (split; [first [reflexivity|exact Hclamp]|]).
      split; [split; reflexivity|discriminate].
  - rewrite Hbody.
    destruct (Node.publish w) as [[]|err]; cbn [fst snd];
      exists e, []; (split; [reflexivity|]); (split; [exact Hq|]);
      repeat (split; [first [reflexivity|exact Hclamp]|]).
    + split; [now exists []|]. intros _. split; reflexivity.
    + split; [split; reflexivity|]. intros _. split; reflexivity.
Qed.

(** X18 on the text "note" under the stand-in cipher, sent with the
    agents' turn to a node with one agent. *)
Lemma plaintext_memory_witness :
  exists e answered,
    memories
      (Node.memory_manager
         (fst (Node.process_message Scenario.exn_name Scenario.stored_compress
                 Scenario.unshift Scenario.calm Scenario.obliging Scenario.staffed
                 Scenario.tester Scenario.note true true true)))
    = e :: answered
    /\ DiffMem.content e = Scenario.note
    /\ snd (Node.process_message Scenario.exn_name Scenario.stored_compress
              Scenario.unshift Scenario.calm Scenario.obliging Scenario.staffed
              Scenario.tester Scenario.note true true true)
       = Ok (Node.mkMessage Scenario.tester [111; 112; 117; 102]%Z 100
               (Node.text "text") [] true).
Proof.
  destruct (encrypted_messages_are_remembered_in_plaintext Scenario.exn_name
              Scenario.stored_compress Scenario.unshift Scenario.calm Scenario.obliging
              Scenario.staffed Scenario.tester Scenario.note Scenario.note
              [111; 112; 117; 102]%Z true eq_refl eq_refl)
    as (e & answered & Hres & Hidx & Hcontent & _).
  exists e, answered. split; [exact Hidx|]. split; [exact Hcontent|exact Hres].
Defined.
